(** * Tempo and key estimation of the stage-3 plugin
    (Source/BPMDetector.cpp, Source/KeyDetector.cpp), shallow embedding.

    Numbers.  The detectors compute in C++ [float] (IEEE binary32, round to
    nearest even); the sampling rate is a [double].  Both are modelled bit for
    bit with the Standard Library's [SpecFloat] ([prec = 24, emax = 128] and
    [prec = 53, emax = 1024]).  Casts from float to [int] truncate; when the
    value is NaN or out of the [int] range the x86 conversion instruction
    yields [INT_MIN], which is what [F32.to_int] returns.

    Externals.  The FFT ([juce::dsp::FFT::perform]) and the float overloads of
    [std::cos] and [std::log2] are library code, not code of this repository:
    they are the fields of the record [MathEnv] and every theorem quantifies
    over them. *)

From Stdlib Require Import ZArith String List Bool Lia Reals Lra.
From Stdlib Require Import Floats.SpecFloat.
Import ListNotations.

Open Scope Z_scope.

(** ** IEEE binary32 *)
Module F32.
Definition prec : Z := 24.
Definition emax : Z := 128.
Definition t := spec_float.

Definition add := SFadd prec emax.
Definition sub := SFsub prec emax.
Definition mul := SFmul prec emax.
Definition div := SFdiv prec emax.
Definition sqrt := SFsqrt prec emax.

(** C++ [x < y]; false as soon as one side is NaN. *)
Definition lt (x y : t) : bool := SFltb x y.

(** C++ [x <= y]. *)
Definition le (x y : t) : bool := SFleb x y.

(** Conversion of an integer to float (correctly rounded). *)
Definition of_Z (z : Z) : t := binary_normalize prec emax z 0 false.

(** The float literal [n/d], e.g. [6.35f] is [lit 635 100]: the quotient of
    two exactly representable integers, correctly rounded. *)
Definition lit (n d : Z) : t := div (of_Z n) (of_Z d).

Definition zero : t := S754_zero false.
Definition one : t := of_Z 1.

Definition is_nan (x : t) : bool :=
  match x with S754_nan => true | _ => false end.

Definition INT_MIN : Z := - 2 ^ 31.
Definition INT_MAX : Z := 2 ^ 31 - 1.

(** [static_cast<int>(x)]. *)
Definition to_int (x : t) : Z :=
  match x with
  | S754_zero _ => 0
  | S754_finite s m e =>
      let a := if 0 <=? e then Z.pos m * 2 ^ e else Z.pos m / 2 ^ (- e) in
      let v := if s then - a else a in
      if (INT_MIN <=? v) && (v <=? INT_MAX) then v else INT_MIN
  | _ => INT_MIN
  end.

(** [std::fmod], exact: the remainder of [|x|] by [|y|] with the sign of [x]. *)
Definition fmod (x y : t) : t :=
  match x, y with
  | S754_nan, _ | _, S754_nan => S754_nan
  | S754_infinity _, _ => S754_nan
  | _, S754_zero _ => S754_nan
  | S754_zero _, _ => x
  | S754_finite _ _ _, S754_infinity _ => x
  | S754_finite sx mx ex, S754_finite _ my ey =>
      let e := Z.min ex ey in
      let r := Z.pos mx * 2 ^ (ex - e) mod (Z.pos my * 2 ^ (ey - e)) in
      binary_normalize prec emax (if sx then - r else r) e sx
  end.
End F32.

(** ** IEEE binary64 (the [double] sampling rate) *)
Module F64.
Definition prec : Z := 53.
Definition emax : Z := 1024.
Definition t := spec_float.
Definition of_Z (z : Z) : t := binary_normalize prec emax z 0 false.

(** [static_cast<float>(x)] for a double [x]. *)
Definition to_f32 (x : t) : F32.t :=
  match x with
  | S754_finite s m e => binary_round F32.prec F32.emax s m e
  | S754_zero s => S754_zero s
  | S754_infinity s => S754_infinity s
  | S754_nan => S754_nan
  end.
End F64.

Abbreviation f32 := F32.t.

(** [juce::jlimit (lower, upper, v)]:
    [v < lower ? lower : (upper < v ? upper : v)]. *)
Definition jlimit (lower upper v : f32) : f32 :=
  if F32.lt v lower then lower else if F32.lt upper v then upper else v.

(** [juce::MathConstants<float>::pi] = 0x40490FDB. *)
Definition pi_f : f32 := S754_finite false 13176795 (-22).

(** ** Library code the detectors call *)
Record MathEnv := {
  (** [std::cos] on float *)
  cosf : f32 -> f32;
  (** [std::log2] on float *)
  log2f : f32 -> f32;
  (** [juce::dsp::FFT (order).perform (input, output, false)]: the complex
      output (re, im) of the forward transform of the real frame [input]. *)
  fft_perform : nat -> list f32 -> list (f32 * f32)
}.

(** [0, n) as a list of integers. *)
Definition zseq (lo n : Z) : list Z :=
  map (fun k => lo + Z.of_nat k) (seq 0 (Z.to_nat n)).

(** [data[k]]; every read of the detectors is in bounds. *)
Definition read (data : list f32) (k : Z) : f32 := nth (Z.to_nat k) data F32.zero.

(** [std::sqrt (real * real + imag * imag)] *)
Definition magnitude (c : f32 * f32) : f32 :=
  let '(re, im) := c in F32.sqrt (F32.add (F32.mul re re) (F32.mul im im)).

(** ** BPMDetector *)
Module BPM.
Definition hopSize : Z := 512.
Definition fftSize : Z := 2048.

(** The object: [double sampleRate = 44100.0; float confidence = 0.5f;] *)
Record BPMDetector := mkBPMDetector {
  sampleRate : F64.t;
  confidence : f32
}.

Definition initial : BPMDetector :=
  mkBPMDetector (F64.of_Z 44100) (F32.lit 5 10).

Definition prepare (sr : F64.t) (d : BPMDetector) : BPMDetector :=
  mkBPMDetector sr d.(confidence).

Definition getConfidence (d : BPMDetector) : f32 := d.(confidence).

Definition set_confidence (c : f32) (d : BPMDetector) : BPMDetector :=
  mkBPMDetector d.(sampleRate) c.

(** [applyHannWindow (data + start, size)]:
    [data[i] * (0.5f * (1.0f - std::cos (2.0f * pi * i / (size - 1))))]. *)
Definition applyHannWindow (M : MathEnv) (data : list f32) (start size : Z)
  : list f32 :=
  map (fun i =>
         let w := F32.mul (F32.lit 5 10)
                    (F32.sub F32.one
                       (M.(cosf) (F32.div (F32.mul (F32.mul (F32.of_Z 2) pi_f)
                                                     (F32.of_Z i))
                                            (F32.of_Z (size - 1))))) in
         F32.mul (read data (start + i)) w)
      (zseq 0 size).

(** Spectral flux: the sum of the positive differences
    [spectrum[i] - prevSpectrum[i]] (both of [fftSize / 2] bins). *)
Definition spectral_flux (spectrum prev : list f32) : f32 :=
  fold_left (fun flux p =>
               let diff := F32.sub (fst p) (snd p) in
               if F32.lt F32.zero diff then F32.add flux diff else flux)
            (combine spectrum prev) F32.zero.

(** The frame loop of [calculateOnsetStrength], from frame [frame] on, [k]
    frames left, [prev] the previous magnitude spectrum. *)
Fixpoint onset_frames (M : MathEnv) (audio : list f32) (frame : Z) (k : nat)
         (prev : list f32) : list f32 :=
  match k with
  | O => []
  | S k' =>
      let startSample := frame * hopSize in
      let windowed := applyHannWindow M audio startSample fftSize in
      let fftData := M.(fft_perform) 11%nat windowed in
      let spectrum := map magnitude (firstn (Z.to_nat (fftSize / 2)) fftData) in
      let flux := spectral_flux spectrum prev in
      flux :: onset_frames M audio (frame + 1) k' spectrum
  end.

Definition numFrames (numSamples : Z) : Z := Z.quot (numSamples - fftSize) hopSize.

Definition calculateOnsetStrength (M : MathEnv) (audio : list f32) : list f32 :=
  let numSamples := Z.of_nat (length audio) in
  onset_frames M audio 0 (Z.to_nat (numFrames numSamples))
               (repeat F32.zero (Z.to_nat (fftSize / 2))).

(** [autocorrelate (signal, lag)]: the mean of [signal[i] * signal[i + lag]]
    over [0 <= i < signal.size () - lag] (here [0 <= lag < size / 2]). *)
Definition autocorrelate (signal : list f32) (lag : Z) : f32 :=
  let count := Z.of_nat (length signal) - lag in
  let sum := fold_left (fun s i => F32.add s (F32.mul (read signal i)
                                                       (read signal (i + lag))))
                       (zseq 0 count) F32.zero in
  if 0 <? count then F32.div sum (F32.of_Z count) else F32.zero.

(** The lag loop: [(maxCorr, bestLag)], updated on strict increase only. *)
Definition lag_search (onset : list f32) (minLag maxLagRange : Z) : f32 * Z :=
  fold_left (fun acc lag =>
               let corr := autocorrelate onset lag in
               if F32.lt (fst acc) corr then (corr, lag) else acc)
            (zseq minLag (maxLagRange - minLag)) (F32.zero, 0).

Definition framesPerSecond (sr : F64.t) : f32 :=
  F32.div (F64.to_f32 sr) (F32.of_Z hopSize).

Definition minLag (sr : F64.t) : Z :=
  F32.to_int (F32.div (F32.mul (framesPerSecond sr) (F32.of_Z 60)) (F32.of_Z 240)).

Definition maxLagRange (sr : F64.t) (onset : list f32) : Z :=
  Z.min (F32.to_int (F32.div (F32.mul (framesPerSecond sr) (F32.of_Z 60)) (F32.of_Z 40)))
        (Z.of_nat (length onset) / 2).

Definition bestLag (sr : F64.t) (onset : list f32) : Z :=
  snd (lag_search onset (minLag sr) (maxLagRange sr onset)).

Definition estimateTempoFromOnsets (sr : F64.t) (onset : list f32) : f32 :=
  if (Z.of_nat (length onset) <? 10) then F32.zero
  else
    let lag := bestLag sr onset in
    if lag =? 0 then F32.zero
    else
      let beatsPerFrame := F32.div F32.one (F32.of_Z lag) in
      let beatsPerSecond := F32.mul beatsPerFrame (framesPerSecond sr) in
      F32.mul beatsPerSecond (F32.of_Z 60).

(** The range guard [bpm < 40.0f || bpm > 240.0f]. *)
Definition out_of_range (bpm : f32) : bool :=
  F32.lt bpm (F32.of_Z 40) || F32.lt (F32.of_Z 240) bpm.

Definition mean (xs : list f32) : f32 :=
  F32.div (fold_left F32.add xs F32.zero) (F32.of_Z (Z.of_nat (length xs))).

Definition variance_loop (xs : list f32) : f32 :=
  let m := mean xs in
  F32.div (fold_left (fun v x => F32.add v (F32.mul (F32.sub x m) (F32.sub x m)))
                     xs F32.zero)
          (F32.of_Z (Z.of_nat (length xs))).

(** [detectBPM]: the returned bpm and the object after the call. *)
Definition detectBPM (M : MathEnv) (d : BPMDetector) (audio : list f32)
  : f32 * BPMDetector :=
  if Z.of_nat (length audio) <? fftSize then (F32.zero, d)
  else
    let onset := calculateOnsetStrength M audio in
    match onset with
    | [] => (F32.zero, d)
    | _ :: _ =>
        let bpm := estimateTempoFromOnsets d.(sampleRate) onset in
        if out_of_range bpm then (F32.of_Z 120, set_confidence (F32.lit 3 10) d)
        else
          let variance := variance_loop onset in
          (bpm, set_confidence (jlimit F32.zero F32.one
                                       (F32.mul variance (F32.of_Z 10))) d)
    end.
End BPM.

(** ** KeyDetector *)
Module Key.
Definition hopSize : Z := 512.
Definition fftSize : Z := 4096.

(** The object: [double sampleRate = 44100.0;] *)
Record KeyDetector := mkKeyDetector { sampleRate : F64.t }.

Definition initial : KeyDetector := mkKeyDetector (F64.of_Z 44100).

Definition prepare (sr : F64.t) (d : KeyDetector) : KeyDetector := mkKeyDetector sr.

(** Krumhansl-Schmuckler profiles. *)
Definition majorProfile : list f32 :=
  map (fun n => F32.lit n 100)
      [635; 223; 348; 233; 438; 409; 252; 519; 239; 366; 229; 288].

Definition minorProfile : list f32 :=
  map (fun n => F32.lit n 100)
      [633; 268; 352; 538; 260; 353; 254; 475; 398; 269; 334; 317].

Definition pitchClasses : list string :=
  ["C"; "C#"; "D"; "D#"; "E"; "F"; "F#"; "G"; "G#"; "A"; "A#"; "B"]%string.

Definition pitchClass (root : nat) : string := nth root pitchClasses "C"%string.

(** The result tuple [(key, mode, confidence)]. *)
Definition KeyResult := (string * string * f32)%type.

(** [frequencyToPitchClass]: [fmod (69 + 12 * log2 (f / 440), 12)]. *)
Definition frequencyToPitchClass (M : MathEnv) (frequency : f32) : f32 :=
  let midiNote := F32.add (F32.of_Z 69)
                          (F32.mul (F32.of_Z 12)
                                   (M.(log2f) (F32.div frequency (F32.of_Z 440)))) in
  F32.fmod midiNote (F32.of_Z 12).

(** [chromagram[idx] += mag].  An index outside [0, 12) would be undefined
    behaviour in C++; it cannot arise for frequencies in [27.5, 4186] with
    a faithful [log2], and the model leaves the array unchanged there. *)
Fixpoint add_at (k : nat) (mag : f32) (c : list f32) : list f32 :=
  match c, k with
  | [], _ => []
  | v :: c', O => F32.add v mag :: c'
  | v :: c', S k' => v :: add_at k' mag c'
  end.

Definition accumulate (c : list f32) (idx : Z) (mag : f32) : list f32 :=
  if (0 <=? idx) && (idx <? 12) then add_at (Z.to_nat idx) mag c else c.

(** The inline Hann window of [calculateChromagram]. *)
Definition hann_frame (M : MathEnv) (audio : list f32) (startSample : Z) : list f32 :=
  map (fun i =>
         let window := F32.mul (F32.lit 5 10)
                         (F32.sub F32.one
                            (M.(cosf) (F32.div (F32.mul (F32.mul (F32.of_Z 2) pi_f)
                                                        (F32.of_Z i))
                                               (F32.of_Z (fftSize - 1))))) in
         F32.mul (read audio (startSample + i)) window)
      (zseq 0 fftSize).

(** The bin loop of one frame: bins [1 <= bin < fftSize / 2]. *)
Definition frame_bins (M : MathEnv) (sr : F64.t) (fftData : list (f32 * f32))
           (c : list f32) : list f32 :=
  fold_left (fun c bin =>
               let frequency := F32.div (F32.mul (F32.of_Z bin) (F64.to_f32 sr))
                                        (F32.of_Z fftSize) in
               if F32.lt frequency (F32.lit 275 10) || F32.lt (F32.of_Z 4186) frequency
               then c
               else
                 let mag := magnitude (nth (Z.to_nat bin) fftData (F32.zero, F32.zero)) in
                 let pc := frequencyToPitchClass M frequency in
                 accumulate c (Z.rem (F32.to_int pc) 12) mag)
            (zseq 1 (fftSize / 2 - 1)) c.

Definition numFrames (numSamples : Z) : Z := Z.quot (numSamples - fftSize) hopSize.

Definition calculateChromagram (M : MathEnv) (sr : F64.t) (audio : list f32)
  : list f32 :=
  fold_left (fun c frame =>
               let windowed := hann_frame M audio (frame * hopSize) in
               let fftData := M.(fft_perform) 12%nat windowed in
               frame_bins M sr fftData c)
            (zseq 0 (numFrames (Z.of_nat (length audio))))
            (repeat F32.zero 12).

(** The normalisation step of [detectKey]. *)
Definition normalize (chromagram : list f32) : list f32 :=
  let sum := fold_left F32.add chromagram F32.zero in
  if F32.lt F32.zero sum then map (fun v => F32.div v sum) chromagram
  else chromagram.

(** [rotated[i] = profile[(i + root) % 12]]. *)
Definition rotate (profile : list f32) (root : nat) : list f32 :=
  map (fun i => nth ((i + root) mod 12) profile F32.zero) (seq 0 12).

Definition at12 (x : list f32) (i : nat) : f32 := nth i x F32.zero.

Definition eps_f : f32 := F32.lit 1 (10 ^ 10).

(** First loop of [correlation]: [meanX += x[i]; meanY += y[i];]. *)
Definition sums_step (x y : list f32) (acc : f32 * f32) (i : nat) : f32 * f32 :=
  (F32.add (fst acc) (at12 x i), F32.add (snd acc) (at12 y i)).

(** Second loop: [stdX += dx * dx; stdY += dy * dy; covariance += dx * dy;]. *)
Definition moments_step (x y : list f32) (meanX meanY : f32)
           (acc : f32 * f32 * f32) (i : nat) : f32 * f32 * f32 :=
  let '(sX, sY, cov) := acc in
  let dx := F32.sub (at12 x i) meanX in
  let dy := F32.sub (at12 y i) meanY in
  (F32.add sX (F32.mul dx dx), F32.add sY (F32.mul dy dy), F32.add cov (F32.mul dx dy)).

(** [correlation (x, y)]. *)
Definition correlation (x y : list f32) : f32 :=
  let '(sumX, sumY) := fold_left (sums_step x y) (seq 0 12) (F32.zero, F32.zero) in
  let meanX := F32.div sumX (F32.of_Z 12) in
  let meanY := F32.div sumY (F32.of_Z 12) in
  let '(sX, sY, cov) :=
    fold_left (moments_step x y meanX meanY) (seq 0 12) (F32.zero, F32.zero, F32.zero) in
  let stdX := F32.sqrt sX in
  let stdY := F32.sqrt sY in
  if F32.lt stdX eps_f || F32.lt stdY eps_f then F32.zero
  else F32.div cov (F32.mul stdX stdY).

(** One root of [findBestKey]: major first, then minor, strict updates. *)
Definition root_step (pcd : list f32) (best : f32 * string * string) (root : nat)
  : f32 * string * string :=
  let majorCorr := correlation pcd (rotate majorProfile root) in
  let minorCorr := correlation pcd (rotate minorProfile root) in
  let '(m1, k1, md1) := best in
  let best1 := if F32.lt m1 majorCorr then (majorCorr, pitchClass root, "major"%string)
               else best in
  let '(m2, k2, md2) := best1 in
  if F32.lt m2 minorCorr then (minorCorr, pitchClass root, "minor"%string) else best1.

Definition findBestKey (pcd : list f32) : KeyResult :=
  let '(maxCorrelation, bestKey, bestMode) :=
    fold_left (root_step pcd) (seq 0 12) (F32.of_Z (-1), "C"%string, "major"%string) in
  let confidence := F32.div (F32.add maxCorrelation F32.one) (F32.of_Z 2) in
  (bestKey, bestMode, jlimit F32.zero F32.one confidence).

Definition detectKey (M : MathEnv) (d : KeyDetector) (audio : list f32) : KeyResult :=
  if Z.of_nat (length audio) <? fftSize then ("C"%string, "major"%string, F32.zero)
  else findBestKey (normalize (calculateChromagram M d.(sampleRate) audio)).
End Key.

(** ** A reference instance of the library code

    A concrete [MathEnv] for evaluating the detectors on sample inputs:
    cosine and sine by range reduction and Taylor polynomials, [log2] by
    exponent extraction and the [atanh] series, and a radix-2
    decimation-in-time FFT, all in binary32.  The theorems hold for every
    [MathEnv]; this one only makes witnesses computable. *)
Module RefMath.
Definition two_pi : f32 := F32.mul (F32.of_Z 2) pi_f.

Definition reduce (x : f32) : f32 :=
  let k := F32.to_int (F32.div x two_pi) in
  let r := F32.sub x (F32.mul (F32.of_Z k) two_pi) in
  if F32.lt pi_f r then F32.sub r two_pi
  else if F32.lt r (F32.sub F32.zero pi_f) then F32.add r two_pi else r.

(** [1 - r2/d1 (1 - r2/d2 (... (1 - r2/dn)))] *)
Definition horner (r2 : f32) (ds : list Z) : f32 :=
  fold_right (fun d acc => F32.sub F32.one (F32.mul (F32.div r2 (F32.of_Z d)) acc))
             F32.one ds.

Definition cos (x : f32) : f32 :=
  let r := reduce x in
  horner (F32.mul r r) [2; 12; 30; 56; 90; 132; 182; 240].

Definition sin (x : f32) : f32 :=
  let r := reduce x in
  F32.mul r (horner (F32.mul r r) [6; 20; 42; 72; 110; 156; 210]).

Definition ln2 : f32 := F32.lit 6931471806 10000000000.

Fixpoint atanh_series (z2 : f32) (k : nat) (d : Z) : f32 :=
  match k with
  | O => F32.zero
  | S k' => F32.add (F32.div F32.one (F32.of_Z d))
                    (F32.mul z2 (atanh_series z2 k' (d + 2)))
  end.

Definition log2 (x : f32) : f32 :=
  match x with
  | S754_nan => S754_nan
  | S754_zero _ => S754_infinity true
  | S754_infinity false => x
  | S754_infinity true => S754_nan
  | S754_finite true _ _ => S754_nan
  | S754_finite false m e =>
      let d := Z.pos (Pos.size m) in
      (* x = f * 2^E with f in [1, 2) *)
      let f := binary_normalize F32.prec F32.emax (Z.pos m) (1 - d) false in
      let E := e + d - 1 in
      let z := F32.div (F32.sub f F32.one) (F32.add f F32.one) in
      let lnf := F32.mul (F32.mul (F32.of_Z 2) z)
                         (atanh_series (F32.mul z z) 8 1) in
      F32.add (F32.of_Z E) (F32.div lnf ln2)
  end.

Definition cadd (a b : f32 * f32) : f32 * f32 := (F32.add (fst a) (fst b), F32.add (snd a) (snd b)).
Definition csub (a b : f32 * f32) : f32 * f32 := (F32.sub (fst a) (fst b), F32.sub (snd a) (snd b)).
Definition cmul (a b : f32 * f32) : f32 * f32 :=
  (F32.sub (F32.mul (fst a) (fst b)) (F32.mul (snd a) (snd b)),
   F32.add (F32.mul (fst a) (snd b)) (F32.mul (snd a) (fst b))).

(** Even- and odd-indexed elements. *)
Fixpoint split_eo {A} (l : list A) : list A * list A :=
  match l with
  | [] => ([], [])
  | a :: t => let '(e, o) := split_eo t in (a :: o, e)
  end.

(** [exp (-2 pi i j / n)] *)
Definition twiddle (n j : Z) : f32 * f32 :=
  let a := F32.div (F32.mul (F32.of_Z (-2 * j)) pi_f) (F32.of_Z n) in
  (cos a, sin a).

Fixpoint fft_rec (k : nat) (xs : list (f32 * f32)) : list (f32 * f32) :=
  match k with
  | O => xs
  | S k' =>
      let '(ev, od) := split_eo xs in
      let E := fft_rec k' ev in
      let O := fft_rec k' od in
      let n := 2 ^ Z.of_nat k in
      let T := map (fun p => cmul (twiddle n (fst p)) (snd p))
                   (combine (zseq 0 (n / 2)) O) in
      map (fun p => cadd (fst p) (snd p)) (combine E T)
        ++ map (fun p => csub (fst p) (snd p)) (combine E T)
  end.

Definition env : MathEnv := {|
  cosf := cos;
  log2f := log2;
  fft_perform := fun order input => fft_rec order (map (fun x => (x, F32.zero)) input)
|}.
End RefMath.

(** A second, cheap instance: [cos] is constantly [0] (so the window is the
    constant [0.5]) and the transform copies the frame into the real parts.
    It keeps witnesses that run whole frames within a few seconds. *)
Definition probe_env : MathEnv := {|
  cosf := fun _ => F32.zero;
  log2f := RefMath.log2;
  fft_perform := fun _ input => map (fun x => (x, F32.zero)) input
|}.

(** A click every [period] samples. *)
Definition clicks (n period : Z) : list f32 :=
  map (fun i => if i mod period =? 0 then F32.one else F32.zero) (zseq 0 n).

(** ** Call histories on one detector object *)
Inductive BPMCall :=
  | BPMPrepare (sr : F64.t)
  | BPMDetect (audio : list f32).

Definition bpm_step (M : MathEnv) (d : BPM.BPMDetector) (c : BPMCall) : BPM.BPMDetector :=
  match c with
  | BPMPrepare sr => BPM.prepare sr d
  | BPMDetect audio => snd (BPM.detectBPM M d audio)
  end.

(** The object after a history of calls, from the constructor on. *)
Definition run_bpm (M : MathEnv) (h : list BPMCall) : BPM.BPMDetector :=
  fold_left (bpm_step M) h BPM.initial.

(** What a caller observes of a [detectBPM] call: the bpm and [getConfidence ()]. *)
Definition observe_bpm (M : MathEnv) (d : BPM.BPMDetector) (audio : list f32) : f32 * f32 :=
  let '(bpm, d') := BPM.detectBPM M d audio in (bpm, BPM.getConfidence d').

(** The calls of [detectBPM] that return before assigning [confidence]. *)
Definition bpm_early_return (M : MathEnv) (audio : list f32) : bool :=
  (Z.of_nat (length audio) <? BPM.fftSize)
  || match BPM.calculateOnsetStrength M audio with [] => true | _ => false end.

(** Two call histories that end on the same sampling rate.  The BPM detector
    is prepared at 48000 Hz, runs a 2560-sample call (the fallback sets the
    confidence to 0.3) and is prepared at 44100 Hz again; the key detector is
    prepared at 48000 Hz, then at 44100 Hz. *)
Definition c4_history : list BPMCall :=
  [BPMPrepare (F64.of_Z 48000); BPMDetect (repeat F32.zero 2560); BPMPrepare (F64.of_Z 44100)].

Definition c4_key : Key.KeyDetector :=
  Key.prepare (F64.of_Z 44100) (Key.prepare (F64.of_Z 48000) Key.initial).

(** 7680 samples with a click every 1024: an envelope of 11 values, so
    [detectBPM] runs to the end and assigns the confidence. *)
Definition c4_audio : list f32 := clicks 7680 1024.

(** ** The confidence formula as the spec words it *)
Definition sum_f32 (xs : list f32) : f32 := fold_left F32.add xs F32.zero.

(** Population variance: the mean of the squared deviations from the mean. *)
Definition population_variance (xs : list f32) : f32 :=
  let n := F32.of_Z (Z.of_nat (length xs)) in
  let m := F32.div (sum_f32 xs) n in
  F32.div (sum_f32 (map (fun x => F32.mul (F32.sub x m) (F32.sub x m)) xs)) n.

(** [clamp (v, lo, hi)]: [lo] below [lo], [hi] above [hi], else [v]. *)
Definition clamp (v lo hi : f32) : f32 :=
  if F32.lt v lo then lo else if F32.lt hi v then hi else v.

(** ** Key detection, read from the specification *)

(** The 24 candidates of [findBestKey] in scan order: roots ascending, the
    major profile before the minor one at each root. *)
Definition root_candidates (pcd : list f32) (root : nat) : list (f32 * (string * string)) :=
  [(Key.correlation pcd (Key.rotate Key.majorProfile root), (Key.pitchClass root, "major"%string));
   (Key.correlation pcd (Key.rotate Key.minorProfile root), (Key.pitchClass root, "minor"%string))].

Definition key_candidates (pcd : list f32) : list (f32 * (string * string)) :=
  flat_map (root_candidates pcd) (seq 0 12).

(** A running maximum that moves only on a strict increase. *)
Definition scan_step (best c : f32 * (string * string)) : f32 * (string * string) :=
  if F32.lt (fst best) (fst c) then c else best.

Definition scan_max (cs : list (f32 * (string * string))) (init : f32 * (string * string))
  : f32 * (string * string) :=
  fold_left scan_step cs init.

(** The mean of a 12-vector, and the sum of products of deviations from the
    means, each as a loop of its own. *)
Definition mean12 (x : list f32) : f32 :=
  F32.div (fold_left (fun s i => F32.add s (Key.at12 x i)) (seq 0 12) F32.zero) (F32.of_Z 12).

Definition sum_dev (x y : list f32) : f32 :=
  fold_left (fun s i => F32.add s (F32.mul (F32.sub (Key.at12 x i) (mean12 x))
                                           (F32.sub (Key.at12 y i) (mean12 y))))
            (seq 0 12) F32.zero.

Definition std12 (x : list f32) : f32 := F32.sqrt (sum_dev x x).

Definition covariance12 (x y : list f32) : f32 := sum_dev x y.

(** A float zero of either sign. *)
Definition is_zero (x : f32) : bool :=
  match x with S754_zero _ => true | _ => false end.

(** The chromagram with all of its energy at pitch class [k]. *)
Definition unit_at (k : nat) : list f32 :=
  map (fun i => if Nat.eqb i k then F32.one else F32.zero) (seq 0 12).

(** The order of [SFcompare] on values other than NaN, as a lexicographic key. *)
Definition fkey (x : f32) : Z * Z * Z :=
  match x with
  | S754_infinity true => (0, 0, 0)
  | S754_finite true m e => (1, - e, - Z.pos m)
  | S754_zero _ => (2, 0, 0)
  | S754_finite false m e => (3, e, Z.pos m)
  | S754_infinity false => (4, 0, 0)
  | S754_nan => (5, 0, 0)
  end.

Definition lexlt (a b : Z * Z * Z) : Prop :=
  let '(a1, a2, a3) := a in
  let '(b1, b2, b3) := b in
  a1 < b1 \/ (a1 = b1 /\ (a2 < b2 \/ (a2 = b2 /\ a3 < b3))).

(** Candidates whose score is a number. *)
Definition nn (c : f32 * (string * string)) : Prop := F32.is_nan (fst c) = false.

(** The running best of [findBestKey], regrouped as a candidate. *)
Definition tr3 (b : f32 * string * string) : f32 * (string * string) :=
  let '(m, k, md) := b in (m, (k, md)).

(** * The sign of the analysis values

    [nonneg_num x] holds for [+0], the positive finite floats and [+inf]. The
    onset envelope and the chromagram bins are sums of magnitudes, which stay in
    this set or become NaN. *)
Definition nonneg_num (x : f32) : bool :=
  match x with
  | S754_zero false | S754_finite false _ _ | S754_infinity false => true
  | _ => false
  end.

(** A chromagram with 12 bins, each [nonneg_num] or NaN. *)
Definition bins_ok (c : list f32) : Prop :=
  length c = 12%nat /\ Forall (fun v => nonneg_num v || F32.is_nan v = true) c.

(** The running best of [findBestKey]: a score that is a number, a pitch class
    name and a mode. *)
Definition best_ok (b : f32 * string * string) : Prop :=
  let '(m, k, md) := b in
  F32.is_nan m = false /\ In k Key.pitchClasses /\ (md = "major"%string \/ md = "minor"%string).

(** * The lag search of [estimateTempoFromOnsets]

    One step of the loop over lags, for an arbitrary score function [f]
    (the autocorrelation in the source), and the invariant of the loop after the
    lags [lo .. top - 1]: the best score is a number that no lag beats, and it is
    either the initial [(0, 0)] or the score of the first lag that reaches it. *)
Definition lag_step (f : Z -> f32) (acc : f32 * Z) (lag : Z) : f32 * Z :=
  if F32.lt (fst acc) (f lag) then (f lag, lag) else acc.

Definition lag_inv (f : Z -> f32) (lo : Z) (top : Z) (acc : f32 * Z) : Prop :=
  F32.is_nan (fst acc) = false /\
  (forall l, lo <= l < top -> F32.lt (fst acc) (f l) = false) /\
  ((acc = (F32.zero, 0) /\ forall l, lo <= l < top -> F32.lt F32.zero (f l) = false) \/
   (lo <= snd acc < top /\ fst acc = f (snd acc) /\ F32.lt F32.zero (fst acc) = true /\
    forall l, lo <= l < snd acc -> F32.lt (f l) (fst acc) = true \/ F32.is_nan (f l) = true)).

(** * The analysis buffer of [BPMKeyDetectorAudioProcessor]

    [dst[k] = v] on a row of the buffer. A write past the end of the row, which
    the C++ code never performs while the write position stays below the row
    length, leaves the row unchanged. *)
Fixpoint set_at {A : Type} (l : list A) (k : nat) (x : A) : list A :=
  match l, k with
  | [], _ => []
  | _ :: t, O => x :: t
  | h :: t, S k' => h :: set_at t k' x
  end.

(** The fields of the processor that [processBlock] reads and writes. *)
Record Analysis := mkAnalysis {
  analysisBuffer : list (list f32);
  analysisBufferWritePos : Z;
  analysisBufferSize : Z;
  analyzing : bool
}.

(** The inner loop of [processBlock] on one channel: every sample of [src]
    goes to [dst[analysisBufferWritePos]], and the write position advances by
    one modulo [analysisBufferSize]. *)
Definition copy_channel (size : Z) (src : list f32) (numSamples : Z)
           (st : list f32 * Z) : list f32 * Z :=
  fold_left (fun (st : list f32 * Z) i =>
               let '(dst, pos) := st in
               (set_at dst (Z.to_nat pos) (read src i), Z.rem (pos + 1) size))
            (zseq 0 numSamples) st.

(** The copy of the incoming block into the analysis buffer, the part of
    [processBlock] that changes the processor's state (the pass-through of the
    audio leaves it alone). The write position is shared by the channels: the
    second channel is written where the first one stopped. *)
Definition processBlock_copy (buffer : list (list f32)) (numSamples : Z) (a : Analysis) : Analysis :=
  if a.(analyzing) then
    let numChannels := Z.min (Z.of_nat (length buffer)) (Z.of_nat (length a.(analysisBuffer))) in
    let '(rows, pos) :=
      fold_left (fun (st : list (list f32) * Z) channel =>
                   let '(rows, pos) := st in
                   let '(row, pos') := copy_channel a.(analysisBufferSize)
                                         (nth (Z.to_nat channel) buffer [])
                                         numSamples (nth (Z.to_nat channel) rows [], pos) in
                   (set_at rows (Z.to_nat channel) row, pos'))
                (zseq 0 numChannels) (a.(analysisBuffer), a.(analysisBufferWritePos)) in
    mkAnalysis rows pos a.(analysisBufferSize) a.(analyzing)
  else a.

(** One iteration of the channel loop of [processBlock_copy]. *)
Definition ring_step (size : Z) (buffer : list (list f32)) (n : Z)
           (st : list (list f32) * Z) (channel : Z) : list (list f32) * Z :=
  let '(rows, pos) := st in
  let '(row, pos') := copy_channel size (nth (Z.to_nat channel) buffer []) n
                        (nth (Z.to_nat channel) rows [], pos) in
  (set_at rows (Z.to_nat channel) row, pos').

(** The invariant of the channel loop after [k] channels, starting from the
    rows [rows0] and the write position [pos0]. *)
Definition ring_inv (size : Z) (buffer : list (list f32)) (n : Z) (rows0 : list (list f32)) (pos0 : Z) (k : Z) (st : list (list f32) * Z) : Prop :=
  let '(rows, pos) := st in
  pos = (pos0 + k * n) mod size /\ length rows = length rows0 /\
  Forall (fun row => length row = Z.to_nat size) rows /\
  (forall c i, 0 <= c < k -> 0 <= i < n ->
     nth (Z.to_nat ((pos0 + c * n + i) mod size)) (nth (Z.to_nat c) rows []) F32.zero
       = read (nth (Z.to_nat c) buffer []) i) /\
  (forall c, k <= c -> nth (Z.to_nat c) rows [] = nth (Z.to_nat c) rows0 []).

(** Two buffers of 4608 samples that differ only in their last 512 samples. *)
Definition hop_a : list f32 := repeat F32.zero 4608.

Definition hop_b : list f32 := repeat F32.zero 4096 ++ repeat F32.one 512.

(** A stereo analysis buffer of 4 samples written from position 3, and a block of
    2 samples per channel. *)
Definition ring_state : Analysis := mkAnalysis [repeat F32.zero 4; repeat F32.zero 4] 3 4 true.

Definition ring_block : list (list f32) := [[F32.one; F32.one]; [F32.one; F32.zero]].

(** ** A loud click through the reference FFT *)

(** A very loud click: 4608 samples, all [+0] except the one at index 2048,
    which holds [2^100]. *)
Definition loud_click : list f32 :=
  map (fun i => if i =? 2048 then F32.of_Z (2 ^ 100) else F32.zero) (zseq 0 4608).

(** [+0], [-0] or a finite binary32 value. *)
Definition fin (x : f32) : bool :=
  match x with S754_zero _ | S754_finite _ _ _ => true | _ => false end.

(** A complex value whose two parts are zeros. *)
Definition zc (p : f32 * f32) : bool := is_zero (fst p) && is_zero (snd p).

(** A complex value [(+/-loudA, +/-0)]. *)
Definition loud_peak (p : f32 * f32) : bool :=
  match fst p with
  | S754_finite _ m e => Pos.eqb m 16777210 && Z.eqb e 76
  | _ => false
  end && is_zero (snd p).

(** The Hann window factor of [Key.hann_frame] at index [i]. *)
Definition key_window (M : MathEnv) (i : Z) : f32 :=
  F32.mul (F32.lit 5 10)
    (F32.sub F32.one
       (M.(cosf) (F32.div (F32.mul (F32.mul (F32.of_Z 2) pi_f) (F32.of_Z i))
                          (F32.of_Z (Key.fftSize - 1))))).

(** [2^100] times the Hann window at index 2048: the amplitude that survives
    every butterfly of the FFT of the windowed [loud_click]. *)
Definition loudA : f32 := S754_finite false 16777210 76.

(** The complex input of the FFT for the first frame of [loud_click]. *)
Definition loud_frame : list (f32 * f32) :=
  map (fun x => (x, F32.zero)) (Key.hann_frame RefMath.env loud_click 0).

(** 4096 bins of magnitude [+inf]. *)
Definition inf_frame : list (f32 * f32) := repeat (S754_infinity false, F32.zero) 4096.

(** * Real-number reading of binary32 values

    Used to state the accuracy of the chromagram normalisation: [val] maps a
    finite float to the real it denotes, [nonneg_fin] singles out [+0] and the
    positive finite values, and [rsum] is the exact real sum of a list of
    floats. [rs_ok] and [rec_ok] relate the round and sticky bits of
    [SpecFloat]'s rounding records to the exact value being rounded. *)
Section RealDefs.
Local Open Scope R_scope.

(** [2 ^ e] as a real. *)
Definition bpow (e : Z) : R := powerRZ 2 e.

Definition val (f : spec_float) : R :=
  match f with
  | S754_finite s m e => ((if s then - IZR (Zpos m) else IZR (Zpos m)) * bpow e)%R
  | _ => 0%R
  end.

Definition nonneg_fin (f : spec_float) : Prop :=
  match f with
  | S754_zero false => True
  | S754_finite false _ e => (-149 <= e)%Z
  | _ => False
  end.

Definition rs_ok (r s : bool) (rho : R) : Prop :=
  match r, s with
  | false, false => rho = 0%R
  | false, true => (0 < rho < /2)%R
  | true, false => rho = (/2)%R
  | true, true => (/2 < rho < 1)%R
  end.

Definition rec_ok (mrs : shr_record) (y : R) : Prop :=
  (0 <= shr_m mrs)%Z /\ rs_ok (shr_r mrs) (shr_s mrs) (y - IZR (shr_m mrs)).

Definition rsum (l : list f32) : R := fold_right Rplus 0%R (map val l).

(** A chromagram with the energies 1, 2, ..., 12. *)
Definition ramp_chroma : list f32 := map (fun i => F32.of_Z (Z.of_nat i)) (seq 1 12).

End RealDefs.

(** * Facts about the binary32 operations *)
Section FloatFacts.

Lemma SFcompare_swap (x y : spec_float) :
  SFcompare y x = option_map CompOpp (SFcompare x y).
Proof.
  destruct x as [sx|sx| |sx mx ex], y as [sy|sy| |sy my ey]; simpl; auto;
    try (destruct sx; destruct sy; reflexivity);
    try (destruct sx; reflexivity); try (destruct sy; reflexivity).
  destruct sx, sy; simpl; auto.
  - rewrite (Z.compare_antisym ex ey).
    destruct (Z.compare ex ey); simpl; auto.
    f_equal; rewrite ?CompOpp_involutive;
      first [ exact (eq_sym (Pos.compare_cont_antisym mx my Eq))
            | exact (Pos.compare_cont_antisym my mx Eq)
            | exact (Pos.compare_cont_antisym mx my Eq) ].
  - rewrite (Z.compare_antisym ex ey).
    destruct (Z.compare ex ey); simpl; auto.
    f_equal; rewrite ?CompOpp_involutive;
      first [ exact (eq_sym (Pos.compare_cont_antisym mx my Eq))
            | exact (Pos.compare_cont_antisym my mx Eq)
            | exact (Pos.compare_cont_antisym mx my Eq) ].
Qed.

(** A value that is not NaN and not below [a] is at least [a]. *)
Lemma lt_false_le (x a : spec_float) :
  F32.is_nan x = false -> a <> S754_nan -> F32.lt x a = false -> F32.le a x = true.
Proof.
  intros Hx Ha H. unfold F32.lt, F32.le, SFltb, SFleb in *.
  rewrite SFcompare_swap.
  destruct (SFcompare x a) as [c|] eqn:E.
  - destruct c; simpl in *; congruence.
  - destruct x, a; simpl in *; congruence.
Qed.

Lemma lt_false_le' (x a : spec_float) :
  F32.is_nan x = false -> a <> S754_nan -> F32.lt a x = false -> F32.le x a = true.
Proof.
  intros Hx Ha H. unfold F32.lt, F32.le, SFltb, SFleb in *.
  rewrite SFcompare_swap in H.
  destruct (SFcompare x a) as [c|] eqn:E.
  - destruct c; simpl in *; congruence.
  - destruct x, a; simpl in *; congruence.
Qed.

(** Rounding a non-negative mantissa never yields NaN. *)
Lemma shr_1_nonneg (r : shr_record) : 0 <= shr_m r -> 0 <= shr_m (shr_1 r).
Proof.
  destruct r as [m rb sb]; simpl; intros H.
  destruct m as [|p|p]; [simpl; lia| |lia].
  destruct p; simpl; lia.
Qed.

Lemma iter_shr_1_nonneg (p : positive) : forall r,
  0 <= shr_m r -> 0 <= shr_m (iter_pos shr_1 p r).
Proof.
  induction p as [p IH|p IH|]; intros r H; simpl.
  - apply IH, IH, shr_1_nonneg, H.
  - apply IH, IH, H.
  - apply shr_1_nonneg, H.
Qed.

Lemma shr_fexp_nonneg (prec emax m e : Z) (l : location) :
  0 <= m -> 0 <= shr_m (fst (shr_fexp prec emax m e l)).
Proof.
  intros H. unfold shr_fexp, shr.
  assert (Hr : 0 <= shr_m (shr_record_of_loc m l))
    by (destruct l as [|[]]; simpl; exact H).
  destruct (fexp prec emax (Zdigits2 m + e) - e); simpl; auto.
  apply iter_shr_1_nonneg, Hr.
Qed.

Lemma round_nearest_even_nonneg (m : Z) (l : location) :
  0 <= m -> 0 <= round_nearest_even m l.
Proof.
  intros H. destruct l as [|[]]; simpl; try lia.
  destruct (Z.even m); lia.
Qed.

Lemma binary_round_aux_not_nan (prec emax : Z) (s : bool) (m e : Z) (l : location) :
  0 <= m -> binary_round_aux prec emax s m e l <> S754_nan.
Proof.
  intros H. unfold binary_round_aux.
  pose proof (shr_fexp_nonneg prec emax m e l H) as H1.
  destruct (shr_fexp prec emax m e l) as [r1 e1]. simpl in H1.
  pose proof (shr_fexp_nonneg prec emax _ e1 loc_Exact
                (round_nearest_even_nonneg (shr_m r1) (loc_of_shr_record r1) H1)) as H2.
  destruct (shr_fexp prec emax (round_nearest_even (shr_m r1) (loc_of_shr_record r1)) e1 loc_Exact)
    as [r2 e2]. simpl in H2.
  destruct (shr_m r2); [discriminate| |lia].
  destruct (e2 <=? emax - prec); discriminate.
Qed.

Lemma mul_finite_not_nan (s1 s2 : bool) (m1 m2 : positive) (e1 e2 : Z) :
  F32.is_nan (F32.mul (S754_finite s1 m1 e1) (S754_finite s2 m2 e2)) = false.
Proof.
  unfold F32.mul, SFmul.
  pose proof (binary_round_aux_not_nan F32.prec F32.emax (xorb s1 s2)
                (Z.pos (m1 * m2)) (e1 + e2) loc_Exact ltac:(lia)) as H.
  destruct (binary_round_aux _ _ _ _ _ _); simpl; congruence.
Qed.

Lemma div_finite_not_nan (s1 s2 : bool) (m1 m2 : positive) (e1 e2 : Z) :
  F32.is_nan (F32.div (S754_finite s1 m1 e1) (S754_finite s2 m2 e2)) = false.
Proof.
  unfold F32.div, SFdiv, SFdiv_core_binary.
  set (s := _ - _ - _).
  set (m' := match s with Z.pos _ => Z.shiftl (Z.pos m1) s | 0 => Z.pos m1 | Z.neg _ => 0 end).
  assert (Hm : 0 <= m').
  { subst m'. destruct s; [lia| |lia]. apply Z.shiftl_nonneg; lia. }
  pose proof (Z_div_mod m' (Z.pos m2) ltac:(lia)) as Hd.
  destruct (Z.div_eucl m' (Z.pos m2)) as [q r].
  assert (Hq : 0 <= q) by (destruct Hd as [Hd Hr]; nia).
  pose proof (binary_round_aux_not_nan F32.prec F32.emax (xorb s1 s2) q
                (Z.min (fexp F32.prec F32.emax
                          (Zdigits2 (Z.pos m1) + e1 - (Zdigits2 (Z.pos m2) + e2))) (e1 - e2))
                (new_location (Z.pos m2) r) Hq) as H.
  destruct (binary_round_aux _ _ _ _ _ _); simpl; congruence.
Qed.

Lemma of_Z_not_nan (z : Z) : F32.is_nan (F32.of_Z z) = false.
Proof.
  unfold F32.of_Z, binary_normalize.
  destruct z as [|p|p]; [reflexivity| |];
    unfold binary_round; destruct (shl_align _ _ _) as [mz ez];
    [ pose proof (binary_round_aux_not_nan F32.prec F32.emax false (Z.pos mz) ez loc_Exact
                    ltac:(lia)) as H
    | pose proof (binary_round_aux_not_nan F32.prec F32.emax true (Z.pos mz) ez loc_Exact
                    ltac:(lia)) as H ];
    destruct (binary_round_aux _ _ _ _ _ _); simpl; congruence.
Qed.

Lemma mul_not_nan_r (x : f32) (s : bool) (m : positive) (e : Z) :
  F32.is_nan x = false -> F32.is_nan (F32.mul x (S754_finite s m e)) = false.
Proof.
  intros H. destruct x; simpl in *; auto; try discriminate.
  apply mul_finite_not_nan.
Qed.

Lemma div_not_nan_l (s : bool) (m : positive) (e : Z) (y : f32) :
  F32.is_nan y = false -> F32.is_nan (F32.div (S754_finite s m e) y) = false.
Proof.
  intros H. destruct y; simpl in *; auto; try discriminate.
  apply div_finite_not_nan.
Qed.

End FloatFacts.

(** * The tempo path *)
Section TempoFacts.
Variable M : MathEnv.

Lemma onset_frames_length (audio : list f32) : forall k frame prev,
  length (BPM.onset_frames M audio frame k prev) = k.
Proof. induction k; intros; simpl; auto. Qed.

Lemma calculateOnsetStrength_length (audio : list f32) :
  length (BPM.calculateOnsetStrength M audio)
  = Z.to_nat (BPM.numFrames (Z.of_nat (length audio))).
Proof. unfold BPM.calculateOnsetStrength. apply onset_frames_length. Qed.

(** With at least [fftSize] samples the envelope is empty exactly below
    [fftSize + hopSize] samples. *)
Lemma onset_nil_iff (audio : list f32) :
  BPM.fftSize <= Z.of_nat (length audio) ->
  (BPM.calculateOnsetStrength M audio = [] <-> Z.of_nat (length audio) < 2560).
Proof.
  intros H. rewrite <- length_zero_iff_nil, calculateOnsetStrength_length.
  unfold BPM.numFrames, BPM.fftSize, BPM.hopSize in *.
  rewrite Z.quot_div_nonneg by lia.
  split; intros H1.
  - destruct (Z_lt_le_dec (Z.of_nat (length audio)) 2560) as [|H2]; auto.
    assert (0 < (Z.of_nat (length audio) - 2048) / 512) by (apply Z.div_str_pos; lia).
    lia.
  - rewrite Z.div_small by lia. reflexivity.
Qed.

Lemma in_zseq (x lo n : Z) : In x (zseq lo n) -> lo <= x < lo + n.
Proof.
  unfold zseq. rewrite in_map_iff. intros [k [<- Hk]].
  apply in_seq in Hk. lia.
Qed.

(** The best lag is [0] or a lag of the searched range. *)
Lemma lag_search_range (onset : list f32) (lo hi : Z) :
  snd (BPM.lag_search onset lo hi) = 0 \/ lo <= snd (BPM.lag_search onset lo hi) < hi.
Proof.
  unfold BPM.lag_search.
  assert (Hin : forall x, In x (zseq lo (hi - lo)) -> lo <= x < hi)
    by (intros x Hx; apply in_zseq in Hx; lia).
  assert (H0 : snd (F32.zero, 0) = 0 \/ lo <= snd (F32.zero, 0) < hi) by (left; reflexivity).
  revert Hin H0. generalize (zseq lo (hi - lo)) as lags, (F32.zero, 0) as acc.
  intros lags. induction lags as [|l lags IH]; intros acc Hin Hacc; simpl; auto.
  apply IH.
  - intros x Hx. apply Hin. simpl. auto.
  - destruct (F32.lt (fst acc) (BPM.autocorrelate onset l)); simpl; auto.
    right. apply Hin. simpl. auto.
Qed.

Lemma f32_60 : F32.of_Z 60 = S754_finite false 15728640 (-18).
Proof. reflexivity. Qed.

Lemma f32_240 : F32.of_Z 240 = S754_finite false 15728640 (-16).
Proof. reflexivity. Qed.

Lemma f32_40 : F32.of_Z 40 = S754_finite false 10485760 (-18).
Proof. reflexivity. Qed.

Lemma f32_one : F32.one = S754_finite false 8388608 (-23).
Proof. reflexivity. Qed.

(** The raw estimate is never NaN: a non-zero best lag was searched, so the
    frame rate it is computed from is finite. *)
Lemma estimate_not_nan (sr : F64.t) (onset : list f32) :
  F32.is_nan (BPM.estimateTempoFromOnsets sr onset) = false.
Proof.
  unfold BPM.estimateTempoFromOnsets.
  destruct (Z.of_nat (length onset) <? 10); [reflexivity|].
  destruct (BPM.bestLag sr onset =? 0) eqn:E0; [reflexivity|].
  apply Z.eqb_neq in E0.
  pose proof (lag_search_range onset (BPM.minLag sr) (BPM.maxLagRange sr onset)) as Hr.
  fold (BPM.bestLag sr onset) in Hr.
  destruct Hr as [Hr|Hr]; [contradiction|].
  unfold BPM.minLag, BPM.maxLagRange in Hr.
  rewrite f32_60, f32_240, f32_40 in Hr.
  destruct (BPM.framesPerSecond sr) as [sf|sf| |sf mf ef].
  - simpl in Hr. lia.
  - simpl in Hr. unfold F32.INT_MIN in Hr. lia.
  - simpl in Hr. unfold F32.INT_MIN in Hr. lia.
  - rewrite f32_60, f32_one.
    apply mul_not_nan_r, mul_not_nan_r, div_not_nan_l, of_Z_not_nan.
Qed.
End TempoFacts.

(** * detectBPM *)
Section DetectBPM.

Lemma estimate_zero_of_low_data (sr : F64.t) (onset : list f32) :
  ((length onset < 10)%nat \/ BPM.bestLag sr onset = 0) ->
  BPM.estimateTempoFromOnsets sr onset = F32.zero.
Proof.
  intros H. unfold BPM.estimateTempoFromOnsets.
  destruct (Z.of_nat (length onset) <? 10) eqn:E; [reflexivity|].
  apply Z.ltb_ge in E.
  destruct H as [H|H]; [lia|]. rewrite H. reflexivity.
Qed.

(** An estimate of [0] is out of range and takes the fallback. *)
Lemma detectBPM_fallback_of_zero_estimate (M : MathEnv) (d : BPM.BPMDetector)
      (audio : list f32) :
  BPM.fftSize <= Z.of_nat (length audio) ->
  BPM.calculateOnsetStrength M audio <> [] ->
  BPM.estimateTempoFromOnsets d.(BPM.sampleRate) (BPM.calculateOnsetStrength M audio)
    = F32.zero ->
  BPM.detectBPM M d audio = (F32.of_Z 120, BPM.set_confidence (F32.lit 3 10) d).
Proof.
  intros H1 H2 H3. unfold BPM.detectBPM.
  destruct (Z.of_nat (length audio) <? BPM.fftSize) eqn:E;
    [apply Z.ltb_lt in E; lia|].
  destruct (BPM.calculateOnsetStrength M audio) as [|x xs] eqn:Eo; [contradiction|].
  rewrite H3. reflexivity.
Qed.

Lemma detectBPM_early (M : MathEnv) (d : BPM.BPMDetector) (audio : list f32) :
  bpm_early_return M audio = true -> BPM.detectBPM M d audio = (F32.zero, d).
Proof.
  unfold bpm_early_return, BPM.detectBPM. intros H.
  destruct (Z.of_nat (length audio) <? BPM.fftSize); [reflexivity|].
  simpl in H. destruct (BPM.calculateOnsetStrength M audio); [reflexivity|discriminate].
Qed.

Lemma fold_add_map (g : f32 -> f32) (xs : list f32) : forall z,
  fold_left (fun v x => F32.add v (g x)) xs z = fold_left F32.add (map g xs) z.
Proof. induction xs as [|x xs IH]; intros z; simpl; auto. Qed.

Lemma variance_loop_population (xs : list f32) :
  BPM.variance_loop xs = population_variance xs.
Proof.
  unfold BPM.variance_loop, population_variance, BPM.mean, sum_f32.
  rewrite fold_add_map. reflexivity.
Qed.

(** C5: buffers shorter than the FFT size give the low-data sentinels. *)
Theorem short_buffer_sentinels (M : MathEnv) (d : BPM.BPMDetector) (k : Key.KeyDetector)
        (audio : list f32) :
  (Z.of_nat (length audio) < BPM.fftSize -> fst (BPM.detectBPM M d audio) = F32.zero) /\
  (Z.of_nat (length audio) < Key.fftSize ->
   Key.detectKey M k audio = ("C"%string, "major"%string, F32.zero)).
Proof.
  split; intros H.
  - unfold BPM.detectBPM. apply Z.ltb_lt in H. rewrite H. reflexivity.
  - unfold Key.detectKey. apply Z.ltb_lt in H. rewrite H. reflexivity.
Qed.

Lemma short_buffer_sentinels_witness :
  (Z.of_nat (length (repeat F32.zero 100)) < BPM.fftSize /\
   Z.of_nat (length (repeat F32.zero 100)) < Key.fftSize) /\
  fst (BPM.detectBPM RefMath.env BPM.initial (repeat F32.zero 100)) = F32.zero /\
  Key.detectKey RefMath.env Key.initial (repeat F32.zero 100)
    = ("C"%string, "major"%string, F32.zero).
Proof.
  split; [split; vm_compute; reflexivity|].
  split.
  - apply (short_buffer_sentinels RefMath.env BPM.initial Key.initial). vm_compute; reflexivity.
  - apply (short_buffer_sentinels RefMath.env BPM.initial Key.initial). vm_compute; reflexivity.
Defined.

(** A [detectBPM] call that answers [bpm = 0] is one that returned early. *)
Lemma detectBPM_zero_early (M : MathEnv) (d : BPM.BPMDetector) (audio : list f32) :
  fst (BPM.detectBPM M d audio) = F32.zero ->
  Z.of_nat (length audio) < BPM.fftSize \/ BPM.calculateOnsetStrength M audio = [].
Proof.
  unfold BPM.detectBPM. destruct (Z.of_nat (length audio) <? BPM.fftSize) eqn:E.
  - intros _. left. apply Z.ltb_lt, E.
  - destruct (BPM.calculateOnsetStrength M audio) as [|x xs] eqn:Eo; [intros _; right; reflexivity|].
    destruct (BPM.out_of_range _) eqn:Er; cbn [fst]; intros H.
    + vm_compute in H. discriminate.
    + rewrite H in Er. vm_compute in Er. discriminate.
Qed.

(** C1 (amended): [bpm = 0] with the confidence untouched exactly below
    [fftSize] samples or for an empty envelope (fewer than 2560 samples): those
    calls return [(0, d)], and every call that answers [bpm = 0] is one of them.
    An envelope of 1 to 9 values, or one where no lag is selected, makes
    [estimateTempoFromOnsets] return 0, which the range guard turns into the
    fallback [bpm = 120] with [confidence = 0.3]. *)
Theorem detectBPM_low_data_results (M : MathEnv) (d : BPM.BPMDetector) (audio : list f32) :
  (BPM.fftSize <= Z.of_nat (length audio) ->
   (BPM.calculateOnsetStrength M audio = [] <-> Z.of_nat (length audio) < 2560)) /\
  ((Z.of_nat (length audio) < BPM.fftSize \/ BPM.calculateOnsetStrength M audio = []) ->
   BPM.detectBPM M d audio = (F32.zero, d)) /\
  (fst (BPM.detectBPM M d audio) = F32.zero ->
   Z.of_nat (length audio) < BPM.fftSize \/ BPM.calculateOnsetStrength M audio = []) /\
  (BPM.fftSize <= Z.of_nat (length audio) ->
   BPM.calculateOnsetStrength M audio <> [] ->
   ((length (BPM.calculateOnsetStrength M audio) < 10)%nat
    \/ BPM.bestLag d.(BPM.sampleRate) (BPM.calculateOnsetStrength M audio) = 0) ->
   BPM.detectBPM M d audio = (F32.of_Z 120, BPM.set_confidence (F32.lit 3 10) d)).
Proof.
  split; [|split; [|split]].
  - apply onset_nil_iff.
  - intros H. apply detectBPM_early. unfold bpm_early_return.
    destruct H as [H|H].
    + apply Z.ltb_lt in H. rewrite H. reflexivity.
    + rewrite H, orb_true_r. reflexivity.
  - apply detectBPM_zero_early.
  - intros H1 H2 H3. apply detectBPM_fallback_of_zero_estimate; auto.
    apply estimate_zero_of_low_data, H3.
Qed.

Lemma detectBPM_low_data_results_witness :
  (BPM.fftSize <= Z.of_nat (length (repeat F32.zero 2560)) /\
   BPM.calculateOnsetStrength probe_env (repeat F32.zero 2560) <> [] /\
   (length (BPM.calculateOnsetStrength probe_env (repeat F32.zero 2560)) < 10)%nat) /\
  BPM.detectBPM probe_env BPM.initial (repeat F32.zero 2560)
    = (F32.of_Z 120, BPM.set_confidence (F32.lit 3 10) BPM.initial) /\
  BPM.detectBPM probe_env BPM.initial (repeat F32.zero 100) = (F32.zero, BPM.initial) /\
  (Z.of_nat (length (repeat F32.zero 2000)) < BPM.fftSize
   \/ BPM.calculateOnsetStrength probe_env (repeat F32.zero 2000) = []).
Proof.
  split; [split; [vm_compute; discriminate|split; vm_compute; [discriminate|lia]]|].
  split; [|split].
  - apply (detectBPM_low_data_results probe_env BPM.initial (repeat F32.zero 2560)).
    + vm_compute; discriminate.
    + vm_compute; discriminate.
    + left; vm_compute; lia.
  - apply (detectBPM_low_data_results probe_env BPM.initial (repeat F32.zero 100)).
    left; vm_compute; reflexivity.
  - apply (proj1 (proj2 (proj2 (detectBPM_low_data_results probe_env BPM.initial
                                   (repeat F32.zero 2000))))).
    vm_compute; reflexivity.
Defined.

(** 2560 samples: one frame, an envelope of one value, the fallback. *)
Lemma one_frame_fallback (M : MathEnv) (d : BPM.BPMDetector) :
  length (BPM.calculateOnsetStrength M (repeat F32.zero 2560)) = 1%nat /\
  BPM.detectBPM M d (repeat F32.zero 2560)
    = (F32.of_Z 120, BPM.set_confidence (F32.lit 3 10) d).
Proof.
  assert (HL : length (BPM.calculateOnsetStrength M (repeat F32.zero 2560)) = 1%nat)
    by (rewrite calculateOnsetStrength_length, repeat_length; reflexivity).
  split; [exact HL|].
  apply detectBPM_fallback_of_zero_estimate.
  - rewrite repeat_length. vm_compute. discriminate.
  - intros E. rewrite E in HL. discriminate.
  - apply estimate_zero_of_low_data. left. rewrite HL. lia.
Qed.

(** C1 is refuted by 2560 samples: one frame, an envelope of one value, and
    the call answers 120 with confidence 0.3 instead of 0. *)
Lemma detectBPM_one_frame_is_fallback :
  length (BPM.calculateOnsetStrength RefMath.env (repeat F32.zero 2560)) = 1%nat /\
  BPM.detectBPM RefMath.env BPM.initial (repeat F32.zero 2560)
    = (F32.of_Z 120, BPM.set_confidence (F32.lit 3 10) BPM.initial) /\
  F32.of_Z 120 <> F32.zero /\ F32.lit 3 10 <> BPM.getConfidence BPM.initial.
Proof.
  destruct (one_frame_fallback RefMath.env BPM.initial) as [HL HD].
  split; [exact HL|split; [exact HD|split; vm_compute; discriminate]].
Qed.

(** C3 (amended): [detectBPM] returns [0] (confidence untouched) below 2560
    samples, the fallback [(120, 0.3)], or a bpm in [[40, 240]]. *)
Theorem detectBPM_result_range (M : MathEnv) (d : BPM.BPMDetector) (audio : list f32) :
  (fst (BPM.detectBPM M d audio) = F32.zero /\ snd (BPM.detectBPM M d audio) = d
   /\ Z.of_nat (length audio) < 2560)
  \/ BPM.detectBPM M d audio = (F32.of_Z 120, BPM.set_confidence (F32.lit 3 10) d)
  \/ (F32.le (F32.of_Z 40) (fst (BPM.detectBPM M d audio)) = true
      /\ F32.le (fst (BPM.detectBPM M d audio)) (F32.of_Z 240) = true).
Proof.
  unfold BPM.detectBPM.
  destruct (Z.of_nat (length audio) <? BPM.fftSize) eqn:E.
  - left. apply Z.ltb_lt in E. unfold BPM.fftSize in E. simpl. repeat split; auto; lia.
  - apply Z.ltb_ge in E.
    destruct (BPM.calculateOnsetStrength M audio) as [|x xs] eqn:Eo.
    + left. simpl. repeat split; auto.
      apply (onset_nil_iff M audio E), Eo.
    + set (bpm := BPM.estimateTempoFromOnsets _ _).
      destruct (BPM.out_of_range bpm) eqn:Er; [right; left; reflexivity|].
      right; right. simpl.
      unfold BPM.out_of_range in Er. apply orb_false_iff in Er. destruct Er as [E1 E2].
      assert (Hn : F32.is_nan bpm = false) by apply estimate_not_nan.
      split.
      * apply lt_false_le; auto. intros Hc. vm_compute in Hc. discriminate.
      * apply lt_false_le'; auto. intros Hc. vm_compute in Hc. discriminate.
Qed.

(** C3 is refuted by a buffer of 100 samples: the result is [0], neither in
    [[40, 240]] nor the fallback [120]. *)
Lemma detectBPM_short_buffer_zero :
  BPM.detectBPM RefMath.env BPM.initial (repeat F32.zero 100) = (F32.zero, BPM.initial) /\
  F32.le (F32.of_Z 40) F32.zero = false /\ F32.zero <> F32.of_Z 120.
Proof. split; [reflexivity|split; vm_compute; [reflexivity|discriminate]]. Qed.

(** C4 (amended): for two objects with the same sampling rate (whatever
    calls came before), the returned bpm and key tuple agree; the confidence
    read afterwards agrees when the call assigned it, and is the object's
    previous confidence when the call returned early (fewer than [fftSize]
    samples or an empty envelope). *)
Theorem detect_depends_on_buffer_and_rate (M : MathEnv) (d1 d2 : BPM.BPMDetector)
        (k1 k2 : Key.KeyDetector) (audio : list f32) :
  d1.(BPM.sampleRate) = d2.(BPM.sampleRate) ->
  k1.(Key.sampleRate) = k2.(Key.sampleRate) ->
  fst (observe_bpm M d1 audio) = fst (observe_bpm M d2 audio) /\
  (bpm_early_return M audio = false -> observe_bpm M d1 audio = observe_bpm M d2 audio) /\
  (bpm_early_return M audio = true ->
   snd (observe_bpm M d1 audio) = BPM.getConfidence d1 /\
   snd (observe_bpm M d2 audio) = BPM.getConfidence d2) /\
  Key.detectKey M k1 audio = Key.detectKey M k2 audio.
Proof.
  intros Hs Hk.
  assert (Hkey : Key.detectKey M k1 audio = Key.detectKey M k2 audio)
    by (unfold Key.detectKey; rewrite Hk; reflexivity).
  destruct (bpm_early_return M audio) eqn:Ee.
  - unfold observe_bpm. rewrite !(detectBPM_early M _ audio Ee).
    split; [reflexivity|split; [discriminate|split; [intros _; split; reflexivity|exact Hkey]]].
  - assert (Hd : observe_bpm M d1 audio = observe_bpm M d2 audio).
    { unfold bpm_early_return in Ee. apply orb_false_iff in Ee. destruct Ee as [E1 E2].
      unfold observe_bpm, BPM.detectBPM. rewrite E1, Hs.
      destruct (BPM.calculateOnsetStrength M audio); [discriminate|].
      destruct (BPM.out_of_range _); reflexivity. }
    split; [rewrite Hd; reflexivity|split; [intros _; exact Hd|split; [discriminate|exact Hkey]]].
Qed.

Lemma detect_depends_on_buffer_and_rate_witness :
  (run_bpm probe_env c4_history).(BPM.sampleRate) = (run_bpm probe_env []).(BPM.sampleRate) /\
  c4_key.(Key.sampleRate) = Key.initial.(Key.sampleRate) /\
  BPM.getConfidence (run_bpm probe_env c4_history) <> BPM.getConfidence (run_bpm probe_env []) /\
  bpm_early_return probe_env c4_audio = false /\
  observe_bpm probe_env (run_bpm probe_env c4_history) c4_audio
    = observe_bpm probe_env (run_bpm probe_env []) c4_audio /\
  Key.detectKey probe_env c4_key c4_audio = Key.detectKey probe_env Key.initial c4_audio.
Proof.
  assert (Hs : (run_bpm probe_env c4_history).(BPM.sampleRate)
               = (run_bpm probe_env []).(BPM.sampleRate)) by (vm_compute; reflexivity).
  assert (Hk : c4_key.(Key.sampleRate) = Key.initial.(Key.sampleRate)) by (vm_compute; reflexivity).
  assert (He : bpm_early_return probe_env c4_audio = false) by (vm_compute; reflexivity).
  destruct (detect_depends_on_buffer_and_rate probe_env (run_bpm probe_env c4_history)
              (run_bpm probe_env []) c4_key Key.initial c4_audio Hs Hk) as (_ & Hb & _ & Hkey).
  split; [exact Hs|]. split; [exact Hk|]. split; [vm_compute; discriminate|].
  split; [exact He|]. split; [exact (Hb He)|exact Hkey].
Defined.

(** C4 is refuted by two histories of one object: after a 2560-sample call
    (the fallback sets 0.3) and on a fresh object, the same short call reads
    back different confidences. *)
Lemma detect_confidence_depends_on_history :
  (run_bpm RefMath.env [BPMDetect (repeat F32.zero 2560)]).(BPM.sampleRate)
    = (run_bpm RefMath.env []).(BPM.sampleRate) /\
  observe_bpm RefMath.env (run_bpm RefMath.env [BPMDetect (repeat F32.zero 2560)])
    (repeat F32.zero 100) = (F32.zero, F32.lit 3 10) /\
  observe_bpm RefMath.env (run_bpm RefMath.env []) (repeat F32.zero 100)
    = (F32.zero, F32.lit 5 10) /\
  F32.lit 3 10 <> F32.lit 5 10.
Proof.
  assert (H1 : run_bpm RefMath.env [BPMDetect (repeat F32.zero 2560)]
               = BPM.set_confidence (F32.lit 3 10) BPM.initial).
  { unfold run_bpm. cbn [fold_left bpm_step].
    rewrite (proj2 (one_frame_fallback RefMath.env BPM.initial)).
    reflexivity. }
  rewrite H1. split; [reflexivity|]. split; [reflexivity|]. split; [reflexivity|].
  vm_compute. discriminate.
Qed.

(** C9: with an in-range raw estimate the confidence is
    [clamp (variance * 10, 0, 1)] of the envelope's population variance. *)
Theorem detectBPM_confidence_from_variance (M : MathEnv) (d : BPM.BPMDetector)
        (audio : list f32) :
  BPM.fftSize <= Z.of_nat (length audio) ->
  BPM.calculateOnsetStrength M audio <> [] ->
  BPM.out_of_range (BPM.estimateTempoFromOnsets d.(BPM.sampleRate)
                                                (BPM.calculateOnsetStrength M audio)) = false ->
  BPM.detectBPM M d audio =
    (BPM.estimateTempoFromOnsets d.(BPM.sampleRate) (BPM.calculateOnsetStrength M audio),
     BPM.set_confidence
       (clamp (F32.mul (population_variance (BPM.calculateOnsetStrength M audio))
                       (F32.of_Z 10)) F32.zero F32.one) d).
Proof.
  intros H1 H2 H3. unfold BPM.detectBPM.
  destruct (Z.of_nat (length audio) <? BPM.fftSize) eqn:E;
    [apply Z.ltb_lt in E; lia|].
  destruct (BPM.calculateOnsetStrength M audio) as [|x xs] eqn:Eo; [contradiction|].
  rewrite H3, variance_loop_population. reflexivity.
Qed.

Lemma detectBPM_confidence_from_variance_witness :
  (BPM.fftSize <= Z.of_nat (length (clicks 7168 2048)) /\
   BPM.calculateOnsetStrength probe_env (clicks 7168 2048) <> [] /\
   BPM.out_of_range (BPM.estimateTempoFromOnsets (F64.of_Z 4096)
                       (BPM.calculateOnsetStrength probe_env (clicks 7168 2048))) = false) /\
  BPM.getConfidence (snd (BPM.detectBPM probe_env (BPM.mkBPMDetector (F64.of_Z 4096) (F32.lit 5 10))
                                        (clicks 7168 2048)))
    = clamp (F32.mul (population_variance (BPM.calculateOnsetStrength probe_env (clicks 7168 2048)))
                     (F32.of_Z 10)) F32.zero F32.one.
Proof.
  cbv zeta.
  assert (Hlen : BPM.fftSize <= Z.of_nat (length (clicks 7168 2048))) by (vm_compute; discriminate).
  assert (Hne : BPM.calculateOnsetStrength probe_env (clicks 7168 2048) <> []).
  { intros E. apply (f_equal (@length f32)) in E.
    rewrite calculateOnsetStrength_length in E. vm_compute in E. discriminate. }
  assert (Hr : BPM.out_of_range
                 (BPM.estimateTempoFromOnsets (F64.of_Z 4096)
                    (BPM.calculateOnsetStrength probe_env (clicks 7168 2048))) = false)
    by (vm_compute; reflexivity).
  split; [split; [exact Hlen|split; [exact Hne|exact Hr]]|].
  rewrite (detectBPM_confidence_from_variance probe_env
             (BPM.mkBPMDetector (F64.of_Z 4096) (F32.lit 5 10)) (clicks 7168 2048) Hlen Hne Hr).
  reflexivity.
Defined.

End DetectBPM.

(** * Key detection *)

Lemma Pos_cc_compare (m1 m2 : positive) :
  Pos.compare_cont Eq m1 m2 = Z.compare (Z.pos m1) (Z.pos m2).
Proof. reflexivity. Qed.

Lemma lt_fkey (x y : f32) :
  F32.is_nan x = false -> F32.is_nan y = false ->
  F32.lt x y = true <-> lexlt (fkey x) (fkey y).
Proof.
  intros Hx Hy.
  destruct x as [sx|sx| |sx mx ex], y as [sy|sy| |sy my ey];
    try discriminate; try (destruct sx); try (destruct sy);
    unfold F32.lt, SFltb, SFcompare, fkey, lexlt; simpl;
    try (split; [discriminate|lia]); try (split; [lia|reflexivity]).
  - destruct (Z.compare_spec ex ey) as [E|E|E]; simpl.
    + subst. change (PosDef.Pos.compare_cont Eq mx my) with (Z.compare (Z.pos mx) (Z.pos my)).
      destruct (Z.compare_spec (Z.pos mx) (Z.pos my)); simpl; split; intros; try discriminate; try lia; reflexivity.
    + split; [discriminate|lia].
    + split; [lia|reflexivity].
  - destruct (Z.compare_spec ex ey) as [E|E|E]; simpl.
    + subst. change (PosDef.Pos.compare_cont Eq mx my) with (Z.compare (Z.pos mx) (Z.pos my)).
      destruct (Z.compare_spec (Z.pos mx) (Z.pos my)); simpl; split; intros; try discriminate; try lia; reflexivity.
    + split; [lia|reflexivity].
    + split; [discriminate|lia].
Qed.

Lemma compare_some (x y : f32) :
  F32.is_nan x = false -> F32.is_nan y = false -> exists c, SFcompare x y = Some c.
Proof.
  intros Hx Hy; destruct x as [sx|sx| |sx mx ex], y as [sy|sy| |sy my ey];
    try discriminate; simpl; try (destruct sx); try (destruct sy); eauto.
Qed.

Lemma le_not_lt (x y : f32) :
  F32.is_nan x = false -> F32.is_nan y = false -> F32.le x y = negb (F32.lt y x).
Proof.
  intros Hx Hy. unfold F32.le, F32.lt, SFleb, SFltb.
  rewrite (SFcompare_swap x y).
  destruct (compare_some x y Hx Hy) as [c E]; rewrite E; destruct c; reflexivity.
Qed.

Lemma le_fkey (x y : f32) :
  F32.is_nan x = false -> F32.is_nan y = false ->
  F32.le x y = true <-> ~ lexlt (fkey y) (fkey x).
Proof.
  intros Hx Hy. rewrite le_not_lt by assumption.
  rewrite <- (lt_fkey y x Hy Hx). destruct (F32.lt y x); simpl; split; congruence.
Qed.

Ltac lex_solve :=
  repeat match goal with
  | a : (Z * Z * Z)%type |- _ => destruct a as [[? ?] ?]
  end; unfold lexlt in *; lia.

Lemma lexlt_trans (a b c : Z * Z * Z) : lexlt a b -> lexlt b c -> lexlt a c.
Proof. lex_solve. Qed.

Lemma lexlt_irrefl (a : Z * Z * Z) : ~ lexlt a a.
Proof. lex_solve. Qed.

Lemma lexlt_total (a b : Z * Z * Z) : ~ lexlt a b -> ~ lexlt b a -> a = b.
Proof.
  destruct a as [[a1 a2] a3], b as [[b1 b2] b3]; unfold lexlt; intros.
  assert (a1 = b1) by lia. assert (a2 = b2) by lia. assert (a3 = b3) by lia. subst; reflexivity.
Qed.

Section Order.
Variables a b c : f32.
Hypotheses (Ha : F32.is_nan a = false) (Hb : F32.is_nan b = false) (Hc : F32.is_nan c = false).

Lemma f32_lt_trans : F32.lt a b = true -> F32.lt b c = true -> F32.lt a c = true.
Proof. rewrite !lt_fkey by assumption. apply lexlt_trans. Qed.

Lemma f32_le_lt_trans : F32.le a b = true -> F32.lt b c = true -> F32.lt a c = true.
Proof.
  rewrite le_fkey, !lt_fkey by assumption. intros H1 H2.
  destruct (fkey a) as [[a1 a2] a3], (fkey b) as [[b1 b2] b3], (fkey c) as [[c1 c2] c3];
    unfold lexlt in *; lia.
Qed.

Lemma f32_lt_le_trans : F32.lt a b = true -> F32.le b c = true -> F32.lt a c = true.
Proof.
  rewrite le_fkey, !lt_fkey by assumption. intros H1 H2.
  destruct (fkey a) as [[a1 a2] a3], (fkey b) as [[b1 b2] b3], (fkey c) as [[c1 c2] c3];
    unfold lexlt in *; lia.
Qed.

Lemma f32_le_trans : F32.le a b = true -> F32.le b c = true -> F32.le a c = true.
Proof.
  rewrite !le_fkey by assumption. intros H1 H2.
  destruct (fkey a) as [[a1 a2] a3], (fkey b) as [[b1 b2] b3], (fkey c) as [[c1 c2] c3];
    unfold lexlt in *; lia.
Qed.

Lemma f32_le_refl : F32.le a a = true.
Proof. rewrite le_fkey by assumption. apply lexlt_irrefl. Qed.

Lemma f32_lt_le : F32.lt a b = true -> F32.le a b = true.
Proof.
  rewrite le_fkey, lt_fkey by assumption. intros H1 H2.
  destruct (fkey a) as [[a1 a2] a3], (fkey b) as [[b1 b2] b3]; unfold lexlt in *; lia.
Qed.

Lemma f32_not_lt_le : F32.lt a b = false -> F32.le b a = true.
Proof. intros H. rewrite le_not_lt, H by assumption. reflexivity. Qed.
End Order.


Lemma scan_step_nn (acc c : f32 * (string * string)) : nn acc -> nn c -> nn (scan_step acc c).
Proof. unfold scan_step; destruct (F32.lt (fst acc) (fst c)); auto. Qed.

Lemma scan_mono (cs : list (f32 * (string * string))) : forall acc,
  nn acc -> Forall nn cs ->
  nn (scan_max cs acc) /\ F32.le (fst acc) (fst (scan_max cs acc)) = true.
Proof.
  unfold scan_max; induction cs as [|c cs IH]; intros acc Hacc Hcs; simpl.
  - split; [assumption|apply f32_le_refl; exact Hacc].
  - inversion Hcs as [|? ? Hc Hcs']; subst.
    destruct (IH (scan_step acc c) (scan_step_nn _ _ Hacc Hc) Hcs') as [H1 H2].
    split; [exact H1|].
    unfold scan_step in *; destruct (F32.lt (fst acc) (fst c)) eqn:E.
    + apply (f32_le_trans _ (fst c)); auto. apply f32_lt_le; auto.
    + exact H2.
Qed.

Lemma scan_none (cs : list (f32 * (string * string))) : forall acc,
  Forall (fun c => F32.lt (fst acc) (fst c) = false) cs -> scan_max cs acc = acc.
Proof.
  unfold scan_max; induction cs as [|c cs IH]; intros acc H; simpl; auto.
  inversion H as [|? ? Hc Hcs]; subst.
  unfold scan_step at 2; rewrite Hc. apply IH; exact Hcs.
Qed.

Lemma scan_gt (cs : list (f32 * (string * string))) : forall acc,
  nn acc -> Forall nn cs ->
  Exists (fun c => F32.lt (fst acc) (fst c) = true) cs ->
  F32.lt (fst acc) (fst (scan_max cs acc)) = true.
Proof.
  unfold scan_max; induction cs as [|c cs IH]; intros acc Hacc Hcs Hex; simpl.
  - inversion Hex.
  - inversion Hcs as [|? ? Hc Hcs']; subst.
    unfold scan_step at 2; destruct (F32.lt (fst acc) (fst c)) eqn:E.
    + destruct (scan_mono cs c Hc Hcs') as [Hn Hle].
      exact (f32_lt_le_trans _ _ _ Hacc Hc Hn E Hle).
    + inversion Hex as [? ? Hx|? ? Hx]; subst; [congruence|].
      apply IH; assumption.
Qed.

Lemma scan_first_max (cs : list (f32 * (string * string))) : forall acc,
  nn acc -> Forall nn cs ->
  Exists (fun c => F32.lt (fst acc) (fst c) = true) cs ->
  exists k, (k < length cs)%nat /\ scan_max cs acc = nth k cs acc /\
    (forall j, (j < length cs)%nat -> F32.le (fst (nth j cs acc)) (fst (nth k cs acc)) = true) /\
    (forall i, (i < k)%nat -> F32.lt (fst (nth i cs acc)) (fst (nth k cs acc)) = true).
Proof.
  induction cs as [|c cs IH]; intros acc Hacc Hcs Hex.
  - inversion Hex.
  - inversion Hcs as [|? ? Hc Hcs']; subst.
    set (acc' := scan_step acc c).
    assert (Hacc' : nn acc') by (apply scan_step_nn; assumption).
    assert (Hc' : F32.le (fst c) (fst acc') = true).
    { unfold acc', scan_step. destruct (F32.lt (fst acc) (fst c)) eqn:E.
      - apply f32_le_refl; exact Hc.
      - apply f32_not_lt_le; assumption. }
    destruct (Exists_dec (fun x => F32.lt (fst acc') (fst x) = true) cs) as [Hr|Hr].
    { intros x; destruct (F32.lt (fst acc') (fst x)); [left; reflexivity|right; discriminate]. }
    + destruct (IH acc' Hacc' Hcs' Hr) as (k & Hk & Heq & Hmax & Hfirst).
      assert (Hnk : nn (nth k cs acc)).
      { rewrite Forall_forall in Hcs'. apply Hcs'. apply nth_In; exact Hk. }
      assert (Hnth : nth k cs acc = nth k cs acc') by (apply nth_indep; exact Hk).
      assert (Hgt : F32.lt (fst c) (fst (nth k cs acc)) = true).
      { rewrite Hnth, <- Heq. apply (f32_le_lt_trans _ (fst acc')); auto.
        - exact (proj1 (scan_mono cs acc' Hacc' Hcs')).
        - apply scan_gt; assumption. }
      exists (S k); split; [simpl; lia|]. split.
      { unfold scan_max in *; simpl. fold acc'. rewrite Heq. symmetry; exact Hnth. }
      split.
      * intros [|j] Hj; simpl.
        -- apply f32_lt_le; auto.
        -- assert (Hj' : (j < length cs)%nat) by (simpl in Hj; lia).
           specialize (Hmax j Hj').
           rewrite (nth_indep cs acc acc' Hj'), Hnth. exact Hmax.
      * intros [|i] Hi; simpl; [exact Hgt|].
        assert (Hi' : (i < k)%nat) by lia.
        specialize (Hfirst i Hi').
        rewrite (nth_indep cs acc acc' (Nat.lt_trans _ _ _ Hi' Hk)), Hnth. exact Hfirst.
    + assert (Hall : Forall (fun x => F32.lt (fst acc') (fst x) = false) cs).
      { rewrite Forall_forall; intros x Hx.
        destruct (F32.lt (fst acc') (fst x)) eqn:E; [|reflexivity].
        exfalso; apply Hr; rewrite Exists_exists; eauto. }
      assert (Hsel : F32.lt (fst acc) (fst c) = true).
      { destruct (F32.lt (fst acc) (fst c)) eqn:E; [reflexivity|].
        inversion Hex as [? ? Hx|? ? Hx]; subst; [congruence|].
        exfalso; apply Hr. unfold acc', scan_step; rewrite E; exact Hx. }
      exists 0%nat; split; [simpl; lia|]. split.
      { change (scan_max cs acc' = c). rewrite (scan_none cs acc' Hall).
        unfold acc', scan_step; rewrite Hsel; reflexivity. }
      split; [|intros i Hi; lia].
      intros [|j] Hj; simpl; [apply f32_le_refl; exact Hc|].
      assert (Hj' : (j < length cs)%nat) by (simpl in Hj; lia).
      rewrite Forall_forall in Hall.
      assert (Hin : In (nth j cs acc) cs) by (apply nth_In; exact Hj').
      specialize (Hall _ Hin).
      unfold acc', scan_step in Hall; rewrite Hsel in Hall.
      apply f32_not_lt_le; [exact Hc| |exact Hall].
      rewrite Forall_forall in Hcs'; apply Hcs'; exact Hin.
Qed.


Lemma root_step_scan (pcd : list f32) (b : f32 * string * string) (root : nat) :
  tr3 (Key.root_step pcd b root) = scan_max (root_candidates pcd root) (tr3 b).
Proof.
  destruct b as [[m k] md]. unfold Key.root_step, root_candidates, scan_max.
  set (ca := Key.correlation pcd (Key.rotate Key.majorProfile root)).
  set (cb := Key.correlation pcd (Key.rotate Key.minorProfile root)).
  set (p := Key.pitchClass root).
  cbn [fold_left tr3 fst snd]. unfold scan_step; cbn [fst snd].
  destruct (F32.lt m ca) eqn:E1; destruct (F32.lt ca cb) eqn:E2;
    destruct (F32.lt m cb) eqn:E3; cbn [fst snd tr3]; rewrite ?E1, ?E2, ?E3; reflexivity.
Qed.

Lemma fold_root_step_scan (pcd : list f32) (l : list nat) : forall b,
  tr3 (fold_left (Key.root_step pcd) l b) = scan_max (flat_map (root_candidates pcd) l) (tr3 b).
Proof.
  unfold scan_max; induction l as [|r l IH]; intros b; [reflexivity|].
  cbn [flat_map fold_left]. rewrite fold_left_app, IH. f_equal. apply root_step_scan.
Qed.

Lemma findBestKey_scan (pcd : list f32) :
  let '(key, mode, _) := Key.findBestKey pcd in
  (key, mode) = snd (scan_max (key_candidates pcd) (F32.of_Z (-1), ("C"%string, "major"%string))).
Proof.
  unfold Key.findBestKey, key_candidates.
  pose proof (fold_root_step_scan pcd (seq 0 12) (F32.of_Z (-1), "C"%string, "major"%string)) as H.
  cbn [tr3] in H. rewrite <- H.
  destruct (fold_left (Key.root_step pcd) (seq 0 12) (F32.of_Z (-1), "C"%string, "major"%string))
    as [[m k] md]; reflexivity.
Qed.

Lemma key_candidates_length (pcd : list f32) : length (key_candidates pcd) = 24%nat.
Proof. reflexivity. Qed.

(** C7: [findBestKey] visits the 24 candidates root by root, major before
    minor, and replaces the running best only on a strict increase.  So,
    when every correlation is a number and one of them exceeds the initial
    score [-1], the returned (key, mode) is that of a candidate [k] whose
    correlation is maximal, and every candidate before [k] in the scan order
    scores strictly less: among tied maxima the first one wins. *)
Theorem findBestKey_first_maximal (pcd : list f32) :
  Forall (fun c => F32.is_nan (fst c) = false) (key_candidates pcd) ->
  Exists (fun c => F32.lt (F32.of_Z (-1)) (fst c) = true) (key_candidates pcd) ->
  exists k, (k < 24)%nat /\
    (let '(key, mode, _) := Key.findBestKey pcd in (key, mode))
      = snd (nth k (key_candidates pcd) (F32.zero, ("C"%string, "major"%string))) /\
    (forall j, (j < 24)%nat ->
       F32.le (fst (nth j (key_candidates pcd) (F32.zero, ("C"%string, "major"%string))))
              (fst (nth k (key_candidates pcd) (F32.zero, ("C"%string, "major"%string)))) = true) /\
    (forall i, (i < k)%nat ->
       F32.lt (fst (nth i (key_candidates pcd) (F32.zero, ("C"%string, "major"%string))))
              (fst (nth k (key_candidates pcd) (F32.zero, ("C"%string, "major"%string)))) = true).
Proof.
  intros Hnn Hex.
  set (init := (F32.of_Z (-1), ("C"%string, "major"%string))).
  set (d := (F32.zero, ("C"%string, "major"%string))).
  assert (Hinit : nn init) by (unfold nn, init; apply of_Z_not_nan).
  destruct (scan_first_max (key_candidates pcd) init Hinit Hnn Hex)
    as (k & Hk & Heq & Hmax & Hfirst).
  rewrite key_candidates_length in Hk.
  assert (Hd : forall n, (n < 24)%nat -> nth n (key_candidates pcd) init = nth n (key_candidates pcd) d).
  { intros n Hn; apply nth_indep; rewrite key_candidates_length; exact Hn. }
  exists k; split; [exact Hk|]. split; [|split].
  - pose proof (findBestKey_scan pcd) as H.
    destruct (Key.findBestKey pcd) as [[key mode] conf].
    rewrite H; fold init; rewrite Heq, (Hd k Hk); reflexivity.
  - intros j Hj. rewrite <- (Hd j Hj), <- (Hd k Hk). apply Hmax. rewrite key_candidates_length; exact Hj.
  - intros i Hi. rewrite <- (Hd i (Nat.lt_trans _ _ _ Hi Hk)), <- (Hd k Hk). apply Hfirst; exact Hi.
Qed.

Lemma findBestKey_first_maximal_witness :
  Forall (fun c => F32.is_nan (fst c) = false) (key_candidates (unit_at 9)) /\
  Exists (fun c => F32.lt (F32.of_Z (-1)) (fst c) = true) (key_candidates (unit_at 9)) /\
  exists k, (k < 24)%nat /\
    (let '(key, mode, _) := Key.findBestKey (unit_at 9) in (key, mode))
      = snd (nth k (key_candidates (unit_at 9)) (F32.zero, ("C"%string, "major"%string))) /\
    (forall j, (j < 24)%nat ->
       F32.le (fst (nth j (key_candidates (unit_at 9)) (F32.zero, ("C"%string, "major"%string))))
              (fst (nth k (key_candidates (unit_at 9)) (F32.zero, ("C"%string, "major"%string)))) = true) /\
    (forall i, (i < k)%nat ->
       F32.lt (fst (nth i (key_candidates (unit_at 9)) (F32.zero, ("C"%string, "major"%string))))
              (fst (nth k (key_candidates (unit_at 9)) (F32.zero, ("C"%string, "major"%string)))) = true).
Proof.
  assert (H1 : Forall (fun c => F32.is_nan (fst c) = false) (key_candidates (unit_at 9))).
  { apply Forall_forall. vm_compute. intros x Hx.
    repeat (destruct Hx as [Hx|Hx]; [subst x; reflexivity|]). destruct Hx. }
  assert (H2 : Exists (fun c => F32.lt (F32.of_Z (-1)) (fst c) = true) (key_candidates (unit_at 9))).
  { apply Exists_exists. exists (nth 0 (key_candidates (unit_at 9)) (F32.zero, ("C"%string, "major"%string))).
    split; [apply nth_In; vm_compute; lia|vm_compute; reflexivity]. }
  split; [exact H1|]. split; [exact H2|].
  exact (findBestKey_first_maximal (unit_at 9) H1 H2).
Defined.

(* ---------- C8 ---------- *)
Lemma sums_fold (x y : list f32) (l : list nat) : forall a b,
  fold_left (Key.sums_step x y) l (a, b)
  = (fold_left (fun s i => F32.add s (Key.at12 x i)) l a,
     fold_left (fun s i => F32.add s (Key.at12 y i)) l b).
Proof.
  induction l as [|i l IH]; intros a b; [reflexivity|].
  cbn [fold_left]. unfold Key.sums_step at 1. cbn [fst snd]. apply IH.
Qed.

Lemma moments_fold (x y : list f32) (mX mY : f32) (l : list nat) : forall a b c,
  fold_left (Key.moments_step x y mX mY) l (a, b, c)
  = (fold_left (fun s i => F32.add s (F32.mul (F32.sub (Key.at12 x i) mX) (F32.sub (Key.at12 x i) mX))) l a,
     fold_left (fun s i => F32.add s (F32.mul (F32.sub (Key.at12 y i) mY) (F32.sub (Key.at12 y i) mY))) l b,
     fold_left (fun s i => F32.add s (F32.mul (F32.sub (Key.at12 x i) mX) (F32.sub (Key.at12 y i) mY))) l c).
Proof.
  induction l as [|i l IH]; intros a b c; [reflexivity|].
  cbn [fold_left]. unfold Key.moments_step at 1. cbv beta iota zeta. apply IH.
Qed.

Lemma correlation_unfold (x y : list f32) :
  Key.correlation x y =
    if F32.lt (std12 x) Key.eps_f || F32.lt (std12 y) Key.eps_f then F32.zero
    else F32.div (covariance12 x y) (F32.mul (std12 x) (std12 y)).
Proof.
  unfold Key.correlation. rewrite sums_fold. cbv beta iota zeta.
  rewrite moments_fold. cbv beta iota zeta.
  unfold std12, covariance12, sum_dev, mean12.
  reflexivity.
Qed.

Lemma shr_1_m (r : shr_record) : 0 <= shr_m r -> shr_m (shr_1 r) = Z.shiftr (shr_m r) 1.
Proof.
  intros H. rewrite Z.shiftr_div_pow2 by lia. change (2 ^ 1) with 2. rewrite <- Z.div2_div.
  destruct r as [m rr ss]; simpl in *.
  destruct m as [|[p|p|]|p]; try reflexivity. lia.
Qed.

Lemma iter_shr_1_m (q : positive) : forall r,
  0 <= shr_m r -> shr_m (iter_pos shr_1 q r) = Z.shiftr (shr_m r) (Z.pos q).
Proof.
  induction q as [q IH|q IH|]; intros r H; simpl.
  - rewrite IH by (apply iter_shr_1_nonneg, shr_1_nonneg; exact H).
    rewrite IH by (apply shr_1_nonneg; exact H).
    rewrite shr_1_m by exact H. rewrite !Z.shiftr_shiftr by lia.
    f_equal. lia.
  - rewrite IH by (apply iter_shr_1_nonneg; exact H).
    rewrite IH by exact H. rewrite Z.shiftr_shiftr by lia. f_equal; lia.
  - apply shr_1_m; exact H.
Qed.

Lemma digits2_pos_log2 (p : positive) : Z.pos (digits2_pos p) = Z.log2 (Z.pos p) + 1.
Proof.
  assert (Hs : forall q, digits2_pos q = Pos.size q).
  { induction q as [q IH|q IH|]; simpl; rewrite ?IH; reflexivity. }
  rewrite Hs. destruct p as [p|p|]; simpl; try reflexivity; rewrite Pos2Z.inj_succ; lia.
Qed.

Lemma shr_fexp_pos (m e : Z) (l : location) :
  0 < m -> -149 <= e ->
  0 < shr_m (fst (shr_fexp F32.prec F32.emax m e l)) /\ e <= snd (shr_fexp F32.prec F32.emax m e l).
Proof.
  intros Hm He. destruct m as [|p|p]; try lia.
  unfold shr_fexp, shr, fexp, emin, Zdigits2, F32.prec, F32.emax.
  assert (Hrec : shr_m (shr_record_of_loc (Z.pos p) l) = Z.pos p)
    by (destruct l as [|[| |]]; reflexivity).
  pose proof (digits2_pos_log2 p) as Hd.
  pose proof (Z.log2_spec (Z.pos p) ltac:(lia)) as [Hl1 Hl2].
  pose proof (Z.log2_nonneg (Z.pos p)).
  destruct (Z.max (Z.pos (digits2_pos p) + e - 24) (3 - 128 - 24) - e) as [|q|q] eqn:En; simpl.
  - rewrite Hrec; lia.
  - rewrite iter_shr_1_m by (rewrite Hrec; lia). rewrite Hrec.
    split; [|lia].
    rewrite Z.shiftr_div_pow2 by lia. apply Z.div_str_pos. split; [lia|].
    assert (Hq : Z.pos q <= Z.log2 (Z.pos p)) by lia.
    apply (Z.le_trans _ (2 ^ Z.log2 (Z.pos p))); [|exact Hl1].
    apply Z.pow_le_mono_r; lia.
  - rewrite Hrec; lia.
Qed.

Lemma round_nearest_even_ge (m : Z) (l : location) : m <= round_nearest_even m l.
Proof. destruct l as [|[| |]]; simpl; try destruct (Z.even m); lia. Qed.

Lemma binary_round_aux_nonzero (s : bool) (m e : Z) (l : location) :
  0 < m -> -149 <= e -> is_zero (binary_round_aux F32.prec F32.emax s m e l) = false.
Proof.
  intros Hm He. unfold binary_round_aux.
  pose proof (shr_fexp_pos m e l Hm He) as [P1 P2].
  destruct (shr_fexp F32.prec F32.emax m e l) as [mrs' e'] eqn:E1; simpl in P1, P2.
  pose proof (round_nearest_even_ge (shr_m mrs') (loc_of_shr_record mrs')) as P3.
  pose proof (shr_fexp_pos (round_nearest_even (shr_m mrs') (loc_of_shr_record mrs')) e' loc_Exact
                ltac:(lia) ltac:(lia)) as [P4 _].
  destruct (shr_fexp F32.prec F32.emax (round_nearest_even (shr_m mrs') (loc_of_shr_record mrs')) e' loc_Exact)
    as [mrs'' e''] eqn:E2; simpl in P4.
  destruct (shr_m mrs''); try lia. destruct (e'' <=? F32.emax - F32.prec); reflexivity.
Qed.

Lemma binary_round_aux_shape (s : bool) (m e : Z) (l : location) :
  let r := binary_round_aux F32.prec F32.emax s m e l in
  r = S754_zero s \/ r = S754_nan \/ r = S754_infinity s \/ exists m' e', r = S754_finite s m' e'.
Proof.
  unfold binary_round_aux.
  destruct (shr_fexp F32.prec F32.emax m e l) as [mrs' e'].
  destruct (shr_fexp F32.prec F32.emax (round_nearest_even (shr_m mrs') (loc_of_shr_record mrs')) e' loc_Exact)
    as [mrs'' e''].
  destruct (shr_m mrs'') as [|p|p]; [left; reflexivity| |right; left; reflexivity].
  destruct (e'' <=? F32.emax - F32.prec); [right; right; right; eauto|right; right; left; reflexivity].
Qed.

Lemma sqrt_shape (a : f32) :
  (exists s, F32.sqrt a = S754_zero s) \/ F32.sqrt a = S754_nan \/
  F32.sqrt a = S754_infinity false \/ exists m e, F32.sqrt a = S754_finite false m e.
Proof.
  destruct a as [s|s| |s m e].
  - left; exists s; reflexivity.
  - destruct s; [right; left; reflexivity|right; right; left; reflexivity].
  - right; left; reflexivity.
  - destruct s; [right; left; reflexivity|].
    unfold F32.sqrt, SFsqrt.
    destruct (SFsqrt_core_binary F32.prec F32.emax (Z.pos m) e) as [[mz ez] lz].
    pose proof (binary_round_aux_shape false mz ez lz) as Hs; cbv zeta in Hs.
    destruct Hs as [H|[H|[H|(m' & e' & H)]]]; rewrite H;
      first [ left; eexists; reflexivity | right; left; reflexivity
            | right; right; left; reflexivity | right; right; right; eexists; eexists; reflexivity ].
Qed.

Lemma eps_f_eq : Key.eps_f = S754_finite false 14411519 (-57).
Proof. vm_compute; reflexivity. Qed.

Lemma mul_pos_nonzero (m m' : positive) (e e' : Z) :
  -57 <= e -> -57 <= e' ->
  is_zero (F32.mul (S754_finite false m e) (S754_finite false m' e')) = false.
Proof.
  intros He He'.
  change (F32.mul (S754_finite false m e) (S754_finite false m' e'))
    with (binary_round_aux F32.prec F32.emax false (Z.pos (m * m')) (e + e') loc_Exact).
  apply binary_round_aux_nonzero; lia.
Qed.

Lemma lt_eps_exp (m : positive) (e : Z) :
  F32.lt (S754_finite false m e) (S754_finite false 14411519 (-57)) = false -> -57 <= e.
Proof.
  intros H1. cbv beta iota delta [F32.lt SFltb SFcompare] in H1.
  destruct (e ?= -57) eqn:Ec; [apply Z.compare_eq_iff in Ec; lia|discriminate H1|apply Z.compare_gt_iff in Ec; lia].
Qed.

Lemma sqrt_mul_nonzero (a b : f32) :
  F32.lt (F32.sqrt a) Key.eps_f = false -> F32.lt (F32.sqrt b) Key.eps_f = false ->
  is_zero (F32.mul (F32.sqrt a) (F32.sqrt b)) = false.
Proof.
  rewrite eps_f_eq.
  destruct (sqrt_shape a) as [[s Ha]|[Ha|[Ha|(m & e & Ha)]]]; rewrite Ha;
  destruct (sqrt_shape b) as [[s' Hb]|[Hb|[Hb|(m' & e' & Hb)]]]; rewrite Hb;
    intros H1 H2;
    try (destruct s; discriminate H1); try (destruct s'; discriminate H2);
    try (match goal with
         | |- is_zero (F32.mul (S754_finite _ _ _) (S754_finite _ _ _)) = false => fail 1
         | |- _ => reflexivity
         end).
  apply mul_pos_nonzero; [exact (lt_eps_exp _ _ H1)|exact (lt_eps_exp _ _ H2)].
Qed.

Lemma correlation_unguarded (x y : list f32) :
  ((F32.lt (std12 x) Key.eps_f || F32.lt (std12 y) Key.eps_f) = false ->
     Key.correlation x y = F32.div (covariance12 x y) (F32.mul (std12 x) (std12 y))).
Proof.
  rewrite correlation_unfold. intros H. rewrite H. reflexivity.
Qed.
Lemma std12_eq (x : list f32) : std12 x = F32.sqrt (sum_dev x x).
Proof. reflexivity. Qed.
Lemma std_mul_nonzero (x y : list f32) :
  ((F32.lt (std12 x) Key.eps_f || F32.lt (std12 y) Key.eps_f) = false ->
     is_zero (F32.mul (std12 x) (std12 y)) = false).
Proof.
  rewrite !std12_eq. intros H. apply orb_false_iff in H as [H1 H2].
  exact (sqrt_mul_nonzero (sum_dev x x) (sum_dev y y) H1 H2).
Qed.

(** C8: [correlation x y] is exactly [0] when either standard deviation
    (the square root of the sum of squared deviations from the mean over the
    12 bins) is below [1e-10]; otherwise it is the covariance divided by the
    product of the two standard deviations, and that product is not zero. *)
Theorem correlation_guarded (x y : list f32) :
  ((F32.lt (std12 x) Key.eps_f || F32.lt (std12 y) Key.eps_f) = true ->
     Key.correlation x y = F32.zero) /\
  ((F32.lt (std12 x) Key.eps_f || F32.lt (std12 y) Key.eps_f) = false ->
     Key.correlation x y = F32.div (covariance12 x y) (F32.mul (std12 x) (std12 y)) /\
     is_zero (F32.mul (std12 x) (std12 y)) = false).
Proof.
  split.
  - rewrite correlation_unfold. intros H. rewrite H. reflexivity.
  - intros H. split; [apply correlation_unguarded|apply std_mul_nonzero]; exact H.
Qed.

Ltac zero_cases :=
  intros;
  repeat match goal with
  | a : f32 |- _ => destruct a as [?s| | |]; try discriminate
  end;
  repeat match goal with s : bool |- _ => destruct s end; reflexivity.

Lemma add_zero (a b : f32) : is_zero a = true -> is_zero b = true -> is_zero (F32.add a b) = true.
Proof. revert a b; zero_cases. Qed.

Lemma sub_zero (a b : f32) : is_zero a = true -> is_zero b = true -> is_zero (F32.sub a b) = true.
Proof. revert a b; zero_cases. Qed.

Lemma mul_zero (a b : f32) : is_zero a = true -> is_zero b = true -> is_zero (F32.mul a b) = true.
Proof. revert a b; zero_cases. Qed.

Lemma sqrt_zero (a : f32) : is_zero a = true -> is_zero (F32.sqrt a) = true.
Proof. revert a; zero_cases. Qed.

Lemma f32_12 : F32.of_Z 12 = S754_finite false 12582912 (-20).
Proof. vm_compute; reflexivity. Qed.

Lemma div12_zero (a : f32) : is_zero a = true -> is_zero (F32.div a (F32.of_Z 12)) = true.
Proof. rewrite f32_12. destruct a as [s| | |]; try discriminate; destruct s; reflexivity. Qed.

Lemma zero_lt_eps (a : f32) : is_zero a = true -> F32.lt a Key.eps_f = true.
Proof. rewrite eps_f_eq. destruct a as [s| | |]; try discriminate; destruct s; reflexivity. Qed.

Lemma zero_not_pos (a : f32) : is_zero a = true -> F32.lt F32.zero a = false.
Proof. destruct a as [s| | |]; try discriminate; destruct s; reflexivity. Qed.

Lemma at12_zero (x : list f32) (i : nat) : forallb is_zero x = true -> is_zero (Key.at12 x i) = true.
Proof.
  intros H. unfold Key.at12. destruct (nth_in_or_default i x F32.zero) as [Hin|Hd].
  - rewrite forallb_forall in H. apply H; exact Hin.
  - rewrite Hd; reflexivity.
Qed.

Lemma fold_add_zero (g : nat -> f32) (l : list nat) : forall s,
  is_zero s = true -> (forall i, is_zero (g i) = true) ->
  is_zero (fold_left (fun s i => F32.add s (g i)) l s) = true.
Proof.
  induction l as [|i l IH]; intros s Hs Hg; [exact Hs|].
  cbn [fold_left]. apply IH; [apply add_zero; auto|exact Hg].
Qed.

Lemma mean12_zero (x : list f32) : forallb is_zero x = true -> is_zero (mean12 x) = true.
Proof.
  intros H. unfold mean12. apply div12_zero.
  apply fold_add_zero; [reflexivity|]. intros i; apply at12_zero; exact H.
Qed.

Lemma std12_zero (x : list f32) : forallb is_zero x = true -> is_zero (std12 x) = true.
Proof.
  intros H. rewrite std12_eq. apply sqrt_zero. unfold sum_dev.
  apply fold_add_zero; [reflexivity|]. intros i.
  pose proof (mean12_zero x H). pose proof (at12_zero x i H).
  apply mul_zero; apply sub_zero; assumption.
Qed.

Lemma correlation_zero_l (x y : list f32) : forallb is_zero x = true -> Key.correlation x y = F32.zero.
Proof.
  intros H. rewrite correlation_unfold, (zero_lt_eps _ (std12_zero x H)). reflexivity.
Qed.

Lemma fold_add_all_zero (c : list f32) : forall s,
  is_zero s = true -> forallb is_zero c = true -> is_zero (fold_left F32.add c s) = true.
Proof.
  induction c as [|v c IH]; intros s Hs Hc; [exact Hs|].
  cbn [fold_left]. cbn [forallb] in Hc. apply andb_true_iff in Hc as [Hv Hc].
  apply IH; [apply add_zero|]; assumption.
Qed.

Lemma normalize_zero (c : list f32) : forallb is_zero c = true -> Key.normalize c = c.
Proof.
  intros H. unfold Key.normalize.
  rewrite (zero_not_pos _ (fold_add_all_zero c F32.zero eq_refl H)). reflexivity.
Qed.

Lemma key_candidates_zero (pcd : list f32) :
  forallb is_zero pcd = true ->
  key_candidates pcd
  = flat_map (fun r => [(F32.zero, (Key.pitchClass r, "major"%string));
                        (F32.zero, (Key.pitchClass r, "minor"%string))]) (seq 0 12).
Proof.
  intros H. unfold key_candidates. apply flat_map_ext. intros r.
  unfold root_candidates. rewrite !(correlation_zero_l pcd _ H). reflexivity.
Qed.

Lemma findBestKey_zero (pcd : list f32) :
  forallb is_zero pcd = true ->
  Key.findBestKey pcd = ("C"%string, "major"%string, F32.lit 5 10).
Proof.
  intros H.
  pose proof (fold_root_step_scan pcd (seq 0 12) (F32.of_Z (-1), "C"%string, "major"%string)) as Hs.
  change (flat_map (root_candidates pcd) (seq 0 12)) with (key_candidates pcd) in Hs.
  rewrite (key_candidates_zero pcd H) in Hs.
  match type of Hs with _ = ?r =>
    assert (Hv : r = (F32.zero, ("C"%string, "major"%string))) by (vm_compute; reflexivity)
  end.
  rewrite Hv in Hs.
  unfold Key.findBestKey.
  destruct (fold_left (Key.root_step pcd) (seq 0 12) (F32.of_Z (-1), "C"%string, "major"%string))
    as [[m k] md] eqn:E.
  cbn [tr3] in Hs. inversion Hs; subst. vm_compute. reflexivity.
Qed.

Lemma numFrames_nonpos (n : Z) : n < 4608 -> Key.numFrames n <= 0.
Proof.
  intros H. unfold Key.numFrames, Key.fftSize, Key.hopSize.
  destruct (Z_lt_le_dec n 4096) as [Hl|Hl].
  - replace (n - 4096) with (- (4096 - n)) by lia.
    rewrite Z.quot_opp_l by lia.
    pose proof (Z.quot_pos (4096 - n) 512 ltac:(lia) ltac:(lia)). lia.
  - rewrite Z.quot_small by lia. lia.
Qed.

Lemma chromagram_no_frames (M : MathEnv) (sr : F64.t) (audio : list f32) :
  (length audio < 4608)%nat ->
  Key.calculateChromagram M sr audio = repeat F32.zero 12.
Proof.
  intros H. unfold Key.calculateChromagram.
  pose proof (numFrames_nonpos (Z.of_nat (length audio)) ltac:(lia)) as Hn.
  assert (Hz : Z.to_nat (Key.numFrames (Z.of_nat (length audio))) = 0%nat) by lia.
  unfold zseq. rewrite Hz. reflexivity.
Qed.

(** C2 concerns a chromagram with all its energy at A (index 9) and a
    440 Hz tone.  [findBestKey] on the unit vector at index 9 answers D#
    major, not an A-rooted key: the rotation reads [profile[(i + root) mod
    12]], which moves the tonic of [root] to index [(12 - root) mod 12].
    And every buffer of 4096 to 4607 samples (a 440 Hz tone included) has no
    analysis frame at all, so [detectKey] answers C major with confidence
    0.5 whatever the samples are. *)
Theorem findBestKey_A_concentrated :
  Key.findBestKey (unit_at 9) = ("D#"%string, "major"%string, S754_finite false 14130381 (-24)) /\
  (forall (M : MathEnv) (k : Key.KeyDetector) (audio : list f32),
     (4096 <= length audio < 4608)%nat ->
     Key.detectKey M k audio = ("C"%string, "major"%string, F32.lit 5 10)).
Proof.
  split; [vm_compute; reflexivity|].
  intros M k audio [H1 H2]. unfold Key.detectKey.
  rewrite (proj2 (Z.ltb_ge _ _)) by (unfold Key.fftSize; lia).
  rewrite chromagram_no_frames by exact H2.
  rewrite normalize_zero by reflexivity.
  apply findBestKey_zero; reflexivity.
Qed.

(** C10: once the buffer has at least 4096 samples and the chromagram is
    all zeros, all 24 candidate correlations are 0 and [detectKey] returns
    ("C", "major", 0.5). *)
Theorem detectKey_silent_chromagram (M : MathEnv) (k : Key.KeyDetector) (audio : list f32) :
  (4096 <= length audio)%nat ->
  forallb is_zero (Key.calculateChromagram M (Key.sampleRate k) audio) = true ->
  Forall (fun c => fst c = F32.zero)
         (key_candidates (Key.normalize (Key.calculateChromagram M (Key.sampleRate k) audio))) /\
  Key.detectKey M k audio = ("C"%string, "major"%string, F32.lit 5 10).
Proof.
  intros Hlen Hz. split.
  - rewrite (normalize_zero _ Hz), (key_candidates_zero _ Hz).
    rewrite Forall_forall. intros c Hc. apply in_flat_map in Hc as (r & _ & Hr).
    destruct Hr as [<-|[<-|[]]]; reflexivity.
  - unfold Key.detectKey.
    rewrite (proj2 (Z.ltb_ge _ _)) by (unfold Key.fftSize; lia).
    rewrite (normalize_zero _ Hz). apply findBestKey_zero; exact Hz.
Qed.

Lemma detectKey_silent_chromagram_witness :
  (4096 <= length (repeat F32.zero 4608))%nat /\
  forallb is_zero (Key.calculateChromagram probe_env (Key.sampleRate Key.initial) (repeat F32.zero 4608)) = true /\
  Forall (fun c => fst c = F32.zero)
         (key_candidates (Key.normalize (Key.calculateChromagram probe_env (Key.sampleRate Key.initial)
                                                                 (repeat F32.zero 4608)))) /\
  Key.detectKey probe_env Key.initial (repeat F32.zero 4608) = ("C"%string, "major"%string, F32.lit 5 10).
Proof.
  assert (H1 : (4096 <= length (repeat F32.zero 4608))%nat) by (rewrite repeat_length; lia).
  assert (H2 : forallb is_zero (Key.calculateChromagram probe_env (Key.sampleRate Key.initial)
                                                         (repeat F32.zero 4608)) = true)
    by (vm_compute; reflexivity).
  split; [exact H1|]. split; [exact H2|].
  exact (detectKey_silent_chromagram probe_env Key.initial (repeat F32.zero 4608) H1 H2).
Defined.

(** * Accuracy of the chromagram normalisation

    Error bounds for round-to-nearest binary32 addition and division on
    non-negative operands, then the normalisation step of [detectKey]. *)
Section Reals32.
Local Open Scope R_scope.

Lemma bpow_add a b : bpow (a + b) = bpow a * bpow b.
Proof. unfold bpow. apply powerRZ_add. lra. Qed.

Lemma bpow_pos a : 0 < bpow a.
Proof. unfold bpow. apply powerRZ_lt. lra. Qed.

Lemma bpow_IZR k : (0 <= k)%Z -> bpow k = IZR (2 ^ k).
Proof.
  intros H. destruct k as [|p|p]; [reflexivity| |lia].
  unfold bpow. rewrite <- Zpower_pos_powerRZ. reflexivity.
Qed.

Lemma bpow_1 : bpow 1 = 2.
Proof. unfold bpow. simpl. ring. Qed.

Lemma bpow_ge_1 k : (0 <= k)%Z -> 1 <= bpow k.
Proof.
  intros H. rewrite bpow_IZR by exact H. apply IZR_le.
  pose proof (Z.pow_pos_nonneg 2 k ltac:(lia) H). lia.
Qed.

Lemma bpow_le a b : (a <= b)%Z -> bpow a <= bpow b.
Proof.
  intros H. replace b with (a + (b - a))%Z by lia. rewrite bpow_add.
  pose proof (bpow_pos a). pose proof (bpow_ge_1 (b - a) ltac:(lia)). nra.
Qed.

Lemma bpow_lt a b : (a < b)%Z -> bpow a < bpow b.
Proof.
  intros H. replace b with ((a + 1) + (b - a - 1))%Z by lia. rewrite !bpow_add, bpow_1.
  pose proof (bpow_pos a). pose proof (bpow_ge_1 (b - a - 1) ltac:(lia)). nra.
Qed.

Lemma rec_of_loc_exact m y : (0 <= m)%Z -> y = IZR m -> rec_ok (shr_record_of_loc m loc_Exact) y.
Proof. intros H ->. split; [exact H|]. simpl. lra. Qed.

Lemma shr_1_ok mrs y : rec_ok mrs y -> rec_ok (shr_1 mrs) (y / 2).
Proof.
  destruct mrs as [m r s]. unfold rec_ok. simpl. intros [Hm Hr].
  destruct m as [|p|p]; [|destruct p as [p|p|]|lia]; simpl.
  - split; [lia|]. destruct r, s; simpl in *; lra.
  - rewrite Pos2Z.inj_xI, plus_IZR, mult_IZR in *. split; [lia|].
    destruct r, s; simpl in *; lra.
  - rewrite Pos2Z.inj_xO, mult_IZR in *. split; [lia|].
    destruct r, s; simpl in *; lra.
  - split; [lia|]. destruct r, s; simpl in *; lra.
Qed.

Lemma iter_shr_1_ok p : forall mrs y, rec_ok mrs y ->
  rec_ok (iter_pos shr_1 p mrs) (y / bpow (Zpos p)).
Proof.
  induction p as [p IH|p IH|]; intros mrs y H; cbn [iter_pos].
  - replace (y / bpow (Zpos p~1)) with (y / 2 / bpow (Zpos p) / bpow (Zpos p)).
    + apply IH, IH, shr_1_ok, H.
    + rewrite Pos2Z.inj_xI, !bpow_add, bpow_1.
      replace (2 * Zpos p)%Z with (Zpos p + Zpos p)%Z by lia. rewrite bpow_add.
      pose proof (bpow_pos (Zpos p)). field. lra.
  - replace (y / bpow (Zpos p~0)) with (y / bpow (Zpos p) / bpow (Zpos p)).
    + apply IH, IH, H.
    + rewrite Pos2Z.inj_xO.
      replace (2 * Zpos p)%Z with (Zpos p + Zpos p)%Z by lia. rewrite bpow_add.
      pose proof (bpow_pos (Zpos p)). field. lra.
  - rewrite bpow_1. apply shr_1_ok, H.
Qed.

Lemma shr_ok mrs e n x : rec_ok mrs (x / bpow e) ->
  rec_ok (fst (shr mrs e n)) (x / bpow (snd (shr mrs e n))) /\
  snd (shr mrs e n) = Z.max e (e + n) /\
  ((n <= 0)%Z -> shr mrs e n = (mrs, e)).
Proof.
  intros H. destruct n as [|p|p]; cbn [shr fst snd].
  - split; [exact H|split; [lia|reflexivity]].
  - split; [|split; [lia|lia]].
    replace (x / bpow (e + Zpos p)) with (x / bpow e / bpow (Zpos p)).
    + apply iter_shr_1_ok, H.
    + rewrite bpow_add. pose proof (bpow_pos e). pose proof (bpow_pos (Zpos p)). field. lra.
  - split; [exact H|split; [lia|reflexivity]].
Qed.

Lemma rne_ok mrs y : rec_ok mrs y ->
  (0 <= round_nearest_even (shr_m mrs) (loc_of_shr_record mrs))%Z /\
  Rabs (IZR (round_nearest_even (shr_m mrs) (loc_of_shr_record mrs)) - y) <= /2 /\
  (shr_r mrs = false -> shr_s mrs = false ->
   IZR (round_nearest_even (shr_m mrs) (loc_of_shr_record mrs)) = y).
Proof.
  destruct mrs as [m r s]. unfold rec_ok. simpl. intros [Hm Hr].
  destruct r, s; simpl in *.
  - rewrite plus_IZR. split; [lia|]. split; [apply Rabs_le; lra|discriminate].
  - destruct (Z.even m).
    + split; [lia|]. split; [apply Rabs_le; lra|discriminate].
    + rewrite plus_IZR. split; [lia|]. split; [apply Rabs_le; lra|discriminate].
  - split; [lia|]. split; [apply Rabs_le; lra|discriminate].
  - split; [lia|]. split; [apply Rabs_le; lra|intros; lra].
Qed.


Lemma zdigits_nonneg m : (0 <= Zdigits2 m)%Z.
Proof. destruct m; simpl; lia. Qed.

Lemma zdigits_lt m : (0 <= m)%Z -> (m < 2 ^ Zdigits2 m)%Z.
Proof.
  intros H. destruct m as [|p|p]; [reflexivity| |lia]. simpl Zdigits2.
  rewrite digits2_pos_log2. apply Z.log2_lt_pow2; [lia|lia].
Qed.

Lemma zdigits_ge m : (0 < m)%Z -> (2 ^ (Zdigits2 m - 1) <= m)%Z.
Proof.
  intros H. destruct m as [|p|p]; try lia. simpl Zdigits2.
  rewrite digits2_pos_log2. apply Z.log2_le_pow2; lia.
Qed.

Lemma zdigits_le_of_lt m k : (0 <= k)%Z -> (0 <= m < 2 ^ k)%Z -> (Zdigits2 m <= k)%Z.
Proof.
  intros Hk H. destruct m as [|p|p]; [simpl; lia| |lia]. simpl Zdigits2.
  rewrite digits2_pos_log2. destruct H as [_ H].
  apply (Z.log2_lt_pow2 (Zpos p) k) in H; lia.
Qed.

Lemma zdigits_ge_of_le m k : (0 <= k)%Z -> (2 ^ k <= m)%Z -> (k + 1 <= Zdigits2 m)%Z.
Proof.
  intros Hk H. pose proof (Z.pow_pos_nonneg 2 k ltac:(lia) Hk).
  destruct m as [|p|p]; try lia. simpl Zdigits2.
  rewrite digits2_pos_log2. apply (Z.log2_le_pow2 (Zpos p) k) in H; lia.
Qed.

Lemma fexp32_eq z : fexp 24 128 z = Z.max (z - 24) (-149).
Proof. reflexivity. Qed.

(** Under [rec_ok], the value lies below the next power of two of the mantissa. *)
Lemma rec_ok_lt mrs y : rec_ok mrs y -> IZR (shr_m mrs) <= y < IZR (shr_m mrs) + 1.
Proof.
  destruct mrs as [m r s]. unfold rec_ok. simpl. intros [_ H].
  destruct r, s; simpl in H; lra.
Qed.

Lemma IZR_bpow_lt m k : (0 <= k)%Z -> (m < 2 ^ k)%Z -> IZR m + 1 <= bpow k.
Proof.
  intros Hk H. rewrite bpow_IZR by exact Hk. rewrite <- plus_IZR. apply IZR_le. lia.
Qed.

Lemma Rabs_le_inv a b : Rabs a <= b -> - b <= a <= b.
Proof. intros H. pose proof (Rle_abs a). pose proof (Rle_abs (- a)). rewrite Rabs_Ropp in *. lra. Qed.

Lemma div_bpow_lt x a b : x < bpow a -> x / bpow b < bpow (a - b).
Proof.
  intros H. pose proof (bpow_pos b). apply Rmult_lt_reg_r with (bpow b); [lra|].
  replace (x / bpow b * bpow b) with x by (field; lra).
  rewrite <- bpow_add. replace (a - b + b)%Z with a by lia. exact H.
Qed.

Lemma mul_bpow_lt x a b : x / bpow b < bpow a -> x < bpow (a + b).
Proof.
  intros H. pose proof (bpow_pos b). rewrite bpow_add.
  apply Rmult_lt_compat_r with (r := bpow b) in H; [|lra].
  replace (x / bpow b * bpow b) with x in H by (field; lra). exact H.
Qed.

Lemma bpow_24 : bpow 24 = 16777216.
Proof. rewrite bpow_IZR by lia. reflexivity. Qed.

Lemma shr_m_of_loc m l : shr_m (shr_record_of_loc m l) = m.
Proof. destruct l as [|[| |]]; reflexivity. Qed.

(** The second stage of [binary_round_aux] keeps the value. *)
Lemma second_stage_val m1 e1 n2 mrs2 e2 :
  (0 <= m1)%Z -> ((n2 <= 0)%Z \/ (n2 = 1 /\ m1 = 16777216)%Z) ->
  shr (shr_record_of_loc m1 loc_Exact) e1 n2 = (mrs2, e2) ->
  (0 <= shr_m mrs2)%Z /\ IZR (shr_m mrs2) * bpow e2 = IZR m1 * bpow e1 /\ (e1 <= e2)%Z.
Proof.
  intros Hm [Hn|[-> ->]] Hs.
  - destruct n2 as [|p|p]; [|lia|]; cbn in Hs; injection Hs as <- <-;
      cbn [shr_m]; (split; [lia|split; [reflexivity|lia]]).
  - cbn in Hs. injection Hs as <- <-. cbn [shr_m]. split; [lia|split; [|lia]].
    rewrite bpow_add, bpow_1. lra.
Qed.

Theorem round_aux_ok m e l x :
  rec_ok (shr_record_of_loc m l) (x / bpow e) ->
  (l = loc_Exact \/ (e <= fexp 24 128 (Zdigits2 m + e))%Z) ->
  (binary_round_aux 24 128 false m e l = S754_infinity false /\ bpow 104 <= x) \/
  (nonneg_fin (binary_round_aux 24 128 false m e l) /\
   Rabs (val (binary_round_aux 24 128 false m e l) - x)
     <= / 2 * bpow (fexp 24 128 (Zdigits2 m + e)) /\
   (l = loc_Exact -> (fexp 24 128 (Zdigits2 m + e) <= e)%Z ->
    val (binary_round_aux 24 128 false m e l) = x)).
Proof.
  intros Hrec Hpre.
  set (E1 := fexp 24 128 (Zdigits2 m + e)) in *.
  assert (HE1 : E1 = Z.max (Zdigits2 m + e - 24) (-149)) by reflexivity.
  assert (Hm0 : (0 <= m)%Z) by (destruct l as [|[| |]]; exact (proj1 Hrec)).
  pose proof (bpow_pos e) as Hbe.
  unfold binary_round_aux.
  destruct (shr_fexp 24 128 m e l) as [mrs1 e1] eqn:Hs1.
  unfold shr_fexp in Hs1. fold E1 in Hs1.
  destruct (shr_ok (shr_record_of_loc m l) e (E1 - e) x Hrec) as [Hr1 [He1 Hn1]].
  rewrite Hs1 in Hr1, He1, Hn1. cbn [fst snd] in Hr1, He1.
  destruct (rne_ok mrs1 _ Hr1) as [Hm1 [Hrn Hex]].
  set (m1 := round_nearest_even (shr_m mrs1) (loc_of_shr_record mrs1)) in *.
  pose proof (bpow_pos e1) as Hbe1.
  assert (HeE : e1 = Z.max e E1) by lia.
  (* the first stage, exact case *)
  assert (Hexact : l = loc_Exact -> (E1 <= e)%Z -> e1 = e /\ IZR m1 = x / bpow e1).
  { intros -> HE. specialize (Hn1 ltac:(lia)). injection Hn1 as Hm' He'.
    split; [exact He'|]. apply Hex; rewrite Hm'; reflexivity. }
  (* the error of the first stage *)
  assert (Herr : Rabs (IZR m1 * bpow e1 - x) <= / 2 * bpow E1).
  { destruct (Z_le_gt_dec e1 E1) as [HE|HE].
    - assert (He : e1 = E1) by lia. rewrite He in Hrn, Hbe1 |- *.
      replace (IZR m1 * bpow E1 - x) with (bpow E1 * (IZR m1 - x / bpow E1))
        by (field; lra).
      rewrite Rabs_mult, (Rabs_pos_eq (bpow E1)) by lra.
      apply Rmult_le_compat_l with (r := bpow E1) in Hrn; lra.
    - assert (Hl : l = loc_Exact) by (destruct Hpre; [assumption|lia]).
      destruct (Hexact Hl ltac:(lia)) as [_ ->].
      replace (x / bpow e1 * bpow e1 - x) with 0 by (field; lra).
      rewrite Rabs_R0. pose proof (bpow_pos E1). lra. }
  (* the second stage shifts at most once, and only [2 ^ 24] *)
  set (n2 := (fexp 24 128 (Zdigits2 m1 + e1) - e1)%Z).
  assert (Hbig : e1 = E1 -> (n2 <= 0)%Z \/ (n2 = 1 /\ m1 = 16777216)%Z).
  { intros He. rewrite He in Hrn.
    pose proof (rec_ok_lt _ _ Hrec) as Hlt. rewrite shr_m_of_loc in Hlt.
    pose proof (IZR_bpow_lt m (Zdigits2 m) (zdigits_nonneg m) (zdigits_lt m Hm0)) as Hd.
    assert (Hx : x / bpow e < bpow (Zdigits2 m)) by lra.
    apply mul_bpow_lt in Hx. apply (div_bpow_lt _ _ E1) in Hx.
    pose proof (bpow_le (Zdigits2 m + e - E1) 24 ltac:(lia)) as H24. rewrite bpow_24 in H24.
    apply Rabs_le_inv in Hrn.
    assert (Hm24 : (m1 <= 16777216)%Z).
    { assert (IZR m1 < IZR (16777216 + 1)) by (rewrite plus_IZR; lra).
      apply lt_IZR in H. lia. }
    destruct (Z.eq_dec m1 16777216) as [Heq|Hne].
    - right. split; [|exact Heq]. unfold n2. rewrite Heq, He, fexp32_eq.
      change (Zdigits2 16777216) with 25%Z. lia.
    - left. unfold n2. rewrite He, fexp32_eq.
      pose proof (zdigits_le_of_lt m1 24 ltac:(lia) ltac:(change (2 ^ 24)%Z with 16777216%Z; lia)).
      lia. }
  assert (Hn2 : (n2 <= 0)%Z \/ (n2 = 1 /\ m1 = 16777216)%Z).
  { destruct (Z_le_gt_dec E1 e) as [HE|HE]; [destruct Hpre as [Hl|Hl]|].
    - destruct (Hexact Hl HE) as [He Hv].
      assert (Hmm : m1 = m).
      { subst l. specialize (Hn1 ltac:(lia)). apply (f_equal fst) in Hn1. cbn [fst] in Hn1.
        unfold m1. rewrite Hn1. reflexivity. }
      left. unfold n2. rewrite Hmm, He. fold E1. lia.
    - apply Hbig. lia.
    - apply Hbig. lia. }
  destruct (shr_fexp 24 128 m1 e1 loc_Exact) as [mrs2 e2] eqn:Hs2.
  unfold shr_fexp in Hs2. fold n2 in Hs2.
  destruct (second_stage_val m1 e1 n2 mrs2 e2 Hm1 Hn2 Hs2) as [Hm2 [Hv2 He2]].
  assert (HE1m : (-149 <= E1)%Z) by lia.
  assert (Hexact' : l = loc_Exact -> (E1 <= e)%Z -> IZR m1 * bpow e1 = x).
  { intros Hl HE. destruct (Hexact Hl HE) as [_ Hv]. rewrite Hv. field. lra. }
  destruct (shr_m mrs2) as [|p|p] eqn:Hm2'.
  - right. cbn [val nonneg_fin]. split; [exact I|].
    rewrite <- Hv2 in Herr, Hexact'. split.
    + replace (0 - x) with (IZR 0 * bpow e2 - x) by (simpl; ring). exact Herr.
    + intros Hl HE. rewrite <- (Hexact' Hl HE). simpl. ring.
  - destruct (Z.leb e2 (128 - 24)) eqn:Hle.
    + right. cbn [val nonneg_fin]. split; [lia|].
      rewrite <- Hv2 in Herr, Hexact'. split; [exact Herr|].
      intros Hl HE. exact (Hexact' Hl HE).
    + left. split; [reflexivity|]. apply Z.leb_gt in Hle.
      assert (Hp : 1 <= IZR (Zpos p)) by (apply IZR_le; lia).
      pose proof (bpow_le 105 e2 ltac:(lia)) as H105.
      replace 105%Z with (104 + 1)%Z in H105 by lia. rewrite bpow_add, bpow_1 in H105.
      pose proof (bpow_pos e2). pose proof (bpow_pos 104).
      assert (HV : 2 * bpow 104 <= IZR m1 * bpow e1) by nra.
      assert (Hm1p : 1 <= IZR m1).
      { assert (0 < IZR m1) by nra. apply IZR_le. apply lt_IZR in H1. lia. }
      pose proof (bpow_le E1 e1 ltac:(lia)).
      apply Rabs_le_inv in Herr. nra.
  - lia.
Qed.


Lemma zdigits_pos m : (0 < m)%Z -> (1 <= Zdigits2 m)%Z.
Proof. intros H. destruct m as [|p|p]; simpl; lia. Qed.

Lemma fexp_rel m e x : (0 < m)%Z -> IZR m * bpow e <= x ->
  fexp 24 128 (Zdigits2 m + e) = (-149)%Z \/ bpow (fexp 24 128 (Zdigits2 m + e) + 23) <= x.
Proof.
  intros Hm Hx. rewrite fexp32_eq. pose proof (zdigits_pos m Hm) as Hd.
  destruct (Z_le_gt_dec (Zdigits2 m + e - 24) (-149)) as [H|H]; [left; lia|right].
  replace (Z.max (Zdigits2 m + e - 24) (-149) + 23)%Z with ((Zdigits2 m - 1) + e)%Z by lia.
  rewrite bpow_add, bpow_IZR by lia.
  pose proof (zdigits_ge m Hm) as Hg. apply IZR_le in Hg.
  pose proof (bpow_pos e). nra.
Qed.

Lemma half_bpow_bound E x : (E = (-149)%Z \/ bpow (E + 23) <= x) -> 0 <= x ->
  / 2 * bpow E <= bpow (-24) * x + bpow (-150).
Proof.
  intros [->|H] Hx.
  - replace (-149)%Z with (-150 + 1)%Z by lia. rewrite bpow_add, bpow_1.
    pose proof (bpow_pos (-24)). nra.
  - replace (bpow E) with (bpow (-24) * bpow (E + 23) * 2).
    + pose proof (bpow_pos (-24)). pose proof (bpow_pos (-150)). nra.
    + rewrite <- bpow_1, <- !bpow_add. f_equal. lia.
Qed.

Theorem round_exact_ok m e x : (0 < m)%Z -> (-149 <= e)%Z -> x = IZR m * bpow e ->
  (binary_round_aux 24 128 false m e loc_Exact = S754_infinity false /\ bpow 104 <= x) \/
  (nonneg_fin (binary_round_aux 24 128 false m e loc_Exact) /\
   Rabs (val (binary_round_aux 24 128 false m e loc_Exact) - x) <= bpow (-24) * x).
Proof.
  intros Hm He Hx.
  pose proof (bpow_pos e) as Hbe.
  assert (Hrec : rec_ok (shr_record_of_loc m loc_Exact) (x / bpow e))
    by (apply rec_of_loc_exact; [lia|rewrite Hx; field; lra]).
  assert (Hx0 : 0 < x) by (rewrite Hx; apply Rmult_lt_0_compat; [apply IZR_lt; lia|lra]).
  destruct (round_aux_ok m e loc_Exact x Hrec (or_introl eq_refl)) as [Hi|[Hn [Herr Hex]]];
    [left; exact Hi|right; split; [exact Hn|]].
  destruct (Z_le_gt_dec (fexp 24 128 (Zdigits2 m + e)) e) as [HE|HE].
  - rewrite (Hex eq_refl HE). replace (x - x) with 0 by ring. rewrite Rabs_R0.
    pose proof (bpow_pos (-24)). nra.
  - destruct (fexp_rel m e x Hm ltac:(lra)) as [H|H].
    + rewrite fexp32_eq in HE, H. lia.
    + replace (bpow (fexp 24 128 (Zdigits2 m + e))) with
        (bpow (-24) * bpow (fexp 24 128 (Zdigits2 m + e) + 23) * 2) in Herr.
      * pose proof (bpow_pos (-24)). nra.
      * rewrite <- bpow_1, <- !bpow_add. f_equal. lia.
Qed.

Lemma val_nonneg f : nonneg_fin f -> 0 <= val f.
Proof.
  destruct f as [[]|[]| |[] m e]; simpl; try tauto; intros _; try lra.
  pose proof (bpow_pos e). pose proof (IZR_lt 0 (Zpos m) ltac:(lia)). nra.
Qed.

Lemma iter_xO p d : Zpos (Pos.iter xO p d) = (Zpos p * 2 ^ Zpos d)%Z.
Proof.
  induction d as [|d IH] using Pos.peano_ind.
  - change (Pos.iter xO p 1) with (xO p). rewrite Pos2Z.inj_xO.
    change (2 ^ Zpos 1)%Z with 2%Z. ring.
  - rewrite Pos.iter_succ, Pos2Z.inj_xO, IH, Pos2Z.inj_succ, Z.pow_succ_r by lia. ring.
Qed.

Lemma shl_align_val mx ex ex' :
  IZR (Zpos (fst (shl_align mx ex ex'))) * bpow (snd (shl_align mx ex ex')) = IZR (Zpos mx) * bpow ex /\
  (snd (shl_align mx ex ex') = ex \/ snd (shl_align mx ex ex') = ex').
Proof.
  unfold shl_align. destruct (ex' - ex)%Z as [|d|d] eqn:E; cbn [fst snd];
    try (split; [reflexivity|left; reflexivity]).
  split; [|right; reflexivity].
  rewrite iter_xO, mult_IZR, <- bpow_IZR by lia.
  rewrite Rmult_assoc, <- bpow_add. f_equal. f_equal. lia.
Qed.

Lemma shl_align_exp mx ex ex' : (ex' <= ex)%Z -> snd (shl_align mx ex ex') = ex'.
Proof. intros H. unfold shl_align. destruct (ex' - ex)%Z eqn:E; cbn [snd]; lia. Qed.

Theorem add_ok f g : nonneg_fin f -> nonneg_fin g ->
  (SFadd 24 128 f g = S754_infinity false /\ bpow 104 <= val f + val g) \/
  (nonneg_fin (SFadd 24 128 f g) /\
   Rabs (val (SFadd 24 128 f g) - (val f + val g)) <= bpow (-24) * (val f + val g)).
Proof.
  intros Hf Hg. pose proof (val_nonneg f Hf). pose proof (val_nonneg g Hg).
  assert (Hz : forall h, Rabs (h - h) <= bpow (-24) * (val f + val g)).
  { intros h. replace (h - h) with 0 by ring. rewrite Rabs_R0. pose proof (bpow_pos (-24)). nra. }
  destruct f as [[]|[]| |[] mx ex]; try contradiction;
  destruct g as [[]|[]| |[] my ey]; try contradiction.
  1-3: right; cbn [SFadd]; split; [assumption|];
    change (val (S754_zero false)) with 0 in *; rewrite ?Rplus_0_l, ?Rplus_0_r in *; apply Hz.
  - cbn [nonneg_fin] in Hf, Hg.
    set (ez := Z.min ex ey).
    destruct (shl_align_val mx ex ez) as [Va Ea].
    destruct (shl_align_val my ey ez) as [Vb Eb].
    destruct (shl_align mx ex ez) as [a ea] eqn:Ha.
    destruct (shl_align my ey ez) as [b eb] eqn:Hb.
    cbn [fst snd] in Va, Ea, Vb, Eb.
    assert (Hea : ea = ez).
    { pose proof (shl_align_exp mx ex ez ltac:(unfold ez; lia)) as E. rewrite Ha in E. exact E. }
    assert (Heb : eb = ez).
    { pose proof (shl_align_exp my ey ez ltac:(unfold ez; lia)) as E. rewrite Hb in E. exact E. }
    subst ea eb.
    unfold SFadd. fold ez. rewrite Ha, Hb. cbn [fst snd cond_Zopp].
    change (Zpos a + Zpos b)%Z with (Zpos (a + b)).
    unfold binary_normalize, binary_round.
    destruct (shl_align_val (a + b) ez (fexp 24 128 (Zpos (digits2_pos (a + b)) + ez))) as [Vc Ec].
    destruct (shl_align (a + b) ez (fexp 24 128 (Zpos (digits2_pos (a + b)) + ez))) as [c ec] eqn:Hc.
    cbn [fst snd] in Vc, Ec.
    assert (Hx : val (S754_finite false mx ex) + val (S754_finite false my ey) = IZR (Zpos c) * bpow ec).
    { cbn [val]. rewrite <- Va, <- Vb, Vc, Pos2Z.inj_add, plus_IZR. ring. }
    rewrite Hx. apply round_exact_ok; [lia| |reflexivity].
    destruct Ec as [->| ->]; [unfold ez; lia|rewrite fexp32_eq; lia].
Qed.

Lemma new_location_ok m2 r q : (0 < m2)%Z -> (0 <= r < m2)%Z -> (0 <= q)%Z ->
  rec_ok (shr_record_of_loc q (new_location m2 r)) (IZR q + IZR r / IZR m2).
Proof.
  intros Hm Hr Hq. split; [rewrite shr_m_of_loc; exact Hq|]. rewrite shr_m_of_loc.
  replace (IZR q + IZR r / IZR m2 - IZR q) with (IZR r / IZR m2) by ring.
  assert (HM : 0 < IZR m2) by (apply IZR_lt; lia).
  assert (Hrho : IZR r / IZR m2 * IZR m2 = IZR r) by (field; lra).
  set (rho := IZR r / IZR m2) in *.
  assert (Hr0 : 0 <= IZR r) by (apply IZR_le; lia).
  assert (Hr1 : IZR r < IZR m2) by (apply IZR_lt; lia).
  unfold new_location.
  destruct (Z.even m2) eqn:Hev; unfold new_location_even, new_location_odd; cbv beta;
    (destruct (Z.eqb_spec r 0) as [->|Hr0'];
     [cbn [shr_record_of_loc shr_r shr_s rs_ok]; nra|]);
    assert (Hrp : 0 < IZR r) by (apply IZR_lt; lia).
  - destruct (Z.compare_spec (2 * r) m2) as [H|H|H];
      cbn [shr_record_of_loc shr_r shr_s rs_ok];
      (apply IZR_lt in H || apply (f_equal IZR) in H); rewrite ?mult_IZR in H; nra.
  - destruct (Z.compare_spec (2 * r + 1) m2) as [H|H|H];
      cbn [shr_record_of_loc shr_r shr_s rs_ok].
    + assert (H' : (2 * r < m2)%Z) by lia. apply IZR_lt in H'. rewrite mult_IZR in H'. nra.
    + assert (H' : (2 * r < m2)%Z) by lia. apply IZR_lt in H'. rewrite mult_IZR in H'. nra.
    + assert (H' : (m2 < 2 * r)%Z).
      { assert (2 * r <> m2)%Z; [|lia]. intros E. rewrite <- E, Z.even_mul in Hev. discriminate. }
      apply IZR_lt in H'. rewrite mult_IZR in H'. nra.
Qed.

Lemma div_core_ok m1 e1 m2 e2 q e' l :
  SFdiv_core_binary 24 128 (Zpos m1) e1 (Zpos m2) e2 = (q, e', l) ->
  (0 <= q)%Z /\
  rec_ok (shr_record_of_loc q l)
         (IZR (Zpos m1) * bpow e1 / (IZR (Zpos m2) * bpow e2) / bpow e') /\
  (Zdigits2 (Zpos m1) + e1 - (Zdigits2 (Zpos m2) + e2) - e' <= Zdigits2 q)%Z /\
  (e' <= fexp 24 128 (Zdigits2 (Zpos m1) + e1 - (Zdigits2 (Zpos m2) + e2)))%Z.
Proof.
  unfold SFdiv_core_binary. cbv zeta.
  set (D := (Zdigits2 (Zpos m1) + e1 - (Zdigits2 (Zpos m2) + e2))%Z).
  set (e0 := Z.min (fexp 24 128 D) (e1 - e2)).
  set (s := (e1 - e2 - e0)%Z).
  assert (Hs : (0 <= s)%Z) by (unfold s, e0; lia).
  assert (Hm' : match s with Zpos _ => Z.shiftl (Zpos m1) s | Z0 => Zpos m1 | Zneg _ => 0%Z end
                = (Zpos m1 * 2 ^ s)%Z).
  { destruct s as [|p|p] eqn:Es; [ring| |lia]. rewrite Z.shiftl_mul_pow2 by lia. reflexivity. }
  rewrite Hm'.
  pose proof (Z_div_mod (Zpos m1 * 2 ^ s) (Zpos m2) ltac:(lia)) as Hdm.
  destruct (Z.div_eucl (Zpos m1 * 2 ^ s) (Zpos m2)) as [q0 r0].
  intros H. injection H as <- <- <-. destruct Hdm as [Heq Hr].
  pose proof (Z.pow_pos_nonneg 2 s ltac:(lia) Hs) as Hps.
  assert (Hq : (0 <= q0)%Z) by nia.
  split; [exact Hq|]. split.
  - replace (IZR (Zpos m1) * bpow e1 / (IZR (Zpos m2) * bpow e2) / bpow e0)
      with (IZR q0 + IZR r0 / IZR (Zpos m2)).
    + apply new_location_ok; lia.
    + assert (Hb : IZR (Zpos m1 * 2 ^ s) = IZR (Zpos m1) * bpow s) by (rewrite mult_IZR, bpow_IZR by lia; reflexivity).
      rewrite Heq, plus_IZR, mult_IZR in Hb.
      replace e1 with (e2 + e0 + s)%Z by (unfold s; lia).
      rewrite !bpow_add.
      assert (0 < IZR (Zpos m2)) by (apply IZR_lt; lia).
      pose proof (bpow_pos e2). pose proof (bpow_pos e0). pose proof (bpow_pos s).
      field_simplify; [|lra|lra].
      rewrite <- Hb. field. lra.
  - split; [|unfold e0; lia].
    destruct (Z_le_gt_dec (D - e0) 0) as [H|H]; [pose proof (zdigits_nonneg q0); lia|].
    set (k := (D - e0 - 1)%Z).
    assert (Hk : (2 ^ k <= q0)%Z).
    { pose proof (zdigits_ge (Zpos m1) ltac:(lia)) as G1.
      pose proof (zdigits_lt (Zpos m2) ltac:(lia)) as G2.
      pose proof (Z.pow_pos_nonneg 2 k ltac:(lia) ltac:(unfold k; lia)) as Gk.
      assert (E : (2 ^ (Zdigits2 (Zpos m1) - 1) * 2 ^ s = 2 ^ Zdigits2 (Zpos m2) * 2 ^ k)%Z).
      { rewrite <- !Z.pow_add_r by (unfold k, s, D in *; pose proof (zdigits_pos (Zpos m1) ltac:(lia));
                                     pose proof (zdigits_nonneg (Zpos m2)); lia).
        f_equal. unfold k, s, D. lia. }
      nia. }
    pose proof (zdigits_ge_of_le q0 k ltac:(unfold k; lia) Hk). unfold k in *. lia.
Qed.

Theorem div_ok f g : nonneg_fin f -> nonneg_fin g -> 0 < val g ->
  (SFdiv 24 128 f g = S754_infinity false /\ bpow 104 <= val f / val g) \/
  (nonneg_fin (SFdiv 24 128 f g) /\
   Rabs (val (SFdiv 24 128 f g) - val f / val g) <= bpow (-24) * (val f / val g) + bpow (-150)).
Proof.
  intros Hf Hg Hpos.
  destruct g as [[]|[]| |[] my ey]; try contradiction;
    [cbn [val] in Hpos; lra|].
  cbn [nonneg_fin] in Hg.
  destruct f as [[]|[]| |[] mx ex]; try contradiction.
  - right. cbn [SFdiv xorb]. split; [exact I|].
    change (val (S754_zero false)) with 0. unfold Rdiv. rewrite Rmult_0_l, Rminus_0_r, Rabs_R0.
    pose proof (bpow_pos (-150)). lra.
  - cbn [nonneg_fin] in Hf.
    assert (Hx : val (S754_finite false mx ex) / val (S754_finite false my ey)
                 = IZR (Zpos mx) * bpow ex / (IZR (Zpos my) * bpow ey)) by reflexivity.
    rewrite Hx. clear Hx.
    unfold SFdiv.
    destruct (SFdiv_core_binary 24 128 (Zpos mx) ex (Zpos my) ey) as [[q e'] l] eqn:Hc.
    destruct (div_core_ok mx ex my ey q e' l Hc) as [Hq [Hrec [Hd He']]].
    set (x := IZR (Zpos mx) * bpow ex / (IZR (Zpos my) * bpow ey)) in *.
    assert (Hx0 : 0 <= x).
    { unfold x. pose proof (bpow_pos ex). pose proof (bpow_pos ey).
      pose proof (IZR_lt 0 (Zpos mx) ltac:(lia)). pose proof (IZR_lt 0 (Zpos my) ltac:(lia)).
      apply Rle_mult_inv_pos; nra. }
    cbn [xorb].
    assert (Hpre : (e' <= fexp 24 128 (Zdigits2 q + e'))%Z) by (rewrite fexp32_eq in *; lia).
    destruct (round_aux_ok q e' l x Hrec (or_intror Hpre)) as [Hi|[Hn [Herr _]]];
      [left; exact Hi|right; split; [exact Hn|]].
    eapply Rle_trans; [exact Herr|]. apply half_bpow_bound; [|exact Hx0].
    destruct (Z_lt_le_dec 0 q) as [Hq0|Hq0].
    + apply fexp_rel; [exact Hq0|].
      pose proof (rec_ok_lt _ _ Hrec) as [Hlt _]. rewrite shr_m_of_loc in Hlt.
      pose proof (bpow_pos e').
      apply Rmult_le_compat_r with (r := bpow e') in Hlt; [|lra].
      replace (x / bpow e' * bpow e') with x in Hlt by (field; lra). lra.
    + left. assert (q = 0%Z) by lia. subst q. rewrite fexp32_eq in *. simpl Zdigits2 in *. lia.
Qed.

Lemma bpow_m24 : bpow (-24) = / 16777216.
Proof.
  apply (Rmult_eq_reg_l (bpow 24)); [|pose proof (bpow_pos 24); lra].
  rewrite <- bpow_add. rewrite bpow_24. change (bpow (24 + -24)) with (bpow 0). unfold bpow; simpl. field.
Qed.

Lemma bpow_m150 : bpow (-150) <= / 16777216 * / 16777216.
Proof. rewrite <- bpow_m24, <- bpow_add. apply bpow_le. lia. Qed.

Lemma pow_le_1 a k : 0 <= a <= 1 -> 0 <= a ^ k <= 1.
Proof. intros H. induction k as [|k IH]; simpl; nra. Qed.

Lemma pow_ge_1 a k : 1 <= a -> 1 <= a ^ k.
Proof. intros H. induction k as [|k IH]; simpl; nra. Qed.

Lemma u_bounds : 0 < bpow (-24) < 1.
Proof. rewrite bpow_m24. lra. Qed.

Lemma fold_add_inf l : Forall nonneg_fin l ->
  fold_left F32.add l (S754_infinity false) = S754_infinity false.
Proof.
  induction l as [|c l IH]; intros H; [reflexivity|].
  inversion H as [|? ? Hc Hl]; subst. cbn [fold_left].
  replace (F32.add (S754_infinity false) c) with (S754_infinity false); [exact (IH Hl)|].
  destruct c as [[]|[]| |[] m e]; try contradiction; reflexivity.
Qed.

Lemma fold_add_bounds l : forall s T k,
  Forall nonneg_fin l -> nonneg_fin s -> 0 <= T ->
  (1 - bpow (-24)) ^ k * T <= val s <= (1 + bpow (-24)) ^ k * T ->
  fold_left F32.add l s = S754_infinity false \/
  (nonneg_fin (fold_left F32.add l s) /\
   (1 - bpow (-24)) ^ (k + length l) * (T + rsum l) <= val (fold_left F32.add l s)
     <= (1 + bpow (-24)) ^ (k + length l) * (T + rsum l)).
Proof.
  induction l as [|c l IH]; intros s T k Hl Hs HT Hb.
  - right. cbn [fold_left length]. unfold rsum. cbn [map fold_right].
    rewrite Nat.add_0_r, Rplus_0_r. split; assumption.
  - inversion Hl as [|? ? Hc Hl']; subst. cbn [fold_left].
    change (F32.add s c) with (SFadd 24 128 s c).
    destruct (add_ok s c Hs Hc) as [[Hi _]|[Hn Herr]].
    + left. rewrite Hi. apply fold_add_inf, Hl'.
    + pose proof u_bounds as Hu. pose proof (val_nonneg c Hc) as Hc0.
      pose proof (val_nonneg s Hs) as Hs0.
      set (u := bpow (-24)) in *.
      pose proof (pow_le_1 (1 - u) k ltac:(lra)) as Ha.
      pose proof (pow_ge_1 (1 + u) k ltac:(lra)) as Hb1.
      set (a := (1 - u) ^ k) in *. set (b := (1 + u) ^ k) in *.
      apply Rabs_le_inv in Herr. destruct Hb as [Hlo Hhi].
      assert (Hstep : (1 - u) ^ (S k) * (T + val c) <= val (SFadd 24 128 s c)
                      <= (1 + u) ^ (S k) * (T + val c)).
      { rewrite <- !tech_pow_Rmult. fold a b.
        assert (H1 : 0 <= (1 - u) * (val s - a * T)) by (apply Rmult_le_pos; lra).
        assert (H2 : 0 <= (1 - u) * (val c * (1 - a))) by (apply Rmult_le_pos; [lra|apply Rmult_le_pos; lra]).
        assert (H3 : 0 <= (1 + u) * (b * T - val s)) by (apply Rmult_le_pos; lra).
        assert (H4 : 0 <= (1 + u) * (val c * (b - 1))) by (apply Rmult_le_pos; [lra|apply Rmult_le_pos; lra]).
        split; nra. }
      assert (HT' : 0 <= T + val c) by lra.
      destruct (IH (SFadd 24 128 s c) (T + val c) (S k) Hl' Hn HT' Hstep) as [Hi|[Hn' Hb']];
        [left; exact Hi|right].
      split; [exact Hn'|].
      replace (k + length (c :: l))%nat with (S k + length l)%nat by (cbn [length]; lia).
      replace (T + rsum (c :: l)) with (T + val c + rsum l) by (unfold rsum; cbn [map fold_right]; ring).
      exact Hb'.
Qed.

Lemma rsum_cons v l : rsum (v :: l) = val v + rsum l.
Proof. reflexivity. Qed.

Lemma rsum_nonneg l : Forall nonneg_fin l -> 0 <= rsum l.
Proof.
  induction l as [|v l IH]; intros H; [unfold rsum; simpl; lra|].
  inversion H; subst. rewrite rsum_cons. pose proof (val_nonneg v H2). pose proof (IH H3). lra.
Qed.

Lemma val_le_rsum l v : Forall nonneg_fin l -> In v l -> val v <= rsum l.
Proof.
  induction l as [|w l IH]; intros H Hin; [destruct Hin|].
  inversion H; subst. rewrite rsum_cons. destruct Hin as [<-|Hin].
  - pose proof (rsum_nonneg l H3). lra.
  - pose proof (val_nonneg w H2). pose proof (IH H3 Hin). lra.
Qed.

Lemma div_map_bounds l t : nonneg_fin t -> 0 < val t ->
  Forall nonneg_fin l -> Forall (fun v => val v / val t < bpow 104) l ->
  Forall nonneg_fin (map (fun v => F32.div v t) l) /\
  Rabs (rsum (map (fun v => F32.div v t) l) - rsum l / val t)
    <= bpow (-24) * (rsum l / val t) + INR (length l) * bpow (-150).
Proof.
  intros Ht Ht0. induction l as [|v l IH]; intros Hl Hb.
  - split; [constructor|]. unfold rsum. cbn [map fold_right length INR].
    unfold Rdiv. rewrite Rmult_0_l, Rminus_0_r, Rabs_R0. lra.
  - inversion Hl as [|? ? Hv Hl']; subst. inversion Hb as [|? ? Hbv Hb']; subst.
    destruct (IH Hl' Hb') as [Hn Herr].
    change (F32.div v t) with (SFdiv 24 128 v t) in *.
    destruct (div_ok v t Hv Ht Ht0) as [[_ Hi]|[Hnv Herrv]]; [lra|].
    split; [constructor; assumption|].
    cbn [map length]. rewrite !rsum_cons, S_INR.
    apply Rabs_le_inv in Herr. apply Rabs_le_inv in Herrv. apply Rabs_le.
    replace ((val v + rsum l) / val t) with (val v / val t + rsum l / val t) by (field; lra).
    rewrite Rmult_plus_distr_l, Rmult_plus_distr_r, Rmult_1_l. change (F32.div v t) with (SFdiv 24 128 v t). split; lra.
Qed.

Lemma nonneg_fin_pos t : nonneg_fin t -> 0 < val t -> F32.lt F32.zero t = true.
Proof.
  destruct t as [[]|[]| |[] m e]; cbn [nonneg_fin val]; try tauto; intros _ H; first [reflexivity | lra].
Qed.

Lemma nonneg_fin_zero v : nonneg_fin v -> val v = 0 -> v = F32.zero.
Proof.
  destruct v as [[]|[]| |[] m e]; cbn [nonneg_fin val]; try tauto; intros _ H;
    first [reflexivity | pose proof (bpow_pos e); pose proof (IZR_lt 0 (Zpos m) ltac:(lia)); nra].
Qed.

Lemma lt_zero_pos t : nonneg_fin t -> F32.lt F32.zero t = true -> 0 < val t.
Proof.
  destruct t as [[]|[]| |[] m e]; cbn [nonneg_fin val]; try tauto; intros _ H;
    first [discriminate | pose proof (bpow_pos e); pose proof (IZR_lt 0 (Zpos m) ltac:(lia)); nra].
Qed.

(** Claim C6 (amended).  Let the chromagram have 12 bins, each [+0] or a
    positive finite binary32 value.  If the float total is positive and did not
    overflow to infinity, then the normalised bins are again non-negative and
    their exact real sum is within 1e-6 of 1.  If the total is not positive,
    then every bin is [+0] and [normalize] leaves the chromagram unchanged. *)
Theorem normalize_sums_to_one (c : list f32) :
  length c = 12%nat -> Forall nonneg_fin c ->
  (F32.lt F32.zero (fold_left F32.add c F32.zero) = true ->
   fold_left F32.add c F32.zero <> S754_infinity false ->
   Forall nonneg_fin (Key.normalize c) /\ Rabs (rsum (Key.normalize c) - 1) <= / 1000000) /\
  (F32.lt F32.zero (fold_left F32.add c F32.zero) = false ->
   Key.normalize c = c /\ Forall (fun v => v = F32.zero) c).
Proof.
  intros Hlen Hc.
  assert (H0 : (1 - bpow (-24)) ^ 0 * 0 <= val F32.zero <= (1 + bpow (-24)) ^ 0 * 0).
  { change (val F32.zero) with 0. lra. }
  pose proof (rsum_nonneg c Hc) as Hs0.
  destruct (fold_add_bounds c F32.zero 0 0 Hc I (Rle_refl 0) H0) as [Hi|[Hn Hb0]].
  - rewrite Hi. split; [intros _ E; contradiction E; reflexivity|discriminate].
  - assert (Hl12 : (0 + @length spec_float c)%nat = 12%nat) by exact Hlen.
    rewrite Hl12, Rplus_0_l in Hb0. destruct Hb0 as [Hlo Hhi].
    set (t := fold_left F32.add c F32.zero) in *.
    pose proof u_bounds as Hu.
    rewrite bpow_m24 in Hlo, Hhi. cbn [pow] in Hlo, Hhi.
    split.
    + intros Hpos _. pose proof (lt_zero_pos t Hn Hpos) as Ht0.
      unfold Key.normalize. fold t. rewrite Hpos.
      assert (Hb : Forall (fun v => val v / val t < bpow 104) c).
      { apply Forall_forall. intros v Hv. pose proof (val_le_rsum c v Hc Hv).
        pose proof (val_nonneg v (proj1 (Forall_forall _ _) Hc v Hv)).
        pose proof (bpow_le 2 104 ltac:(lia)) as H4.
        replace (bpow 2) with 4 in H4 by (rewrite bpow_IZR by lia; reflexivity).
        apply (Rmult_lt_reg_r (val t)); [lra|].
        replace (val v / val t * val t) with (val v) by (field; lra). nra. }
      destruct (div_map_bounds c t Hn Ht0 Hc Hb) as [Hf Herr].
      split; [exact Hf|].
      assert (Hl12' : @length spec_float c = 12%nat) by exact Hlen.
      rewrite Hl12', bpow_m24 in Herr. apply Rabs_le_inv in Herr. apply Rabs_le.
      pose proof bpow_m150 as He. pose proof (bpow_pos (-150)).
      set (w := rsum c / val t) in *.
      assert (Hw : w * val t = rsum c) by (unfold w; field; lra).
      assert (HwA : w * ((1 - / 16777216) * ((1 - / 16777216) * ((1 - / 16777216) * ((1 - / 16777216) *
              ((1 - / 16777216) * ((1 - / 16777216) * ((1 - / 16777216) * ((1 - / 16777216) *
              ((1 - / 16777216) * ((1 - / 16777216) * ((1 - / 16777216) * ((1 - / 16777216) * 1)))))))))))) <= 1).
      { apply (Rmult_le_reg_r (val t)); [lra|]. nra. }
      assert (HwB : 1 <= w * ((1 + / 16777216) * ((1 + / 16777216) * ((1 + / 16777216) * ((1 + / 16777216) *
              ((1 + / 16777216) * ((1 + / 16777216) * ((1 + / 16777216) * ((1 + / 16777216) *
              ((1 + / 16777216) * ((1 + / 16777216) * ((1 + / 16777216) * ((1 + / 16777216) * 1))))))))))))).
      { apply (Rmult_le_reg_r (val t)); [lra|]. nra. }
      simpl INR in Herr. split; lra.
    + intros Hz. unfold Key.normalize. fold t. rewrite Hz. split; [reflexivity|].
      assert (Hr : rsum c = 0).
      { destruct (Rle_lt_dec (rsum c) 0) as [H|H]; [lra|].
        assert (0 < val t) by nra. rewrite (nonneg_fin_pos t Hn H1) in Hz. discriminate. }
      apply Forall_forall. intros v Hv. apply nonneg_fin_zero.
      * exact (proj1 (Forall_forall _ _) Hc v Hv).
      * pose proof (val_le_rsum c v Hc Hv). pose proof (val_nonneg v (proj1 (Forall_forall _ _) Hc v Hv)). lra.
Qed.

Lemma normalize_sums_to_one_witness :
  length ramp_chroma = 12%nat /\ Forall nonneg_fin ramp_chroma /\
  F32.lt F32.zero (fold_left F32.add ramp_chroma F32.zero) = true /\
  fold_left F32.add ramp_chroma F32.zero <> S754_infinity false /\
  (Forall nonneg_fin (Key.normalize ramp_chroma) /\
   Rabs (rsum (Key.normalize ramp_chroma) - 1) <= / 1000000).
Proof.
  assert (Hl : length ramp_chroma = 12%nat) by reflexivity.
  assert (Hf : Forall nonneg_fin ramp_chroma).
  { apply Forall_forall. intros v Hv. vm_compute in Hv.
    repeat (destruct Hv as [<-|Hv]; [vm_compute; congruence|]). destruct Hv. }
  assert (Hp : F32.lt F32.zero (fold_left F32.add ramp_chroma F32.zero) = true) by (vm_compute; reflexivity).
  assert (Hi : fold_left F32.add ramp_chroma F32.zero <> S754_infinity false) by (vm_compute; discriminate).
  split; [exact Hl|]. split; [exact Hf|]. split; [exact Hp|]. split; [exact Hi|].
  exact (proj1 (normalize_sums_to_one ramp_chroma Hl Hf) Hp Hi).
Defined.

End Reals32.

(** * Sign, range and locality of the detectors' results *)

(** ** Generic facts *)
Lemma fold_left_preserves {A B : Type} (P : A -> Prop) (f : A -> B -> A) (l : list B) :
  (forall a b, P a -> P (f a b)) -> forall a, P a -> P (fold_left f l a).
Proof. intros Hf. induction l as [|b l IH]; intros a Ha; simpl; auto. Qed.

Lemma fold_left_ext_in {A B : Type} (f g : A -> B -> A) (l : list B) :
  (forall a b, In b l -> f a b = g a b) -> forall a, fold_left f l a = fold_left g l a.
Proof.
  induction l as [|b l IH]; intros H a; simpl; auto.
  rewrite H by (left; reflexivity). apply IH. intros a' b' Hb. apply H. right; exact Hb.
Qed.

(** ** Sums, products and square roots of non-negative values *)
Lemma round_aux_nonneg_num (m e : Z) (l : location) :
  0 <= m -> nonneg_num (binary_round_aux F32.prec F32.emax false m e l) = true.
Proof.
  intros H. pose proof (binary_round_aux_not_nan F32.prec F32.emax false m e l H) as Hn.
  pose proof (binary_round_aux_shape false m e l) as Hs; cbv zeta in Hs.
  destruct Hs as [E|[E|[E|(m' & e' & E)]]]; rewrite E in *; reflexivity || congruence.
Qed.

Lemma round_nonneg_num (p : positive) (e : Z) :
  nonneg_num (binary_round F32.prec F32.emax false p e) = true.
Proof.
  unfold binary_round. destruct (shl_align _ _ _) as [mz ez].
  apply round_aux_nonneg_num. lia.
Qed.

Lemma add_nonneg_num (a b : f32) :
  nonneg_num a = true -> nonneg_num b = true -> nonneg_num (F32.add a b) = true.
Proof.
  destruct a as [[]|[]| |[] ma ea]; try discriminate;
    destruct b as [[]|[]| |[] mb eb]; try discriminate; intros _ _; try reflexivity.
  unfold F32.add, SFadd, binary_normalize. cbn [cond_Zopp Z.add].
  apply round_nonneg_num.
Qed.

Lemma lt_zero_nonneg_num (d : f32) : F32.lt F32.zero d = true -> nonneg_num d = true.
Proof. destruct d as [[]|[]| |[] m e]; intros H; try reflexivity; discriminate H. Qed.

Lemma lt_not_nan_r (a b : f32) : F32.lt a b = true -> F32.is_nan b = false.
Proof. destruct b; intros H; try reflexivity. destruct a; discriminate H. Qed.

Lemma lt_not_nan_l (a b : f32) : F32.lt a b = true -> F32.is_nan a = false.
Proof. destruct a; intros H; try reflexivity. discriminate H. Qed.

Lemma nn_or_nan_add (a b : f32) :
  nonneg_num a || F32.is_nan a = true -> nonneg_num b || F32.is_nan b = true ->
  nonneg_num (F32.add a b) || F32.is_nan (F32.add a b) = true.
Proof.
  intros Ha Hb.
  destruct (nonneg_num a) eqn:Ea; [destruct (nonneg_num b) eqn:Eb|].
  - rewrite (add_nonneg_num a b Ea Eb). reflexivity.
  - destruct b; try discriminate. destruct a; reflexivity.
  - destruct a; try discriminate. reflexivity.
Qed.

Lemma nn_or_nan_mul_self (x : f32) : nonneg_num (F32.mul x x) || F32.is_nan (F32.mul x x) = true.
Proof.
  destruct x as [s|s| |s m e]; unfold F32.mul, SFmul; rewrite ?xorb_nilpotent; try reflexivity.
  rewrite round_aux_nonneg_num by lia. reflexivity.
Qed.

Lemma nn_or_nan_sqrt (a : f32) :
  nonneg_num a || F32.is_nan a = true -> nonneg_num (F32.sqrt a) || F32.is_nan (F32.sqrt a) = true.
Proof.
  destruct a as [[]|[]| |[] m e]; intros H; try discriminate; try reflexivity.
  unfold F32.sqrt, SFsqrt, SFsqrt_core_binary.
  set (m' := match _ with Z.pos _ => _ | 0 => _ | Z.neg _ => 0 end).
  assert (Hm : 0 <= Z.sqrt m') by apply Z.sqrt_nonneg.
  rewrite <- (Z.sqrtrem_sqrt m') in Hm.
  destruct (Z.sqrtrem m') as [q r]. simpl in Hm.
  rewrite round_aux_nonneg_num by exact Hm. reflexivity.
Qed.

Lemma nn_or_nan_magnitude (c : f32 * f32) :
  nonneg_num (magnitude c) || F32.is_nan (magnitude c) = true.
Proof.
  destruct c as [re im]. unfold magnitude.
  apply nn_or_nan_sqrt, nn_or_nan_add; apply nn_or_nan_mul_self.
Qed.

(** ** The onset envelope and the chromagram *)
Lemma spectral_flux_nonneg (spectrum prev : list f32) :
  nonneg_num (BPM.spectral_flux spectrum prev) = true.
Proof.
  unfold BPM.spectral_flux.
  apply (fold_left_preserves (fun v => nonneg_num v = true)); [|reflexivity].
  intros flux p Hf. cbv beta.
  destruct (F32.lt F32.zero (F32.sub (fst p) (snd p))) eqn:E; [|exact Hf].
  apply add_nonneg_num; [exact Hf|]. apply lt_zero_nonneg_num; exact E.
Qed.

Lemma onset_frames_nonneg (M : MathEnv) (audio : list f32) : forall k frame prev,
  Forall (fun v => nonneg_num v = true) (BPM.onset_frames M audio frame k prev).
Proof.
  induction k as [|k IH]; intros frame prev; simpl; constructor.
  - apply spectral_flux_nonneg.
  - apply IH.
Qed.

(** [calculateOnsetStrength] yields one value per frame, and every value is
    [+0], a positive finite float or [+inf]: the spectral flux only adds the
    positive differences of magnitudes, so it is never negative and never NaN. *)
Theorem onset_envelope_nonneg (M : MathEnv) (audio : list f32) :
  length (BPM.calculateOnsetStrength M audio) = Z.to_nat (BPM.numFrames (Z.of_nat (length audio))) /\
  Forall (fun v => nonneg_num v = true) (BPM.calculateOnsetStrength M audio).
Proof.
  split; [apply calculateOnsetStrength_length|].
  unfold BPM.calculateOnsetStrength. apply onset_frames_nonneg.
Qed.

Lemma add_at_ok (k : nat) (mag : f32) : forall c,
  nonneg_num mag || F32.is_nan mag = true ->
  Forall (fun v => nonneg_num v || F32.is_nan v = true) c ->
  length (Key.add_at k mag c) = length c /\
  Forall (fun v => nonneg_num v || F32.is_nan v = true) (Key.add_at k mag c).
Proof.
  induction k as [|k IH]; intros [|v c] Hm Hc; simpl;
    try solve [split; [reflexivity|constructor]].
  - inversion Hc; subst. split; [reflexivity|]. constructor; [apply nn_or_nan_add; assumption|assumption].
  - inversion Hc; subst. destruct (IH c Hm H2) as [H3 H4].
    split; [rewrite H3; reflexivity|]. constructor; assumption.
Qed.

Lemma accumulate_ok (c : list f32) (idx : Z) (mag : f32) :
  nonneg_num mag || F32.is_nan mag = true -> bins_ok c -> bins_ok (Key.accumulate c idx mag).
Proof.
  intros Hm [Hl Hc]. unfold Key.accumulate.
  destruct ((0 <=? idx) && (idx <? 12)); [|split; assumption].
  destruct (add_at_ok (Z.to_nat idx) mag c Hm Hc) as [H1 H2].
  split; [rewrite H1; exact Hl|exact H2].
Qed.

Lemma frame_bins_ok (M : MathEnv) (sr : F64.t) (fftData : list (f32 * f32)) (c : list f32) :
  bins_ok c -> bins_ok (Key.frame_bins M sr fftData c).
Proof.
  unfold Key.frame_bins. apply fold_left_preserves. intros c' bin H. cbv beta zeta.
  destruct (_ || _); [exact H|].
  apply accumulate_ok; [apply nn_or_nan_magnitude|exact H].
Qed.

(** [calculateChromagram] always returns 12 bins, each non-negative ([+0], a
    positive finite float or [+inf]) or NaN: the bins only accumulate FFT
    magnitudes, which are square roots of sums of squares. *)
Theorem calculateChromagram_bins (M : MathEnv) (sr : F64.t) (audio : list f32) :
  length (Key.calculateChromagram M sr audio) = 12%nat /\
  Forall (fun v => nonneg_num v || F32.is_nan v = true) (Key.calculateChromagram M sr audio).
Proof.
  change (bins_ok (Key.calculateChromagram M sr audio)).
  unfold Key.calculateChromagram. apply fold_left_preserves.
  - intros c frame H. apply frame_bins_ok; exact H.
  - split; [reflexivity|]. repeat constructor.
Qed.

(** ** Correlation and the result of [detectKey] *)
Lemma f32_mul_comm (a b : f32) : F32.mul a b = F32.mul b a.
Proof.
  destruct a as [sa|sa| |sa ma ea], b as [sb|sb| |sb mb eb]; unfold F32.mul, SFmul;
    try rewrite (xorb_comm sa sb); try reflexivity.
  rewrite Pos.mul_comm, Z.add_comm. reflexivity.
Qed.

(** The Pearson correlation of [KeyDetector::correlation] is symmetric in its two
    arguments, bit for bit, including the guard on a zero standard deviation. *)
Theorem correlation_symmetric (x y : list f32) :
  Key.correlation x y = Key.correlation y x.
Proof.
  rewrite !correlation_unfold, orb_comm, (f32_mul_comm (std12 y)).
  replace (covariance12 y x) with (covariance12 x y); [reflexivity|].
  unfold covariance12, sum_dev. apply fold_left_ext_in. intros s i _. f_equal. apply f32_mul_comm.
Qed.

Lemma binary_normalize_not_nan (z e : Z) (b : bool) :
  F32.is_nan (binary_normalize F32.prec F32.emax z e b) = false.
Proof.
  unfold binary_normalize.
  destruct z as [|p|p]; [reflexivity| |];
    unfold binary_round; destruct (shl_align _ _ _) as [mz ez];
    [ pose proof (binary_round_aux_not_nan F32.prec F32.emax false (Z.pos mz) ez loc_Exact
                    ltac:(lia)) as H
    | pose proof (binary_round_aux_not_nan F32.prec F32.emax true (Z.pos mz) ez loc_Exact
                    ltac:(lia)) as H ];
    destruct (binary_round_aux _ _ _ _ _ _); simpl; congruence.
Qed.

Lemma add_one_not_nan (m : f32) : F32.is_nan m = false -> F32.is_nan (F32.add m F32.one) = false.
Proof.
  intros H. rewrite f32_one. destruct m as [s|s| |s mm e]; try reflexivity; try discriminate.
  unfold F32.add, SFadd. apply binary_normalize_not_nan.
Qed.

Lemma div_two_not_nan (v : f32) : F32.is_nan v = false -> F32.is_nan (F32.div v (F32.of_Z 2)) = false.
Proof.
  intros H. change (F32.of_Z 2) with (S754_finite false 8388608 (-22)).
  destruct v as [s|s| |s m e]; try reflexivity; try discriminate.
  apply div_finite_not_nan.
Qed.

Lemma jlimit_unit (v : f32) : F32.is_nan v = false ->
  F32.le F32.zero (jlimit F32.zero F32.one v) = true /\
  F32.le (jlimit F32.zero F32.one v) F32.one = true.
Proof.
  intros H. unfold jlimit.
  destruct (F32.lt v F32.zero) eqn:E1; [split; reflexivity|].
  destruct (F32.lt F32.one v) eqn:E2; [split; reflexivity|].
  split.
  - apply (f32_not_lt_le v F32.zero); [exact H|reflexivity|exact E1].
  - apply (f32_not_lt_le F32.one v); [reflexivity|exact H|exact E2].
Qed.

Lemma pitchClass_in (root : nat) : In (Key.pitchClass root) Key.pitchClasses.
Proof.
  unfold Key.pitchClass. destruct (nth_in_or_default root Key.pitchClasses "C"%string) as [H|H].
  - exact H.
  - rewrite H. left. reflexivity.
Qed.

Lemma root_step_ok (pcd : list f32) (b : f32 * string * string) (root : nat) :
  best_ok b -> best_ok (Key.root_step pcd b root).
Proof.
  destruct b as [[m k] md]. unfold Key.root_step.
  set (ca := Key.correlation pcd (Key.rotate Key.majorProfile root)).
  set (cb := Key.correlation pcd (Key.rotate Key.minorProfile root)).
  intros Hb.
  assert (H1 : best_ok (if F32.lt m ca then (ca, Key.pitchClass root, "major"%string) else (m, k, md))).
  { destruct (F32.lt m ca) eqn:E; [|exact Hb].
    split; [exact (lt_not_nan_r _ _ E)|]. split; [apply pitchClass_in|left; reflexivity]. }
  destruct (if F32.lt m ca then _ else _) as [[m2 k2] md2].
  destruct (F32.lt m2 cb) eqn:E; [|exact H1].
  split; [exact (lt_not_nan_r _ _ E)|]. split; [apply pitchClass_in|right; reflexivity].
Qed.

(** Whatever the buffer, [detectKey] returns one of the 12 pitch-class names, the
    mode "major" or "minor", and a confidence in [0, 1] (never NaN): the best
    correlation starts at -1 and only a number can replace it, and the
    confidence [(best + 1) / 2] is clamped by [jlimit]. *)
Theorem detectKey_result_valid (M : MathEnv) (d : Key.KeyDetector) (audio : list f32) :
  let '(key, mode, conf) := Key.detectKey M d audio in
  In key Key.pitchClasses /\ (mode = "major"%string \/ mode = "minor"%string) /\
  F32.le F32.zero conf = true /\ F32.le conf F32.one = true.
Proof.
  unfold Key.detectKey.
  destruct (Z.of_nat (length audio) <? Key.fftSize).
  { split; [left; reflexivity|]. split; [left; reflexivity|]. split; reflexivity. }
  unfold Key.findBestKey.
  set (pcd := Key.normalize _).
  assert (H : best_ok (fold_left (Key.root_step pcd) (seq 0 12) (F32.of_Z (-1), "C"%string, "major"%string))).
  { apply fold_left_preserves.
    - intros b r Hb. apply root_step_ok; exact Hb.
    - split; [apply of_Z_not_nan|]. split; [left; reflexivity|left; reflexivity]. }
  destruct (fold_left _ _ _) as [[m k] md]. destruct H as (Hm & Hk & Hmd).
  split; [exact Hk|]. split; [exact Hmd|].
  apply jlimit_unit, div_two_not_nan, add_one_not_nan, Hm.
Qed.

(** ** The lag search *)
Lemma f32_lt_irrefl (a : f32) : F32.lt a a = false.
Proof.
  destruct (F32.is_nan a) eqn:Ha; [destruct a; try discriminate; reflexivity|].
  destruct (F32.lt a a) eqn:E; [|reflexivity].
  apply (lt_fkey a a Ha Ha) in E. exfalso; exact (lexlt_irrefl _ E).
Qed.

Lemma f32_lt_asym (a b : f32) : F32.lt a b = true -> F32.lt b a = false.
Proof.
  intros H. pose proof (lt_not_nan_l _ _ H) as Ha. pose proof (lt_not_nan_r _ _ H) as Hb.
  destruct (F32.lt b a) eqn:E; [|reflexivity].
  apply (lt_fkey a b Ha Hb) in H. apply (lt_fkey b a Hb Ha) in E.
  exfalso; exact (lexlt_irrefl _ (lexlt_trans _ _ _ H E)).
Qed.

Lemma lt_nan_r (a b : f32) : F32.is_nan b = true -> F32.lt a b = false.
Proof.
  intros H. destruct (F32.lt a b) eqn:E; [|reflexivity].
  rewrite (lt_not_nan_r _ _ E) in H. discriminate.
Qed.

Section LagSearch.
Variable f : Z -> f32.
Variable lo : Z.

Lemma below_acc (acc : f32) (c : f32) (x : f32) :
  F32.is_nan acc = false -> F32.lt acc c = true -> F32.lt acc x = false ->
  F32.lt x c = true \/ F32.is_nan x = true.
Proof.
  intros Ha Hc Hx. destruct (F32.is_nan x) eqn:En; [right; reflexivity|left].
  apply (f32_le_lt_trans x acc c En Ha (lt_not_nan_r _ _ Hc)); [|exact Hc].
  apply f32_not_lt_le; assumption.
Qed.

Lemma lag_inv_step (top : Z) (acc : f32 * Z) :
  lo <= top -> lag_inv f lo top acc -> lag_inv f lo (top + 1) (lag_step f acc top).
Proof.
  intros Htop (HA & HB & HC). unfold lag_step.
  destruct (F32.lt (fst acc) (f top)) eqn:E.
  - pose proof (lt_not_nan_r _ _ E) as Hc.
    split; [exact Hc|]. cbn [fst snd]. split.
    + intros l Hl. destruct (Z.eq_dec l top) as [->|Hne]; [apply f32_lt_irrefl|].
      destruct (below_acc (fst acc) (f top) (f l) HA E (HB l ltac:(lia))) as [H|H].
      * apply f32_lt_asym; exact H.
      * apply lt_nan_r; exact H.
    + right. split; [lia|]. split; [reflexivity|]. split.
      * destruct HC as [[-> _]|(_ & _ & Hz & _)]; [exact E|].
        exact (f32_lt_trans _ _ _ (eq_refl : F32.is_nan F32.zero = false) HA Hc Hz E).
      * intros l Hl. exact (below_acc (fst acc) (f top) (f l) HA E (HB l ltac:(lia))).
  - split; [exact HA|]. split.
    + intros l Hl. destruct (Z.eq_dec l top) as [->|Hne]; [exact E|]. apply HB; lia.
    + destruct HC as [[Ha Hz]|(H1 & H2 & H3 & H4)].
      * left. split; [exact Ha|]. intros l Hl.
        destruct (Z.eq_dec l top) as [->|Hne]; [rewrite Ha in E; exact E|]. apply Hz; lia.
      * right. split; [lia|]. auto.
Qed.

Lemma zseq_S (k : nat) : zseq lo (Z.of_nat (S k)) = zseq lo (Z.of_nat k) ++ [lo + Z.of_nat k].
Proof.
  unfold zseq. rewrite !Nat2Z.id, seq_S, map_app. reflexivity.
Qed.

Lemma lag_fold_inv (k : nat) :
  lag_inv f lo (lo + Z.of_nat k) (fold_left (lag_step f) (zseq lo (Z.of_nat k)) (F32.zero, 0)).
Proof.
  induction k as [|k IH].
  - split; [reflexivity|]. split; [intros l Hl; lia|]. left. split; [reflexivity|intros l Hl; lia].
  - rewrite zseq_S, fold_left_app. cbn [fold_left].
    replace (lo + Z.of_nat (S k)) with (lo + Z.of_nat k + 1) by lia.
    apply lag_inv_step; [lia|exact IH].
Qed.
End LagSearch.

(** The lag loop of [estimateTempoFromOnsets] finds the first lag of maximal
    autocorrelation among the lags whose autocorrelation is a positive number:
    no lag of the range scores above the result; the result is either [(0, 0)],
    when no lag scores above 0, or a lag of the range with a positive score that
    every earlier lag scores strictly below (or NaN). *)
Theorem lag_search_first_max (onset : list f32) (lo hi : Z) :
  let r := BPM.lag_search onset lo hi in
  (forall l, lo <= l < hi -> F32.lt (fst r) (BPM.autocorrelate onset l) = false) /\
  ((r = (F32.zero, 0) /\ forall l, lo <= l < hi -> F32.lt F32.zero (BPM.autocorrelate onset l) = false) \/
   (lo <= snd r < hi /\ fst r = BPM.autocorrelate onset (snd r) /\ F32.lt F32.zero (fst r) = true /\
    forall l, lo <= l < snd r ->
      F32.lt (BPM.autocorrelate onset l) (fst r) = true \/
      F32.is_nan (BPM.autocorrelate onset l) = true)).
Proof.
  cbv zeta. unfold BPM.lag_search.
  change (fun acc lag => if F32.lt (fst acc) (BPM.autocorrelate onset lag)
                         then (BPM.autocorrelate onset lag, lag) else acc)
    with (lag_step (BPM.autocorrelate onset)).
  destruct (Z_lt_le_dec hi lo) as [Hlt|Hle].
  - unfold zseq. replace (Z.to_nat (hi - lo)) with 0%nat by lia. cbn [seq map fold_left fst snd].
    split; [intros l Hl; lia|]. left. split; [reflexivity|intros l Hl; lia].
  - pose proof (lag_fold_inv (BPM.autocorrelate onset) lo (Z.to_nat (hi - lo))) as H.
    rewrite Z2Nat.id in H by lia. replace (lo + (hi - lo)) with hi in H by lia.
    destruct H as (_ & HB & HC). split; [exact HB|exact HC].
Qed.

(** ** What the detectors read of their buffer *)
Lemma nth_firstn_eq {A : Type} (k j : nat) (a b : list A) (d : A) :
  firstn k a = firstn k b -> (j < k)%nat -> (k <= length a)%nat -> (k <= length b)%nat ->
  nth j a d = nth j b d.
Proof.
  intros H Hj Ha Hb.
  rewrite <- (firstn_skipn k a), <- (firstn_skipn k b).
  rewrite !app_nth1 by (rewrite firstn_length_le; assumption).
  rewrite H. reflexivity.
Qed.

Lemma read_prefix (a b : list f32) (j : Z) :
  length a = length b ->
  firstn (length a - 512) a = firstn (length a - 512) b ->
  0 <= j < Z.of_nat (length a) - 512 -> read a j = read b j.
Proof.
  intros Hl Hf Hj. unfold read.
  apply (nth_firstn_eq (length a - 512)); [exact Hf|lia|lia|lia].
Qed.

(** [detectKey] never reads the last 512 samples of its buffer: two buffers of
    the same length that agree except on those samples give the same key, mode
    and confidence. The frames start at multiples of the hop size and end
    at least one hop before the end of the buffer. *)
Theorem detectKey_ignores_last_hop (M : MathEnv) (d : Key.KeyDetector) (a b : list f32) :
  length a = length b ->
  firstn (length a - 512) a = firstn (length a - 512) b ->
  Key.detectKey M d a = Key.detectKey M d b.
Proof.
  intros Hl Hf. unfold Key.detectKey. rewrite <- Hl.
  destruct (Z.of_nat (length a) <? Key.fftSize) eqn:Es; [reflexivity|].
  apply Z.ltb_ge in Es. unfold Key.fftSize in Es.
  f_equal. f_equal. unfold Key.calculateChromagram. rewrite <- Hl.
  apply fold_left_ext_in. intros c frame Hfr. apply in_zseq in Hfr.
  unfold Key.numFrames, Key.fftSize, Key.hopSize in Hfr.
  rewrite Z.quot_div_nonneg in Hfr by lia.
  pose proof (Z.mul_div_le (Z.of_nat (length a) - 4096) 512 ltac:(lia)) as Hd.
  f_equal. apply f_equal. apply map_ext_in. intros i Hi. apply in_zseq in Hi.
  unfold Key.fftSize in Hi. cbv zeta.
  f_equal. apply read_prefix; [exact Hl|exact Hf|]. unfold Key.hopSize. lia.
Qed.

Lemma onset_frames_prefix (M : MathEnv) (a b : list f32) (nf : Z) :
  (forall j, 0 <= j < nf * 512 + 1536 -> read a j = read b j) ->
  forall k frame prev, 0 <= frame -> frame + Z.of_nat k <= nf ->
  BPM.onset_frames M a frame k prev = BPM.onset_frames M b frame k prev.
Proof.
  intros Hr. induction k as [|k IH]; intros frame prev Hf Hk; [reflexivity|].
  cbn [BPM.onset_frames].
  assert (Hw : BPM.applyHannWindow M a (frame * BPM.hopSize) BPM.fftSize
               = BPM.applyHannWindow M b (frame * BPM.hopSize) BPM.fftSize).
  { unfold BPM.applyHannWindow. apply map_ext_in. intros i Hi. apply in_zseq in Hi.
    unfold BPM.fftSize in Hi. cbv zeta. f_equal. apply Hr. unfold BPM.hopSize. lia. }
  rewrite Hw. f_equal. apply IH; lia.
Qed.

(** [detectBPM] never reads the last 512 samples of its buffer either: the bpm
    and the detector state after the call are the same for two buffers of the
    same length that agree except on those samples. *)
Theorem detectBPM_ignores_last_hop (M : MathEnv) (d : BPM.BPMDetector) (a b : list f32) :
  length a = length b ->
  firstn (length a - 512) a = firstn (length a - 512) b ->
  BPM.detectBPM M d a = BPM.detectBPM M d b.
Proof.
  intros Hl Hf. unfold BPM.detectBPM. rewrite <- Hl.
  destruct (Z.of_nat (length a) <? BPM.fftSize) eqn:Es; [reflexivity|].
  apply Z.ltb_ge in Es. unfold BPM.fftSize in Es.
  replace (BPM.calculateOnsetStrength M b) with (BPM.calculateOnsetStrength M a); [reflexivity|].
  unfold BPM.calculateOnsetStrength. rewrite <- Hl.
  set (nf := BPM.numFrames (Z.of_nat (length a))).
  assert (Hnf : 0 <= nf /\ nf * 512 <= Z.of_nat (length a) - 2048).
  { unfold nf, BPM.numFrames, BPM.fftSize, BPM.hopSize.
    rewrite Z.quot_div_nonneg by lia.
    pose proof (Z.mul_div_le (Z.of_nat (length a) - 2048) 512 ltac:(lia)).
    split; [apply Z.div_pos; lia|lia]. }
  apply (onset_frames_prefix M a b nf); [|lia|lia].
  intros j Hj. apply read_prefix; [exact Hl|exact Hf|lia].
Qed.

(** * The ring buffer of [processBlock] *)
Lemma length_set_at {A : Type} (l : list A) : forall k x, length (set_at l k x) = length l.
Proof. induction l as [|h t IH]; intros [|k] x; simpl; auto. Qed.

Lemma nth_set_at_same {A : Type} (l : list A) : forall k x d,
  (k < length l)%nat -> nth k (set_at l k x) d = x.
Proof. induction l as [|h t IH]; intros [|k] x d Hk; simpl in *; try lia; auto with arith. Qed.

Lemma nth_set_at_other {A : Type} (l : list A) : forall k j x d,
  j <> k -> nth j (set_at l k x) d = nth j l d.
Proof.
  induction l as [|h t IH]; intros [|k] [|j] x d Hjk; simpl; auto; try lia.
Qed.

Lemma mod_distinct (x i j s : Z) : 0 < s -> 0 <= i < j -> j - i < s -> (x + i) mod s <> (x + j) mod s.
Proof.
  intros Hs Hij Hji E.
  pose proof (Z.div_mod (x + i) s ltac:(lia)) as H1.
  pose proof (Z.div_mod (x + j) s ltac:(lia)) as H2.
  rewrite E in H1.
  assert (Hq : s * ((x + j) / s - (x + i) / s) = j - i) by (rewrite Z.mul_sub_distr_l; lia).
  destruct (Z_le_gt_dec ((x + j) / s - (x + i) / s) 0) as [H|H]; nia.
Qed.

Section RingChannel.
Variable size : Z.
Hypothesis Hsize : 0 < size.

Lemma copy_channel_spec (src : list f32) (k : nat) (dst : list f32) (pos : Z) :
  0 <= pos < size -> length dst = Z.to_nat size -> (Z.of_nat k <= size) ->
  let '(dst', pos') := copy_channel size src (Z.of_nat k) (dst, pos) in
  pos' = (pos + Z.of_nat k) mod size /\ length dst' = Z.to_nat size /\
  (forall i, 0 <= i < Z.of_nat k -> nth (Z.to_nat ((pos + i) mod size)) dst' F32.zero = read src i) /\
  (forall j, (forall i, 0 <= i < Z.of_nat k -> j <> Z.to_nat ((pos + i) mod size)) ->
     nth j dst' F32.zero = nth j dst F32.zero).
Proof.
  intros Hpos Hlen. induction k as [|k IH]; intros Hk.
  - cbn. split; [rewrite Z.add_0_r, Z.mod_small by lia; reflexivity|]. split; [exact Hlen|].
    split; [intros i Hi; lia|]. auto.
  - unfold copy_channel. rewrite (zseq_S 0 k), fold_left_app. fold (copy_channel size src (Z.of_nat k) (dst, pos)).
    specialize (IH ltac:(lia)).
    destruct (copy_channel size src (Z.of_nat k) (dst, pos)) as [d1 p1].
    destruct IH as (Hp & Hl & Hw & Ho). cbn [fold_left].
    assert (Hp1 : 0 <= p1 < size) by (rewrite Hp; apply Z.mod_pos_bound; lia).
    split.
    { rewrite Z.rem_mod_nonneg by lia. rewrite Hp, Z.add_mod_idemp_l by lia. f_equal. lia. }
    split; [rewrite length_set_at; exact Hl|]. split.
    + intros i Hi. destruct (Z.eq_dec i (Z.of_nat k)) as [->|Hne].
      * replace (0 + Z.of_nat k) with (Z.of_nat k) by lia. rewrite <- Hp.
        apply nth_set_at_same. rewrite Hl. lia.
      * rewrite nth_set_at_other.
        -- apply Hw. lia.
        -- rewrite Hp. intros E. apply Z2Nat.inj in E;
             [|apply Z.mod_pos_bound; lia|apply Z.mod_pos_bound; lia].
           exact (mod_distinct pos i (Z.of_nat k) size Hsize ltac:(lia) ltac:(lia) E).
    + intros j Hj. rewrite nth_set_at_other.
      * apply Ho. intros i Hi. apply Hj. lia.
      * rewrite Hp. apply Hj. lia.
Qed.
End RingChannel.

Lemma Forall_set_at {A : Type} (P : A -> Prop) (l : list A) : forall k x,
  P x -> Forall P l -> Forall P (set_at l k x).
Proof.
  induction l as [|h t IH]; intros [|k] x Hx Hl; simpl; auto.
  - inversion Hl; subst; constructor; auto.
  - inversion Hl; subst; constructor; auto.
Qed.

Section RingChannels.
Variable size : Z.
Hypothesis Hsize : 0 < size.
Variable buffer : list (list f32).
Variable n : Z.
Hypothesis Hn : 0 <= n <= size.
Variable rows0 : list (list f32).
Variable pos0 : Z.
Hypothesis Hpos0 : 0 <= pos0 < size.
Hypothesis Hrows0 : Forall (fun row => length row = Z.to_nat size) rows0.

Lemma ring_fold (k : nat) :
  Z.of_nat k <= Z.of_nat (length rows0) ->
  ring_inv size buffer n rows0 pos0 (Z.of_nat k) (fold_left (ring_step size buffer n) (zseq 0 (Z.of_nat k)) (rows0, pos0)).
Proof.
  induction k as [|k IH]; intros Hk.
  - cbn. split; [rewrite Z.add_0_r, Z.mod_small by lia; reflexivity|].
    split; [reflexivity|]. split; [exact Hrows0|]. split; [intros c i Hc; lia|auto].
  - rewrite zseq_S, fold_left_app. cbn [fold_left].
    specialize (IH ltac:(lia)).
    destruct (fold_left (ring_step size buffer n) (zseq 0 (Z.of_nat k)) (rows0, pos0)) as [rows pos].
    destruct IH as (Hp & Hl & Hf & Hw & Ho).
    unfold ring_step. replace (0 + Z.of_nat k) with (Z.of_nat k) by lia. rewrite Nat2Z.id.
    assert (Hpr : 0 <= pos < size) by (rewrite Hp; apply Z.mod_pos_bound; lia).
    assert (Hrow : length (nth k rows []) = Z.to_nat size).
    { rewrite Forall_forall in Hf. apply Hf, nth_In. lia. }
    pose proof (copy_channel_spec size Hsize (nth k buffer []) (Z.to_nat n)
                  (nth k rows []) pos Hpr Hrow ltac:(lia)) as Hc.
    rewrite Z2Nat.id in Hc by lia.
    destruct (copy_channel size (nth k buffer []) n (nth k rows [], pos)) as [row pos'].
    destruct Hc as (Hp' & Hl' & Hw' & _).
    split.
    { rewrite Hp', Hp, Z.add_mod_idemp_l by lia. f_equal. lia. }
    split; [rewrite length_set_at; exact Hl|].
    split; [apply Forall_set_at; assumption|].
    split.
    + intros c i Hc Hi. destruct (Z.eq_dec c (Z.of_nat k)) as [->|Hne].
      * rewrite Nat2Z.id, nth_set_at_same by lia.
        rewrite <- (Hw' i Hi). rewrite Hp, Z.add_mod_idemp_l by lia. reflexivity.
      * rewrite nth_set_at_other by lia. apply Hw; lia.
    + intros c Hc. rewrite nth_set_at_other by lia. apply Ho. lia.
Qed.
End RingChannels.

(** [processBlock] writes the incoming block into the analysis buffer as a ring:
    with a write position inside the buffer and at most [analysisBufferSize]
    samples per channel, channel [c] lands in row [c] at the positions
    [pos + c * n .. pos + c * n + n - 1] modulo the size (one write position for
    all the channels), the write position advances by [numChannels * n] modulo
    the size, the rows keep their length, and the rows of the channels the block
    does not have are left unchanged. *)
Theorem processBlock_ring_write (buffer : list (list f32)) (n : Z) (a : Analysis) :
  a.(analyzing) = true -> 0 < a.(analysisBufferSize) ->
  0 <= a.(analysisBufferWritePos) < a.(analysisBufferSize) ->
  Forall (fun row => length row = Z.to_nat a.(analysisBufferSize)) a.(analysisBuffer) ->
  0 <= n <= a.(analysisBufferSize) ->
  let C := Z.min (Z.of_nat (length buffer)) (Z.of_nat (length a.(analysisBuffer))) in
  let a' := processBlock_copy buffer n a in
  a'.(analysisBufferWritePos) = (a.(analysisBufferWritePos) + C * n) mod a.(analysisBufferSize) /\
  a'.(analysisBufferSize) = a.(analysisBufferSize) /\
  length a'.(analysisBuffer) = length a.(analysisBuffer) /\
  Forall (fun row => length row = Z.to_nat a.(analysisBufferSize)) a'.(analysisBuffer) /\
  (forall c i, 0 <= c < C -> 0 <= i < n ->
     nth (Z.to_nat ((a.(analysisBufferWritePos) + c * n + i) mod a.(analysisBufferSize)))
         (nth (Z.to_nat c) a'.(analysisBuffer) []) F32.zero
       = read (nth (Z.to_nat c) buffer []) i) /\
  (forall c, C <= c -> nth (Z.to_nat c) a'.(analysisBuffer) [] = nth (Z.to_nat c) a.(analysisBuffer) []).
Proof.
  destruct a as [rows0 pos0 size an]; cbn [analyzing analysisBufferSize analysisBufferWritePos analysisBuffer].
  intros Han Hs Hp Hr Hn. cbv zeta. unfold processBlock_copy. cbn [analyzing analysisBufferSize analysisBufferWritePos analysisBuffer].
  rewrite Han.
  set (C := Z.min (Z.of_nat (length buffer)) (Z.of_nat (length rows0))).
  change (fun (st : list (list f32) * Z) channel => _) with (ring_step size buffer n).
  pose proof (ring_fold size Hs buffer n Hn rows0 pos0 Hp Hr (Z.to_nat C) ltac:(lia)) as H.
  rewrite Z2Nat.id in H by lia.
  destruct (fold_left (ring_step size buffer n) (zseq 0 C) (rows0, pos0)) as [rows pos].
  destruct H as (H1 & H2 & H3 & H4 & H5). cbn.
  split; [exact H1|]. split; [reflexivity|]. split; [exact H2|]. split; [exact H3|].
  split; [exact H4|exact H5].
Qed.

(** [detectKey_ignores_last_hop] on [hop_a] and [hop_b]. *)
Lemma detectKey_ignores_last_hop_witness :
  length hop_a = length hop_b /\
  firstn (length hop_a - 512) hop_a = firstn (length hop_a - 512) hop_b /\
  Key.detectKey probe_env Key.initial hop_a = Key.detectKey probe_env Key.initial hop_b.
Proof.
  assert (Hl : length hop_a = length hop_b) by (vm_compute; reflexivity).
  assert (Hf : firstn (length hop_a - 512) hop_a = firstn (length hop_a - 512) hop_b)
    by (vm_compute; reflexivity).
  split; [exact Hl|]. split; [exact Hf|].
  exact (detectKey_ignores_last_hop probe_env Key.initial hop_a hop_b Hl Hf).
Defined.

(** [detectBPM_ignores_last_hop] on [hop_a] and [hop_b]. *)
Lemma detectBPM_ignores_last_hop_witness :
  length hop_a = length hop_b /\
  firstn (length hop_a - 512) hop_a = firstn (length hop_a - 512) hop_b /\
  BPM.detectBPM probe_env BPM.initial hop_a = BPM.detectBPM probe_env BPM.initial hop_b.
Proof.
  assert (Hl : length hop_a = length hop_b) by (vm_compute; reflexivity).
  assert (Hf : firstn (length hop_a - 512) hop_a = firstn (length hop_a - 512) hop_b)
    by (vm_compute; reflexivity).
  split; [exact Hl|]. split; [exact Hf|].
  exact (detectBPM_ignores_last_hop probe_env BPM.initial hop_a hop_b Hl Hf).
Defined.

(** [processBlock_ring_write] on [ring_state] and [ring_block]: the two
    channels go to positions 3, 0 and 1, 2; the write position returns to 3. *)
Lemma processBlock_ring_write_witness :
  (processBlock_copy ring_block 2 ring_state).(analysisBufferWritePos) = 3 /\
  (processBlock_copy ring_block 2 ring_state).(analysisBuffer)
    = [[F32.one; F32.zero; F32.zero; F32.one]; [F32.zero; F32.one; F32.zero; F32.zero]].
Proof.
  destruct (processBlock_ring_write ring_block 2 ring_state eq_refl
              ltac:(vm_compute; reflexivity) ltac:(split; vm_compute; congruence)
              ltac:(repeat constructor) ltac:(split; vm_compute; congruence)) as (H1 & _).
  split; [rewrite H1; reflexivity | vm_compute; reflexivity].
Defined.

(** * The chromagram of a loud click

    The impulse of [loud_click] stays on the even path of every level of the
    radix-2 FFT of [RefMath]; every output entry is [(+/-loudA, +/-0)], whose
    squared magnitude overflows. *)

Lemma windows_fin : forallb (fun i => fin (key_window RefMath.env i)) (zseq 0 4096) = true.
Proof. vm_compute. reflexivity. Qed.

Lemma twiddles_fin :
  forallb (fun k => forallb (fun j => fin (fst (RefMath.twiddle (2 ^ k) j))
                                      && fin (snd (RefMath.twiddle (2 ^ k) j)))
                            (zseq 0 (2 ^ k / 2))) (zseq 1 12) = true.
Proof. vm_compute. reflexivity. Qed.

Lemma zseq_in (x lo n : Z) : lo <= x < lo + n -> In x (zseq lo n).
Proof.
  intros H. unfold zseq. apply in_map_iff. exists (Z.to_nat (x - lo)).
  split; [lia|]. apply in_seq. lia.
Qed.

Lemma twiddle_fin (k : nat) (j : Z) : (1 <= k <= 12)%nat -> 0 <= j < 2 ^ Z.of_nat k / 2 ->
  fin (fst (RefMath.twiddle (2 ^ Z.of_nat k) j)) = true /\
  fin (snd (RefMath.twiddle (2 ^ Z.of_nat k) j)) = true.
Proof.
  intros Hk Hj. pose proof twiddles_fin as H.
  rewrite forallb_forall in H.
  assert (Hin : In (Z.of_nat k) (zseq 1 12)) by (apply zseq_in; lia).
  specialize (H _ Hin). rewrite forallb_forall in H.
  apply andb_true_iff, H, zseq_in. lia.
Qed.

Lemma split_eo_cons {X : Type} (a : X) (t : list X) :
  RefMath.split_eo (a :: t) = (a :: snd (RefMath.split_eo t), fst (RefMath.split_eo t)).
Proof. simpl. destruct (RefMath.split_eo t); reflexivity. Qed.

Lemma split_eo_nth {X : Type} (l : list X) (d : X) : forall i,
  nth i (fst (RefMath.split_eo l)) d = nth (2 * i) l d /\
  nth i (snd (RefMath.split_eo l)) d = nth (2 * i + 1) l d.
Proof.
  induction l as [|a t IH]; intros i.
  - destruct i; split; reflexivity.
  - rewrite split_eo_cons. cbn [fst snd]. split.
    + destruct i as [|i]; [reflexivity|]. cbn [nth].
      rewrite (proj2 (IH i)). replace (2 * S i)%nat with (S (2 * i + 1)) by lia. reflexivity.
    + rewrite (proj1 (IH i)). replace (2 * i + 1)%nat with (S (2 * i)) by lia. reflexivity.
Qed.

Lemma split_eo_length {X : Type} (l : list X) :
  (length (fst (RefMath.split_eo l)) + length (snd (RefMath.split_eo l)) = length l /\
   length (snd (RefMath.split_eo l)) <= length (fst (RefMath.split_eo l)) <= S (length (snd (RefMath.split_eo l))))%nat.
Proof.
  induction l as [|a t IH]; [simpl; lia|].
  rewrite split_eo_cons. cbn [fst snd length]. lia.
Qed.

Lemma split_eo_Forall {X : Type} (P : X -> Prop) (l : list X) :
  Forall P l -> Forall P (fst (RefMath.split_eo l)) /\ Forall P (snd (RefMath.split_eo l)).
Proof.
  induction l as [|a t IH]; intros H; [split; constructor|].
  inversion H; subst. rewrite split_eo_cons. cbn [fst snd].
  destruct (IH H3). split; [constructor|]; assumption.
Qed.

Lemma mul_fin_zero (a b : f32) : fin a = true -> is_zero b = true -> is_zero (F32.mul a b) = true.
Proof. destruct a as [|[]| |], b as [| | |]; try discriminate; reflexivity. Qed.

Lemma add_zero_zero (a b : f32) : is_zero a = true -> is_zero b = true -> is_zero (F32.add a b) = true.
Proof. destruct a as [[]| | |], b as [[]| | |]; try discriminate; reflexivity. Qed.

Lemma sub_zero_zero (a b : f32) : is_zero a = true -> is_zero b = true -> is_zero (F32.sub a b) = true.
Proof. destruct a as [[]| | |], b as [[]| | |]; try discriminate; reflexivity. Qed.

Lemma cmul_zc (t b : f32 * f32) : fin (fst t) = true -> fin (snd t) = true -> zc b = true ->
  zc (RefMath.cmul t b) = true.
Proof.
  destruct t as [t1 t2], b as [b1 b2]. unfold zc, RefMath.cmul. cbn [fst snd].
  intros H1 H2 Hb. apply andb_true_iff in Hb as [Hb1 Hb2].
  rewrite (sub_zero_zero _ _ (mul_fin_zero _ _ H1 Hb1) (mul_fin_zero _ _ H2 Hb2)).
  rewrite (add_zero_zero _ _ (mul_fin_zero _ _ H1 Hb2) (mul_fin_zero _ _ H2 Hb1)).
  reflexivity.
Qed.

Lemma in_twiddle_range (n : Z) (O : list (f32 * f32)) p :
  In p (combine (zseq 0 (n / 2)) O) -> 0 <= fst p < n / 2.
Proof.
  destruct p as [j o]. intros H. apply in_combine_l, in_zseq in H. cbn [fst]. lia.
Qed.

Lemma twiddle_map_zc (k : nat) (O : list (f32 * f32)) : (S k <= 12)%nat ->
  Forall (fun p => zc p = true) O ->
  Forall (fun p => zc p = true)
    (map (fun p => RefMath.cmul (RefMath.twiddle (2 ^ Z.of_nat (S k)) (fst p)) (snd p))
         (combine (zseq 0 (2 ^ Z.of_nat (S k) / 2)) O)).
Proof.
  intros Hk HO. apply Forall_forall. intros q Hq. apply in_map_iff in Hq as [p [<- Hp]].
  pose proof (in_twiddle_range _ _ _ Hp) as Hr.
  destruct (twiddle_fin (S k) (fst p) ltac:(lia) Hr) as [F1 F2].
  apply cmul_zc; [exact F1|exact F2|].
  destruct p as [j o]. apply in_combine_r in Hp. rewrite Forall_forall in HO. exact (HO _ Hp).
Qed.

Lemma butterfly_Forall (P Q : f32 * f32 -> Prop) (E T : list (f32 * f32)) :
  (forall e t, P e -> zc t = true -> Q (RefMath.cadd e t) /\ Q (RefMath.csub e t)) ->
  Forall P E -> Forall (fun p => zc p = true) T ->
  Forall Q (map (fun p => RefMath.cadd (fst p) (snd p)) (combine E T)
            ++ map (fun p => RefMath.csub (fst p) (snd p)) (combine E T)).
Proof.
  intros H HE HT. rewrite Forall_forall in HE, HT.
  apply Forall_app. split; apply Forall_forall; intros q Hq;
    apply in_map_iff in Hq as [[e t] [<- Hp]];
    pose proof (in_combine_l _ _ _ _ Hp) as Hin1; pose proof (in_combine_r _ _ _ _ Hp) as Hin2;
    destruct (H e t (HE _ Hin1) (HT _ Hin2)); assumption.
Qed.

Lemma fft_zero (k : nat) : (k <= 12)%nat -> forall xs,
  Forall (fun p => zc p = true) xs -> Forall (fun p => zc p = true) (RefMath.fft_rec k xs).
Proof.
  induction k as [|k IH]; intros Hk xs Hx; [exact Hx|].
  cbn [RefMath.fft_rec].
  destruct (split_eo_Forall _ xs Hx) as [He Ho].
  destruct (RefMath.split_eo xs) as [ev od]. cbn [fst snd] in He, Ho.
  apply butterfly_Forall with (P := fun p => zc p = true).
  - intros [e1 e2] [t1 t2] HE HT. unfold zc in *. cbn [fst snd RefMath.cadd RefMath.csub] in *.
    apply andb_true_iff in HE as [? ?]. apply andb_true_iff in HT as [? ?].
    split; apply andb_true_iff; split;
      first [apply add_zero_zero; assumption | apply sub_zero_zero; assumption].
  - exact (IH ltac:(lia) ev He).
  - exact (twiddle_map_zc k _ Hk (IH ltac:(lia) od Ho)).
Qed.

Lemma pow2_Z (k : nat) : Z.to_nat (2 ^ Z.of_nat (S k) / 2) = (2 ^ k)%nat.
Proof.
  rewrite Nat2Z.inj_succ, Z.pow_succ_r by lia.
  rewrite Z.mul_comm, Z.div_mul by lia.
  rewrite <- (Nat2Z.id (2 ^ k)), Nat2Z.inj_pow. reflexivity.
Qed.

Lemma zseq_length (lo n : Z) : length (zseq lo n) = Z.to_nat n.
Proof. unfold zseq. rewrite length_map, length_seq. reflexivity. Qed.

Lemma fft_length (k : nat) : forall xs, length xs = (2 ^ k)%nat ->
  length (RefMath.fft_rec k xs) = (2 ^ k)%nat.
Proof.
  induction k as [|k IH]; intros xs Hx; [exact Hx|].
  cbn [RefMath.fft_rec].
  pose proof (split_eo_length xs) as Hl.
  destruct (RefMath.split_eo xs) as [ev od]. cbn [fst snd] in Hl.
  rewrite Nat.pow_succ_r' in Hx.
  assert (He : length ev = (2 ^ k)%nat) by lia.
  assert (Ho : length od = (2 ^ k)%nat) by lia.
  rewrite length_app, !length_map, !length_combine, length_map, length_combine,
    zseq_length, pow2_Z, (IH ev He), (IH od Ho), Nat.min_id, Nat.min_id, Nat.pow_succ_r'.
  lia.
Qed.

Lemma peak_butterfly (e t : f32 * f32) : loud_peak e = true -> zc t = true ->
  loud_peak (RefMath.cadd e t) = true /\ loud_peak (RefMath.csub e t) = true.
Proof.
  destruct e as [[| | |s m x] e2], t as [t1 t2]; unfold loud_peak, zc; cbn [fst snd];
    try discriminate.
  intros H1 H2. apply andb_true_iff in H1 as [Hm He2]. apply andb_true_iff in H2 as [Ht1 Ht2].
  destruct t1 as [st1| | |]; try discriminate. destruct t2 as [st2| | |]; try discriminate.
  destruct e2 as [se2| | |]; try discriminate.
  apply andb_true_iff in Hm as [Hm Hx]. apply Pos.eqb_eq in Hm. apply Z.eqb_eq in Hx. subst.
  destruct s, st1, st2, se2; split; reflexivity.
Qed.

Lemma fft_impulse (k : nat) : (1 <= k <= 12)%nat -> forall xs,
  length xs = (2 ^ k)%nat ->
  nth (2 ^ (k - 1)) xs (F32.zero, F32.zero) = (loudA, F32.zero) ->
  (forall i, (i < 2 ^ k)%nat -> i <> (2 ^ (k - 1))%nat -> zc (nth i xs (F32.zero, F32.zero)) = true) ->
  Forall (fun p => loud_peak p = true) (RefMath.fft_rec k xs).
Proof.
  induction k as [|k IH]; intros Hk xs Hl Hp Hz; [lia|].
  destruct k as [|k'].
  - destruct xs as [|x0 [|x1 [|x2 t]]]; try discriminate.
    simpl in Hp. subst x1.
    pose proof (Hz 0%nat ltac:(simpl; lia) ltac:(simpl; lia)) as H0. cbn [nth] in H0.
    destruct x0 as [[s1| | |] [s2| | |]]; try discriminate.
    destruct s1, s2; vm_compute; repeat constructor.
  - set (k := S k') in *.
    cbn [RefMath.fft_rec].
    pose proof (split_eo_length xs) as HL.
    pose proof (split_eo_nth xs (F32.zero, F32.zero)) as HN.
    destruct (RefMath.split_eo xs) as [ev od]. cbn [fst snd] in HL, HN.
    assert (Hpow : (2 ^ S k = 2 * 2 ^ k)%nat) by apply Nat.pow_succ_r'.
    assert (Hpk : (2 ^ k = 2 * 2 ^ (k - 1))%nat).
    { unfold k. rewrite Nat.pow_succ_r'. replace (S k' - 1)%nat with k' by lia. reflexivity. }
    assert (He : length ev = (2 ^ k)%nat) by lia.
    assert (Ho : length od = (2 ^ k)%nat) by lia.
    assert (Hk1 : (S k - 1 = k)%nat) by lia. rewrite Hk1 in Hp, Hz.
    apply butterfly_Forall with (P := fun p => loud_peak p = true).
    + intros e t H1 H2. exact (peak_butterfly e t H1 H2).
    + apply IH; [lia|exact He| |].
      * rewrite (proj1 (HN _)). rewrite <- Hpk. exact Hp.
      * intros i Hi Hne. rewrite (proj1 (HN i)). apply Hz; lia.
    + apply twiddle_map_zc; [lia|]. apply fft_zero; [lia|].
      apply Forall_forall. intros q Hq. destruct (In_nth _ _ (F32.zero, F32.zero) Hq) as [i [Hi <-]].
      rewrite (proj2 (HN i)). apply Hz; lia.
Qed.

Lemma nth_map_in {A B : Type} (f : A -> B) (l : list A) (d : B) (d' : A) : forall i,
  (i < length l)%nat -> nth i (map f l) d = f (nth i l d').
Proof.
  induction l as [|a t IH]; intros [|i] H; simpl in *; try lia; auto.
  apply IH. lia.
Qed.

Lemma nth_zseq (i : nat) (lo n : Z) (d : Z) : (i < Z.to_nat n)%nat -> nth i (zseq lo n) d = lo + Z.of_nat i.
Proof.
  intros H. unfold zseq. rewrite (nth_map_in _ _ _ 0%nat) by (rewrite length_seq; exact H).
  rewrite seq_nth by exact H. reflexivity.
Qed.

Lemma read_loud_click (j : Z) : 0 <= j < 4608 ->
  read loud_click j = if j =? 2048 then F32.of_Z (2 ^ 100) else F32.zero.
Proof.
  intros Hj. unfold read, loud_click.
  rewrite (nth_map_in _ _ _ 0) by (rewrite zseq_length; lia).
  rewrite nth_zseq by lia. rewrite Z2Nat.id by lia. reflexivity.
Qed.

Lemma loud_frame_length : length loud_frame = 4096%nat.
Proof. unfold loud_frame, Key.hann_frame. rewrite !length_map, zseq_length. reflexivity. Qed.

Lemma nth_loud_frame (i : nat) : (i < 4096)%nat ->
  nth i loud_frame (F32.zero, F32.zero)
  = (F32.mul (read loud_click (Z.of_nat i)) (key_window RefMath.env (Z.of_nat i)), F32.zero).
Proof.
  intros Hi. unfold loud_frame.
  change (F32.zero, F32.zero) with ((fun x : f32 => (x, F32.zero)) F32.zero).
  rewrite map_nth. f_equal. unfold Key.hann_frame.
  rewrite (nth_map_in _ _ _ 0) by (rewrite zseq_length; exact Hi).
  rewrite nth_zseq by exact Hi. reflexivity.
Qed.

Lemma mul_zero_fin (a b : f32) : is_zero a = true -> fin b = true -> is_zero (F32.mul a b) = true.
Proof. destruct a as [| | |], b as [|[]| |]; try discriminate; reflexivity. Qed.

Lemma loud_fft_peaks : Forall (fun p => loud_peak p = true) (RefMath.fft_rec 12 loud_frame).
Proof.
  apply fft_impulse; [lia|exact loud_frame_length| |].
  - rewrite nth_loud_frame by (simpl; lia). simpl (Z.of_nat _).
    rewrite read_loud_click by lia. vm_compute. reflexivity.
  - intros i Hi Hne. simpl in Hi, Hne. rewrite nth_loud_frame by lia.
    rewrite read_loud_click by lia.
    replace (Z.of_nat i =? 2048) with false by (symmetry; apply Z.eqb_neq; lia).
    unfold zc. cbn [fst snd]. rewrite andb_true_r. apply mul_zero_fin; [reflexivity|].
    pose proof windows_fin as H. rewrite forallb_forall in H. apply H, zseq_in. lia.
Qed.

Lemma magnitude_peak (p : f32 * f32) : loud_peak p = true -> magnitude p = S754_infinity false.
Proof.
  destruct p as [[| | |s m x] [s2| | |]]; unfold loud_peak; cbn [fst snd]; try discriminate;
    try (rewrite andb_false_r; discriminate).
  intros H. apply andb_true_iff in H as [H _]. apply andb_true_iff in H as [Hm Hx].
  apply Pos.eqb_eq in Hm. apply Z.eqb_eq in Hx. subst. destruct s, s2; vm_compute; reflexivity.
Qed.

Lemma loud_frame_bins (c : list f32) :
  Key.frame_bins RefMath.env (F64.of_Z 44100) (RefMath.fft_rec 12 loud_frame) c
  = Key.frame_bins RefMath.env (F64.of_Z 44100) inf_frame c.
Proof.
  unfold Key.frame_bins. apply fold_left_ext_in. intros c' bin Hb.
  apply in_zseq in Hb. change (Key.fftSize / 2 - 1) with 2047 in Hb.
  assert (Hm : magnitude (nth (Z.to_nat bin) (RefMath.fft_rec 12 loud_frame) (F32.zero, F32.zero))
               = magnitude (nth (Z.to_nat bin) inf_frame (F32.zero, F32.zero))).
  { rewrite magnitude_peak.
    - unfold inf_frame. rewrite nth_repeat_lt by lia. vm_compute. reflexivity.
    - pose proof loud_fft_peaks as H. rewrite Forall_forall in H. apply H, nth_In.
      rewrite (fft_length 12 _ loud_frame_length). simpl. lia. }
  cbv beta zeta. rewrite Hm. reflexivity.
Qed.

Lemma loud_click_chromagram :
  Key.calculateChromagram RefMath.env (F64.of_Z 44100) loud_click = repeat (S754_infinity false) 12.
Proof.
  unfold Key.calculateChromagram.
  assert (Hl : Key.numFrames (Z.of_nat (length loud_click)) = 1)
    by (unfold loud_click; rewrite length_map, zseq_length; reflexivity).
  rewrite Hl. change (zseq 0 1) with [0]. cbn [fold_left].
  change (RefMath.env.(fft_perform) 12%nat (Key.hann_frame RefMath.env loud_click (0 * Key.hopSize)))
    with (RefMath.fft_rec 12 loud_frame).
  rewrite loud_frame_bins. vm_compute. reflexivity.
Qed.

(** Claim C6, counterexample.  Very loud input reaches [normalize] with
    infinite bins: through the reference FFT, the single sample [2^100] of
    [loud_click] gives every bin of the one frame a magnitude of [+inf], so all
    12 chromagram bins are [+inf].  Their float total is [+inf], which is
    positive, and [normalize] divides each bin by it: [inf / inf] is NaN, so the
    normalised bins neither sum to 1 nor are non-negative. *)
Lemma detectKey_loud_click_nan :
  length loud_click = 4608%nat /\
  Key.calculateChromagram RefMath.env Key.initial.(Key.sampleRate) loud_click
    = repeat (S754_infinity false) 12 /\
  F32.lt F32.zero
    (fold_left F32.add (Key.calculateChromagram RefMath.env Key.initial.(Key.sampleRate) loud_click)
       F32.zero) = true /\
  Key.normalize (Key.calculateChromagram RefMath.env Key.initial.(Key.sampleRate) loud_click)
    = repeat S754_nan 12.
Proof.
  change Key.initial.(Key.sampleRate) with (F64.of_Z 44100).
  rewrite loud_click_chromagram.
  split; [unfold loud_click; rewrite length_map, zseq_length; reflexivity|].
  split; [reflexivity|]. split; vm_compute; reflexivity.
Qed.
